(** * mdview: tree model, filesystem loader and search engine

    A shallow embedding of the navigation core of mdview (Go):
    - [internal/tree]: [Node], [ChildByName], [AddChild], [SortRecursive],
      [Build], the lazy [EnsureLoaded] with its [Loader] interface, and the
      filesystem loader [FSLoader] with its [HasMarkdown] cache;
    - [internal/app/tagfilter.go]: [buildFilteredTree], [insertPath], [sortTree];
    - [internal/ui] (the Bubble Tea model): [performSearch], [clearSearch],
      [nextSearchMatch], [previousSearchMatch], [gotoSearchMatch],
      [onContentChanged], [findSearchMatches], [closestMatchIndex],
      [renderMarkdown], [handleFileEvent], [reloadActiveFile], and of the tree
      panel [treeWidth], [rebuildFlatTree], [updateTreeContent],
      [moveTreeSelection], [ensureSelectionVisible], [expandPath],
      [refreshTreeViewWithSelection] and [closeOrAscend].

    Conventions.
    - A Go [string] is a sequence of bytes: Rocq's [string] of [ascii].
    - [strings.ToLower] and [strings.TrimSpace] are written out for strings of
      ASCII bytes, the path Go takes when every byte is below 0x80.  For any
      other string they go by the tables of package [unicode], which are taken
      through the interface [Unicode]; lowering such a string may change its
      length.
    - A Go [int] is a [Z].  Byte offsets, line numbers and slice indexes are
      bounded by the length of a value held in memory, so they do not wrap;
      where two arbitrary ints are subtracted ([closestMatchIndex], [absInt])
      the 64-bit wrap-around is written out ([GoInt.wrap]).
    - A run-time panic (slice or index out of range) and an exhausted recursion
      budget are both [None]; the theorems say when a result is returned.
    - Library code the program calls but does not contain is taken through an
      interface: [sort.Slice] by its contract ([SliceSorter]), the viewport
      widget by its operations ([Viewport]), [ansi.Strip], [filepath.Clean],
      the renderer, the styles of the tree panel and the operating system as
      functions. *)

From Stdlib Require Import ZArith Lia List Ascii String OrdersEx.
From stdpp Require Import base option list strings gmap sorting.

Local Open Scope string_scope.
Local Open Scope Z_scope.

(** ** Go integers *)

Module GoInt.

Definition two63 : Z := 2 ^ 63.

(** Two's complement reduction of a mathematical integer to an [int] (64 bits). *)
Definition wrap (z : Z) : Z := (z + two63) mod (2 * two63) - two63.

Definition inRange (z : Z) : Prop := - two63 <= z < two63.

Definition sub (a b : Z) : Z := wrap (a - b).
Definition neg (a : Z) : Z := wrap (- a).

End GoInt.

(** ** Go strings *)

Module GoStrings.

Definition len (s : string) : Z := Z.of_nat (String.length s).

Definition isUpper (c : ascii) : bool :=
  ((65 <=? nat_of_ascii c) && (nat_of_ascii c <=? 90))%nat.

Definition lowerByte (c : ascii) : ascii :=
  if isUpper c then ascii_of_nat (nat_of_ascii c + 32) else c.

(** Whether every byte of [s] is below [utf8.RuneSelf] (0x80). *)
Fixpoint isASCII (s : string) : bool :=
  match s with
  | EmptyString => true
  | String c s' => (nat_of_ascii c <? 128)%nat && isASCII s'
  end.

(** The path of [strings.ToLower] for a string of ASCII bytes: every byte
    from [A] to [Z] is moved to its lower case letter. *)
Fixpoint lowerASCII (s : string) : string :=
  match s with
  | EmptyString => EmptyString
  | String c s' => String (lowerByte c) (lowerASCII s')
  end.

Definition newline : ascii := "010"%char.

(** [strings.Count(s, "\n")]. *)
Fixpoint CountNewlines (s : string) : Z :=
  match s with
  | EmptyString => 0
  | String c s' => (if Ascii.eqb c newline then 1 else 0) + CountNewlines s'
  end.

(** [strings.HasPrefix(s, prefix)]. *)
Definition HasPrefix (s prefix : string) : bool := String.prefix prefix s.

(** [strings.Index(s, substr)]: the first byte offset at which [substr]
    occurs in [s], or -1. *)
Fixpoint Index (s substr : string) : Z :=
  if HasPrefix s substr then 0
  else match s with
       | EmptyString => -1
       | String _ s' =>
           let i := Index s' substr in
           if i <? 0 then -1 else i + 1
       end.

Fixpoint dropBytes (n : nat) (s : string) : string :=
  match n, s with
  | O, _ => s
  | S n', String _ s' => dropBytes n' s'
  | S _, EmptyString => EmptyString
  end.

Fixpoint takeBytes (n : nat) (s : string) : string :=
  match n, s with
  | S n', String c s' => String c (takeBytes n' s')
  | _, _ => EmptyString
  end.

(** The slice expressions [s[lo:]] and [s[:hi]]; out of range they panic. *)
Definition sliceFrom (s : string) (lo : Z) : option string :=
  if (0 <=? lo) && (lo <=? len s) then Some (dropBytes (Z.to_nat lo) s) else None.

Definition sliceTo (s : string) (hi : Z) : option string :=
  if (0 <=? hi) && (hi <=? len s) then Some (takeBytes (Z.to_nat hi) s) else None.

(** [strings.HasSuffix(s, suffix)]. *)
Definition HasSuffix (s suffix : string) : bool :=
  (String.length suffix <=? String.length s)%nat
  && String.eqb (dropBytes (String.length s - String.length suffix) s) suffix.

(** [strings.Split(s, sep)] for a one-byte separator. *)
Fixpoint Split (s : string) (sep : ascii) : list string :=
  match s with
  | EmptyString => [EmptyString]
  | String c s' =>
      if Ascii.eqb c sep then EmptyString :: Split s' sep
      else match Split s' sep with
           | [] => [String c EmptyString]
           | h :: t => String c h :: t
           end
  end.

Fixpoint trimLeft (p : ascii -> bool) (s : string) : string :=
  match s with
  | EmptyString => EmptyString
  | String c s' => if p c then trimLeft p s' else s
  end.

Fixpoint trimRight (p : ascii -> bool) (s : string) : string :=
  match s with
  | EmptyString => EmptyString
  | String c s' =>
      match trimRight p s' with
      | EmptyString => if p c then EmptyString else String c EmptyString
      | t => String c t
      end
  end.

(** The six ASCII white space bytes of [strings.TrimSpace]:
    tab, newline, vertical tab, form feed, carriage return, space. *)
Definition isSpace (c : ascii) : bool :=
  let n := nat_of_ascii c in
  ((9 <=? n) && (n <=? 13) || (n =? 32))%nat.

(** The path of [strings.TrimSpace] for a string of ASCII bytes. *)
Definition trimSpaceASCII (s : string) : string := trimRight isSpace (trimLeft isSpace s).

(** [strings.TrimSpace] over what it does with a string that has a byte from
    0x80 on. *)
Definition trimSpaceWith (runes : string -> string) (s : string) : string :=
  if isASCII s then trimSpaceASCII s else runes s.

(** Package [unicode].  For a string with a byte from 0x80 on,
    [strings.ToLower] and [strings.TrimSpace] decode UTF-8 and go by the
    tables of package [unicode]; the tables are not part of the program, and
    the two functions are taken as they are on such strings:
    [lowerRunes] is [strings.Map(unicode.ToLower, s)], which may change the
    number of bytes, [trimSpaceRunes] is [strings.TrimSpace] with
    [unicode.IsSpace].  Two facts about them are used: [strings.Map] drops
    no rune when the mapping is [unicode.ToLower], so only the empty string
    is lowered to the empty string; and what is left of a string after
    trimming has no white space at either end, so that trimming it again
    changes nothing. *)
Class Unicode := {
  lowerRunes : string -> string;
  trimSpaceRunes : string -> string;
  lowerRunes_nonempty : forall s, lowerRunes s = EmptyString -> s = EmptyString;
  trimSpaceRunes_idem :
    forall s, trimSpaceWith trimSpaceRunes (trimSpaceWith trimSpaceRunes s)
              = trimSpaceWith trimSpaceRunes s
}.

(** [strings.ToLower] *)
Definition ToLower {uni : Unicode} (s : string) : string :=
  if isASCII s then lowerASCII s else lowerRunes s.

(** [strings.TrimSpace] *)
Definition TrimSpace {uni : Unicode} (s : string) : string := trimSpaceWith trimSpaceRunes s.

(** [strings.Trim(s, "/")]. *)
Definition TrimSlashes (s : string) : string :=
  trimRight (Ascii.eqb "/"%char) (trimLeft (Ascii.eqb "/"%char) s).

End GoStrings.

Import GoStrings.


(** ** Errors

    The values that travel in Go's [error] results and in the model's [err] slot. *)

Inductive Error :=
| errNotDir                      (* tree.errNotDir *)
| errNoMatch (query : string)    (* the message fmt.Errorf builds from the query *)
| errExternal (msg : string).    (* an error handed back by os, glamour or fsnotify *)

(** ** sort.Slice

    [sort.Slice] belongs to Go's library.  It permutes the slice, and when
    [less] is a strict weak order no element is left before one it is less
    than.  The order among elements that [less] does not separate is not
    specified (the sort is not stable), so nothing below depends on it. *)

Definition StrictWeakOrder {A : Type} (less : A -> A -> bool) : Prop :=
  (forall a, less a a = false) /\
  (forall a b c, less a b = true -> less b c = true -> less a c = true) /\
  (forall a b c, less a c = true -> less a b = true \/ less b c = true).

(** [notAfter less a b]: [a] may stand before [b]. *)
Definition notAfter {A : Type} (less : A -> A -> bool) (a b : A) : Prop :=
  less b a = false.

Class SliceSorter := {
  sortSlice : forall {A : Type}, (A -> A -> bool) -> list A -> list A;
  sortSlice_perm : forall (A : Type) (less : A -> A -> bool) (l : list A),
    Permutation (sortSlice less l) l;
  sortSlice_sorted : forall (A : Type) (less : A -> A -> bool) (l : list A),
    StrictWeakOrder less -> StronglySorted (notAfter less) (sortSlice less l)
}.

(** The insertion sort that [sort.Slice] runs on short slices, used as the
    instance of the contract wherever a concrete run is evaluated. *)
Fixpoint insertSorted {A : Type} (less : A -> A -> bool) (x : A) (l : list A) : list A :=
  match l with
  | [] => [x]
  | y :: l' => if less x y then x :: y :: l' else y :: insertSorted less x l'
  end.

Definition insertionSort {A : Type} (less : A -> A -> bool) (l : list A) : list A :=
  fold_left (fun acc x => insertSorted less x acc) l [].

(** ** internal/tree: the node model *)

Module Tree.

(** [type Node struct].  [Parent] is a back reference to the node that holds
    this one in [Children]; in a tree value it is the position of the node, so
    it is not a field here.  [loader] tells whether the node's loader is set
    (all nodes of a tree share the one loader of the root). *)
#[warnings="-register-all"]
Inductive Node : Type := mkNode {
  Name : string;
  Path : string;
  IsDir : bool;
  Open : bool;
  Children : list Node;
  loader : bool;
  loaded : bool
}.

Definition setChildren (n : Node) (cs : list Node) : Node :=
  mkNode (Name n) (Path n) (IsDir n) (Open n) cs (loader n) (loaded n).

Definition setLoader (n : Node) (l : bool) : Node :=
  mkNode (Name n) (Path n) (IsDir n) (Open n) (Children n) l (loaded n).

Definition setLoaded (n : Node) (b : bool) : Node :=
  mkNode (Name n) (Path n) (IsDir n) (Open n) (Children n) (loader n) b.

Definition nameIs (name : string) (child : Node) : bool := String.eqb (Name child) name.

(** [func (n *Node) ChildByName(name string) *Node] *)
Definition ChildByName (n : Node) (name : string) : option Node :=
  List.find (nameIs name) (Children n).

(** [func (n *Node) AddChild(child *Node)] *)
Definition AddChild (n child : Node) : Node :=
  setChildren n (Children n ++ [child]).

(** The comparison function handed to [sort.Slice] in [SortRecursive],
    [sortChildren] and [sortTree] (the three are the same text). *)
Definition nodeLess {uni : Unicode} (ci cj : Node) : bool :=
  if Bool.eqb (IsDir ci) (IsDir cj)
  then String.ltb (ToLower (Name ci)) (ToLower (Name cj))
  else if IsDir ci then true else false.

(** A mutation made through a pointer to the first child that satisfies [p]. *)
Fixpoint updateFirst {A : Type} (p : A -> bool) (f : A -> A) (l : list A) : list A :=
  match l with
  | [] => []
  | x :: l' => if p x then f x :: l' else x :: updateFirst p f l'
  end.

Fixpoint height (n : Node) : nat :=
  match n with
  | mkNode _ _ _ _ cs _ _ => S (fold_right (fun c acc => Nat.max (height c) acc) O cs)
  end.

(** [func (n *Node) SortRecursive()], with a budget for the depth of the
    recursion. *)
Fixpoint SortRecursiveN {uni : Unicode}
  {sorter : SliceSorter} (fuel : nat) (n : Node) : option Node :=
  match fuel with
  | O => None
  | S fuel' =>
      let sorted := sortSlice nodeLess (Children n) in
      children' ← mapM (fun child =>
                          if (0 <? length (Children child))%nat
                          then SortRecursiveN fuel' child
                          else Some child) sorted;
      Some (setChildren n children')
  end.

Definition SortRecursive {uni : Unicode} {sorter : SliceSorter} (n : Node) : option Node :=
  SortRecursiveN (height n) n.

(** [func joinPath(base, part string) string] (build.go, tagfilter.go) and
    [func join(base, part string) string] (fsloader.go). *)
Definition joinPath (base part : string) : string :=
  if String.eqb base EmptyString then part else String.append base (String "/"%char part).

Definition newDir (name path : string) : Node := mkNode name path true false [] false false.
Definition newFile (name path : string) : Node := mkNode name path false false [] false false.

(** The inner loop of [Build]: [current] walks down along [parts]. *)
Fixpoint insertParts (parts : list string) (currentPath : string) (current : Node) : Node :=
  match parts with
  | [] => current
  | [part] =>
      let filePath := joinPath currentPath part in
      match ChildByName current part with
      | Some _ => current
      | None => AddChild current (newFile part filePath)
      end
  | part :: rest =>
      let currentPath' := joinPath currentPath part in
      match ChildByName current part with
      | Some _ =>
          setChildren current
            (updateFirst (nameIs part) (insertParts rest currentPath') (Children current))
      | None => AddChild current (insertParts rest currentPath' (newDir part currentPath'))
      end
  end.

Definition newRootNode (rootName : string) : Node := mkNode rootName EmptyString true true [] false false.

Definition insertAll (root : Node) (files : list string) : Node :=
  fold_left (fun root rel => insertParts (Split rel "/"%char) EmptyString root) files root.

(** [func Build(rootName string, files []string) *Node] *)
Definition Build {uni : Unicode}
  {sorter : SliceSorter} (rootName : string) (files : list string) : option Node :=
  SortRecursive (insertAll (newRootNode rootName) files).

(** [func NewRoot(name string, loader Loader) *Node] *)
Definition NewRoot (name : string) : Node := mkNode name EmptyString true true [] true false.

(** [type Loader interface { List(path string) ([]*Node, error) }]: a loader is
    an object with a state of its own, which a call of [List] may change.
    [None] is a call that does not return. *)
Class Loader (S : Type) := {
  List : string -> S -> option ((Error + list Node) * S)
}.

(** [func (n *Node) sortChildren()] *)
Definition sortChildren {uni : Unicode} {sorter : SliceSorter} (n : Node) : Node :=
  setChildren n (sortSlice nodeLess (Children n)).

(** What a call of [EnsureLoaded] leaves: the node, the returned error, the
    paths [List] was called with, and the loader's state. *)
Record LoadResult (S : Type) := mkLoadResult {
  lrNode : Node;
  lrErr : option Error;
  lrCalls : list string;
  lrState : S
}.
Arguments mkLoadResult {S}.
Arguments lrNode {S}.
Arguments lrErr {S}.
Arguments lrCalls {S}.
Arguments lrState {S}.

(** [func (n *Node) EnsureLoaded() error] *)
Definition EnsureLoaded {uni : Unicode}
  {sorter : SliceSorter} {S : Type} {ld : Loader S} (n : Node) (st : S)
  : option (LoadResult S) :=
  if negb (IsDir n) || loaded n || negb (loader n)
  then Some (mkLoadResult n None [] st)
  else match List (Path n) st with
       | None => None
       | Some (inl e, st') => Some (mkLoadResult n (Some e) [Path n] st')
       | Some (inr children, st') =>
           let n1 := setChildren n (map (fun child => setLoader child (loader n)) children) in
           let n2 := sortChildren n1 in
           Some (mkLoadResult (setLoaded n2 true) None [Path n] st')
       end.

End Tree.

Import Tree.

(** ** internal/tree/fsloader.go *)

Module FS.

(** One [os.DirEntry]: its name and whether it is a directory. *)
Record DirEntry := mkEntry {
  entryName : string;
  entryIsDir : bool
}.

(** The operating system as the loader sees it, asked with the path relative
    to the loader's root (the loader only ever asks for [l.abs(relPath)]):
    [statIsDir] is [os.Stat] followed by [info.IsDir()], [readDir] is
    [os.ReadDir]. *)
Record FileSystem := mkFileSystem {
  statIsDir : string -> Error + bool;
  readDir : string -> Error + list DirEntry
}.

(** [type FSLoader struct]: the cache, and the paths [os.ReadDir] has been
    asked for so far (oldest first), kept to count the reads. *)
Record FSLoader := mkFSLoader {
  cache : gmap string bool;
  reads : list string
}.

(** [func NewFSLoader(root string) *FSLoader] *)
Definition NewFSLoader : FSLoader := mkFSLoader ∅ [].

Definition setCache (relPath : string) (b : bool) (l : FSLoader) : FSLoader :=
  mkFSLoader (<[relPath := b]> (cache l)) (reads l).

Definition logRead (relPath : string) (l : FSLoader) : FSLoader :=
  mkFSLoader (cache l) (reads l ++ [relPath]).

(** [func shouldSkipDir(name string) bool] *)
Definition shouldSkipDir {uni : Unicode} (name : string) : bool :=
  let lower := ToLower name in
  String.eqb lower ".git" || String.eqb lower "node_modules" || String.eqb lower ".hg"
  || String.eqb lower ".svn" || String.eqb lower ".idea" || String.eqb lower ".vscode".

(** [func isMarkdown(name string) bool] *)
Definition isMarkdown {uni : Unicode} (name : string) : bool :=
  let lower := ToLower name in
  HasSuffix lower ".md" || HasSuffix lower ".mdx".

(** The loop of [HasMarkdown] over the directory entries; [rec] is the
    recursive call. *)
Fixpoint scanEntries {uni : Unicode}
  (rec : string -> FSLoader -> option ((Error + bool) * FSLoader))
  (relPath : string) (entries : list DirEntry) (l : FSLoader)
  : option ((Error + bool) * FSLoader) :=
  match entries with
  | [] => Some (inr false, setCache relPath false l)
  | entry :: rest =>
      let name := entryName entry in
      if entryIsDir entry then
        if shouldSkipDir name then scanEntries rec relPath rest l
        else
          let childPath := joinPath relPath name in
          match rec childPath l with
          | None => None
          | Some (inl e, l') => Some (inl e, l')
          | Some (inr true, l') => Some (inr true, setCache relPath true l')
          | Some (inr false, l') => scanEntries rec relPath rest l'
          end
      else if isMarkdown name then Some (inr true, setCache relPath true l)
      else scanEntries rec relPath rest l
  end.

(** [func (l *FSLoader) HasMarkdown(relPath string) (bool, error)], with a
    budget for the depth of the recursion.  Go's [(false, err)] is [inl err]. *)
Fixpoint HasMarkdownN {uni : Unicode}
  (fs : FileSystem) (fuel : nat) (relPath : string) (l : FSLoader)
  : option ((Error + bool) * FSLoader) :=
  match fuel with
  | O => None
  | S fuel' =>
      match cache l !! relPath with
      | Some cached => Some (inr cached, l)
      | None =>
          match readDir fs relPath with
          | inl e => Some (inl e, logRead relPath l)
          | inr entries =>
              scanEntries (HasMarkdownN fs fuel') relPath entries (logRead relPath l)
          end
      end
  end.

(** The loop of [List] over the directory entries; [nodes] is the slice built
    so far. *)
Fixpoint listEntries {uni : Unicode} (fs : FileSystem) (fuel : nat) (relPath : string)
  (entries : list DirEntry) (nodes : list Node) (l : FSLoader)
  : option ((Error + list Node) * FSLoader) :=
  match entries with
  | [] => Some (inr nodes, l)
  | entry :: rest =>
      let name := entryName entry in
      if entryIsDir entry then
        if shouldSkipDir name then listEntries fs fuel relPath rest nodes l
        else
          let childPath := joinPath relPath name in
          match HasMarkdownN fs fuel childPath l with
          | None => None
          | Some (inl e, l') => Some (inl e, l')
          | Some (inr false, l') => listEntries fs fuel relPath rest nodes l'
          | Some (inr true, l') =>
              listEntries fs fuel relPath rest (nodes ++ [newDir name childPath]) l'
          end
      else if negb (isMarkdown name) then listEntries fs fuel relPath rest nodes l
      else listEntries fs fuel relPath rest (nodes ++ [newFile name (joinPath relPath name)]) l
  end.

(** [func (l *FSLoader) List(relPath string) ([]*Node, error)] *)
Definition ListN {uni : Unicode} (fs : FileSystem) (fuel : nat) (relPath : string) (l : FSLoader)
  : option ((Error + list Node) * FSLoader) :=
  match statIsDir fs relPath with
  | inl e => Some (inl e, l)
  | inr false => Some (inl errNotDir, l)
  | inr true =>
      match readDir fs relPath with
      | inl e => Some (inl e, logRead relPath l)
      | inr entries => listEntries fs fuel relPath entries [] (logRead relPath l)
      end
  end.

(** The filesystem loader as a [Loader]: the file system and the budget are
    fixed when the loader is made. *)
Definition fsLoader {uni : Unicode} (fs : FileSystem) (fuel : nat) : Loader FSLoader :=
  {| List := ListN fs fuel |}.

End FS.

Import FS.

(** ** internal/app/tagfilter.go *)

Module TagFilter.

Definition markFile (n : Node) : Node :=
  mkNode (Name n) (Path n) false false [] (loader n) (loaded n).

(** [func insertPath(root *tree.Node, rel string)]: the loop over [parts],
    with [current] walking down. *)
Fixpoint insertPathParts (parts : list string) (parentPath : string) (current : Node) : Node :=
  match parts with
  | [] => current
  | part :: rest =>
      let isLast := match rest with [] => true | _ :: _ => false end in
      let childPath := joinPath parentPath part in
      let descend (child : Node) : Node :=
        insertPathParts rest childPath (if isLast then markFile child else child) in
      match ChildByName current part with
      | Some _ => setChildren current (updateFirst (nameIs part) descend (Children current))
      | None =>
          setChildren current
            (Children current ++ [descend (mkNode part childPath (negb isLast) false [] false false)])
      end
  end.

Definition insertPath (root : Node) (rel : string) : Node :=
  insertPathParts (Split rel "/"%char) EmptyString root.

(** [func sortTree(node *tree.Node)], with a budget for the depth of the
    recursion. *)
Fixpoint sortTreeN {uni : Unicode}
  {sorter : SliceSorter} (fuel : nat) (node : Node) : option Node :=
  match fuel with
  | O => None
  | S fuel' =>
      if (length (Children node) =? 0)%nat then Some node
      else
        let sorted := sortSlice nodeLess (Children node) in
        children' ← mapM (sortTreeN fuel') sorted;
        Some (setChildren node children')
  end.

Definition sortTree {uni : Unicode} {sorter : SliceSorter} (node : Node) : option Node :=
  sortTreeN (height node) node.

Definition insertTrimmed (root : Node) (relPaths : list string) : Node :=
  fold_left (fun root rel =>
               let trimmed := TrimSlashes rel in
               if String.eqb trimmed EmptyString then root else insertPath root trimmed)
            relPaths root.

(** [func buildFilteredTree(displayRoot string, relPaths []string) *tree.Node] *)
Definition buildFilteredTree {uni : Unicode}
  {sorter : SliceSorter} (displayRoot : string) (relPaths : list string)
  : option Node :=
  sortTree (insertTrimmed (newRootNode displayRoot) relPaths).

End TagFilter.

Import TagFilter.

(** ** internal/ui: search and file watching in the Bubble Tea model *)

Module UI.

(** The viewport widget (bubbles/viewport), as far as the controller uses it:
    it reads [Height] and [YOffset] and calls [SetYOffset] and [SetContent]. *)
Class Viewport (VP : Type) := {
  vpHeight : VP -> Z;
  vpYOffset : VP -> Z;
  SetYOffset : VP -> Z -> VP;
  SetContent : VP -> string -> VP
}.

(** The two library functions the controller applies to text and paths. *)
Class Collaborators := {
  ansiStrip : string -> string;        (* ansi.Strip *)
  filepathClean : string -> string     (* filepath.Clean *)
}.

(** [type Model struct], the fields the functions below read or write.  The
    remaining fields (tree panel, key handling, search input line, the
    watcher's handle and directory) are not touched by them.  [renderer] is
    [None] for a nil renderer and otherwise its [Render] method; [watchChan]
    tells whether the channel exists. *)
Record Model (VP : Type) := mkModel {
  contentVP : VP;
  renderer : option (string -> Error + string);
  rawContent : string;
  err : option Error;
  activeAbsPath : string;
  renderedContent : string;
  searchQuery : string;
  searchMatches : list Z;
  searchIndex : Z;
  watchedFile : string;
  watchChan : bool
}.
Arguments mkModel {VP}.
Arguments contentVP {VP}.
Arguments renderer {VP}.
Arguments rawContent {VP}.
Arguments err {VP}.
Arguments activeAbsPath {VP}.
Arguments renderedContent {VP}.
Arguments searchQuery {VP}.
Arguments searchMatches {VP}.
Arguments searchIndex {VP}.
Arguments watchedFile {VP}.
Arguments watchChan {VP}.

Section Setters.
Context {VP : Type}.

Definition setContentVP (m : Model VP) (v : VP) : Model VP :=
  mkModel v (renderer m) (rawContent m) (err m) (activeAbsPath m) (renderedContent m)
          (searchQuery m) (searchMatches m) (searchIndex m) (watchedFile m) (watchChan m).

Definition setRawContent (m : Model VP) (s : string) : Model VP :=
  mkModel (contentVP m) (renderer m) s (err m) (activeAbsPath m) (renderedContent m)
          (searchQuery m) (searchMatches m) (searchIndex m) (watchedFile m) (watchChan m).

Definition setErr (m : Model VP) (e : option Error) : Model VP :=
  mkModel (contentVP m) (renderer m) (rawContent m) e (activeAbsPath m) (renderedContent m)
          (searchQuery m) (searchMatches m) (searchIndex m) (watchedFile m) (watchChan m).

Definition setRenderedContent (m : Model VP) (s : string) : Model VP :=
  mkModel (contentVP m) (renderer m) (rawContent m) (err m) (activeAbsPath m) s
          (searchQuery m) (searchMatches m) (searchIndex m) (watchedFile m) (watchChan m).

Definition setSearchQuery (m : Model VP) (q : string) : Model VP :=
  mkModel (contentVP m) (renderer m) (rawContent m) (err m) (activeAbsPath m) (renderedContent m)
          q (searchMatches m) (searchIndex m) (watchedFile m) (watchChan m).

Definition setSearchMatches (m : Model VP) (ms : list Z) : Model VP :=
  mkModel (contentVP m) (renderer m) (rawContent m) (err m) (activeAbsPath m) (renderedContent m)
          (searchQuery m) ms (searchIndex m) (watchedFile m) (watchChan m).

Definition setSearchIndex (m : Model VP) (i : Z) : Model VP :=
  mkModel (contentVP m) (renderer m) (rawContent m) (err m) (activeAbsPath m) (renderedContent m)
          (searchQuery m) (searchMatches m) i (watchedFile m) (watchChan m).

End Setters.

(** [func clamp(value, low, high int) int] *)
Definition clamp (value low high : Z) : Z :=
  if value <? low then low
  else if value >? high then high
  else value.

(** [func max(a, b int) int] *)
Definition max (a b : Z) : Z := if a >? b then a else b.

(** [func absInt(v int) int] *)
Definition absInt (v : Z) : Z := if v <? 0 then GoInt.neg v else v.

(** The loop of [closestMatchIndex] from [i] on, [rest] being [matches[i:]]. *)
Fixpoint closestLoop (rest : list Z) (line i bestIndex bestDiff : Z) : Z :=
  match rest with
  | [] => bestIndex
  | mi :: rest' =>
      let diff := absInt (GoInt.sub mi line) in
      if diff <? bestDiff
      then closestLoop rest' line (i + 1) i diff
      else closestLoop rest' line (i + 1) bestIndex bestDiff
  end.

(** [func closestMatchIndex(matches []int, line int) int] *)
Definition closestMatchIndex (matches : list Z) (line : Z) : Z :=
  match matches with
  | [] => 0
  | m0 :: rest => closestLoop rest line 1 0 (absInt (GoInt.sub m0 line))
  end.

(** The [for] loop of [findSearchMatches]; [fuel] bounds the iterations. *)
Fixpoint searchLoop (fuel : nat) (stripped lowerContent lowerQuery : string)
  (matches : list Z) (offset : Z) : option (list Z) :=
  match fuel with
  | O => None
  | S fuel' =>
      rest ← sliceFrom lowerContent offset;
      let pos := Index rest lowerQuery in
      if pos =? -1 then Some matches
      else
        let absolute := offset + pos in
        before ← sliceTo stripped absolute;
        let line := CountNewlines before in
        searchLoop fuel' stripped lowerContent lowerQuery (matches ++ [line])
                   (absolute + len lowerQuery)
  end.

(** [func findSearchMatches(content, query string) []int] *)
Definition findSearchMatches {uni : Unicode}
  {collab : Collaborators} (content query : string) : option (list Z) :=
  let query := TrimSpace query in
  if String.eqb query EmptyString || String.eqb content EmptyString then Some []
  else
    let stripped := ansiStrip content in
    let lowerContent := ToLower stripped in
    let lowerQuery := ToLower query in
    searchLoop (S (String.length lowerContent)) stripped lowerContent lowerQuery [] 0.

Section Controller.
Context {VP : Type} {viewport : Viewport VP} {collab : Collaborators} {uni : Unicode}.

Definition lenMatches (m : Model VP) : Z := Z.of_nat (length (searchMatches m)).

(** [func (m *Model) gotoSearchMatch()] *)
Definition gotoSearchMatch (m : Model VP) : option (Model VP) :=
  if (lenMatches m =? 0) || (searchIndex m <? 0) then Some m
  else
    let totalLines := CountNewlines (renderedContent m) + 1 in
    if totalLines <=? 0 then Some m
    else
      targetLine ← searchMatches m !! Z.to_nat (searchIndex m);
      let maxOffset := max (totalLines - vpHeight (contentVP m)) 0 in
      let offset := clamp targetLine 0 maxOffset in
      Some (setContentVP m (SetYOffset (contentVP m) offset)).

(** [func (m *Model) performSearch(query string, resetIndex bool)] *)
Definition performSearch (query : string) (resetIndex : bool) (m : Model VP)
  : option (Model VP) :=
  let query := TrimSpace query in
  let m := setSearchQuery m query in
  matches ← findSearchMatches (renderedContent m) query;
  let m := setSearchMatches m matches in
  if lenMatches m =? 0
  then Some (setErr (setSearchIndex m (-1)) (Some (errNoMatch query)))
  else
    let m := if resetIndex || (searchIndex m <? 0) || (searchIndex m >=? lenMatches m)
             then setSearchIndex m 0 else m in
    gotoSearchMatch (setErr m None).

(** [func (m *Model) nextSearchMatch()] *)
Definition nextSearchMatch (m : Model VP) : option (Model VP) :=
  if lenMatches m =? 0 then Some m
  else
    let m := if searchIndex m <? 0
             then setSearchIndex m 0
             else setSearchIndex m (Z.rem (searchIndex m + 1) (lenMatches m)) in
    gotoSearchMatch (setErr m None).

(** [func (m *Model) previousSearchMatch()] *)
Definition previousSearchMatch (m : Model VP) : option (Model VP) :=
  if lenMatches m =? 0 then Some m
  else
    let m := if searchIndex m <=? 0
             then setSearchIndex m (lenMatches m - 1)
             else setSearchIndex m (searchIndex m - 1) in
    gotoSearchMatch (setErr m None).

(** [func (m *Model) onContentChanged()] *)
Definition onContentChanged (m : Model VP) : option (Model VP) :=
  if String.eqb (searchQuery m) EmptyString then Some m
  else
    prevLine ← (if (lenMatches m >? 0) && (searchIndex m >=? 0) && (searchIndex m <? lenMatches m)
                then searchMatches m !! Z.to_nat (searchIndex m)
                else Some (-1));
    matches ← findSearchMatches (renderedContent m) (searchQuery m);
    let m := setSearchMatches m matches in
    if lenMatches m =? 0
    then Some (setErr (setSearchIndex m (-1)) (Some (errNoMatch (searchQuery m))))
    else
      let m := if prevLine >=? 0
               then setSearchIndex m (closestMatchIndex (searchMatches m) prevLine)
               else if (searchIndex m <? 0) || (searchIndex m >=? lenMatches m)
                    then setSearchIndex m 0
                    else m in
      gotoSearchMatch (setErr m None).

(** [func (m *Model) renderMarkdown()] *)
Definition renderMarkdown (m : Model VP) : option (Model VP) :=
  match renderer m with
  | None => Some m
  | Some render =>
      match render (rawContent m) with
      | inl e => Some (setErr m (Some e))
      | inr rendered =>
          let m := setErr m None in
          let m := setContentVP m (SetContent (contentVP m) rendered) in
          let m := setRenderedContent m rendered in
          onContentChanged m
      end
  end.

(** [func (m *Model) reloadActiveFile()].  [readFile] is [os.ReadFile] at the
    time of the call; the second component lists the paths it was asked for. *)
Definition reloadActiveFile (readFile : string -> Error + string) (m : Model VP)
  : option (Model VP * list string) :=
  if String.eqb (activeAbsPath m) EmptyString then Some (m, [])
  else
    match readFile (activeAbsPath m) with
    | inl e => Some (setErr m (Some e), [activeAbsPath m])
    | inr data =>
        let offset := vpYOffset (contentVP m) in
        let m0 := setRawContent m data in
        m1 ← renderMarkdown m0;
        let m2 := match err m1 with
                  | None => setContentVP m1 (SetYOffset (contentVP m1) offset)
                  | Some _ => m1
                  end in
        Some (m2, [activeAbsPath m])
    end.

(** [type fileEventMsg struct]; [op] is the fsnotify operation mask. *)
Record fileEventMsg := mkFileEvent {
  path : string;
  op : Z
}.

(** The command a handler returns: nil, or the wait for the next message on
    the watch channel. *)
Inductive Cmd := cmdNil | cmdWaitForFileEvent.

(** [func (m *Model) waitForFileEvent() tea.Cmd] *)
Definition waitForFileEvent (m : Model VP) : Cmd :=
  if watchChan m then cmdWaitForFileEvent else cmdNil.

(** [func (m *Model) handleFileEvent(msg fileEventMsg) tea.Cmd] *)
Definition handleFileEvent (readFile : string -> Error + string) (msg : fileEventMsg)
  (m : Model VP) : option (Model VP * Cmd * list string) :=
  if String.eqb (watchedFile m) EmptyString then Some (m, waitForFileEvent m, [])
  else if negb (String.eqb (filepathClean (path msg)) (filepathClean (watchedFile m)))
       then Some (m, waitForFileEvent m, [])
       else
         '(m', readLog) ← reloadActiveFile readFile m;
         Some (m', waitForFileEvent m', readLog).

End Controller.

(** A viewport in the manner of the bubbles widget, for concrete runs: the
    offset is kept between 0 and the number of lines less the height, and new
    content pulls an offset that lies past the last line back to the bottom. *)
Record PlainViewport := mkPlainViewport {
  pvHeight : Z;
  pvYOffset : Z;
  pvLines : list string
}.

Definition pvMaxYOffset (v : PlainViewport) : Z :=
  max 0 (Z.of_nat (length (pvLines v)) - pvHeight v).

Definition pvSetYOffset (v : PlainViewport) (n : Z) : PlainViewport :=
  mkPlainViewport (pvHeight v) (clamp n 0 (pvMaxYOffset v)) (pvLines v).

Definition pvSetContent (v : PlainViewport) (s : string) : PlainViewport :=
  let v' := mkPlainViewport (pvHeight v) (pvYOffset v) (Split s newline) in
  if pvYOffset v' >? Z.of_nat (length (pvLines v')) - 1
  then pvSetYOffset v' (pvMaxYOffset v')
  else v'.

#[export] Instance plainViewport : Viewport PlainViewport :=
  {| vpHeight := pvHeight; vpYOffset := pvYOffset;
     SetYOffset := pvSetYOffset; SetContent := pvSetContent |}.

(** Text without escape sequences and paths already in their shortest form:
    [ansi.Strip] and [filepath.Clean] return them as they are. *)
Definition plainCollaborators : Collaborators :=
  {| ansiStrip := fun s => s; filepathClean := fun p => p |}.

End UI.

Import UI.

(** ** Specification predicates *)

(** *** The order of children *)

Definition lowerLe {uni : Unicode} (a b : Node) : Prop :=
  String.leb (ToLower (Name a)) (ToLower (Name b)) = true.

(** All directories before all files, and each of the two groups ascending by
    the lowercase form of the names. *)
Definition childrenOrdered {uni : Unicode} (cs : list Node) : Prop :=
  exists dirs files,
    cs = (dirs ++ files)%list /\
    Forall (fun c => IsDir c = true) dirs /\
    Forall (fun c => IsDir c = false) files /\
    StronglySorted lowerLe dirs /\
    StronglySorted lowerLe files.

(** The same at every level of the tree. *)
#[warnings="-register-all"]
Inductive treeOrdered {uni : Unicode} : Node -> Prop :=
| treeOrdered_intro n :
    childrenOrdered (Children n) ->
    Forall treeOrdered (Children n) ->
    treeOrdered n.

(** The name and the kind of a node: all that [nodeLess] looks at. *)
Definition sameKey (c c' : Node) : Prop := Name c' = Name c /\ IsDir c' = IsDir c.

(** What a recursive sort keeps of a node. *)
Definition sameButChildren (n n' : Node) : Prop :=
  Name n' = Name n /\ Path n' = Path n /\ IsDir n' = IsDir n /\ Open n' = Open n /\
  loader n' = loader n /\ loaded n' = loaded n.

(** A pointer to a node of a tree is the position of the node: the indexes of
    the children to follow from the root. *)
Fixpoint nodeAt (pos : list nat) (n : Node) : option Node :=
  match pos with
  | [] => Some n
  | i :: pos' => c ← Children n !! i; nodeAt pos' c
  end.

(** The tree after the node at [pos] has been changed into [new] in place. *)
Fixpoint replaceAt (pos : list nat) (new : Node) (n : Node) : Node :=
  match pos with
  | [] => new
  | i :: pos' =>
      match Children n !! i with
      | Some c => setChildren n (<[i := replaceAt pos' new c]> (Children n))
      | None => n
      end
  end.

(** The node a path of names leads to, one [ChildByName] per segment. *)
Fixpoint lookupPath (parts : list string) (n : Node) : option Node :=
  match parts with
  | [] => Some n
  | part :: rest => c ← ChildByName n part; lookupPath rest c
  end.

(** *** The calls a loader gets *)

(** Any loader, made to count the calls of [List] it gets. *)
Definition countingLoader {S : Type} (ld : Loader S) : Loader (S * nat) :=
  {| List := fun path st =>
       match List (Loader := ld) path (fst st) with
       | None => None
       | Some (res, st') => Some (res, (st', Datatypes.S (snd st)))
       end |}.

(** *** Documents in a subtree of the file system *)

(** The subtree at [relPath] can be read and holds no document, directories of
    the skip list left out. *)
Inductive noDocs {uni : Unicode} (fs : FileSystem) : string -> Prop :=
| noDocs_intro relPath entries :
    readDir fs relPath = inr entries ->
    (forall e, In e entries -> entryIsDir e = false -> isMarkdown (entryName e) = false) ->
    (forall e, In e entries -> entryIsDir e = true -> shouldSkipDir (entryName e) = false ->
               noDocs fs (joinPath relPath (entryName e))) ->
    noDocs fs relPath.

(** The subtree at [relPath] holds a document that a walk reaches. *)
Inductive hasDoc {uni : Unicode} (fs : FileSystem) : string -> Prop :=
| hasDoc_file relPath entries e :
    readDir fs relPath = inr entries ->
    In e entries -> entryIsDir e = false -> isMarkdown (entryName e) = true ->
    hasDoc fs relPath
| hasDoc_dir relPath entries e :
    readDir fs relPath = inr entries ->
    In e entries -> entryIsDir e = true -> shouldSkipDir (entryName e) = false ->
    hasDoc fs (joinPath relPath (entryName e)) ->
    hasDoc fs relPath.

(** Below [relPath] the file system has finite depth: the directory cannot be
    read, or it can and the same holds for each of its subdirectories that a
    walk enters. *)
Inductive finiteBelow {uni : Unicode} (fs : FileSystem) : string -> Prop :=
| finiteBelow_unreadable relPath e :
    readDir fs relPath = inl e -> finiteBelow fs relPath
| finiteBelow_dir relPath entries :
    readDir fs relPath = inr entries ->
    (forall e, In e entries -> entryIsDir e = true -> shouldSkipDir (entryName e) = false ->
               finiteBelow fs (joinPath relPath (entryName e))) ->
    finiteBelow fs relPath.

(** Every entry of the cache tells the truth about the file system. *)
Definition cacheSound {uni : Unicode} (fs : FileSystem) (c : gmap string bool) : Prop :=
  forall relPath b, c !! relPath = Some b ->
    match b return Prop with
    | true => hasDoc fs relPath
    | false => noDocs fs relPath
    end.

(** *** Occurrences of a query *)

(** [q] occurs in [s] at byte offset [p]. *)
Definition occursAt (s q : string) (p : nat) : Prop :=
  (p + String.length q <= String.length s)%nat /\ HasPrefix (dropBytes p s) q = true.

(** [scanFrom s q from ps]: [ps] are the offsets a scan from [from] finds when
    it takes the first occurrence at or after its position and goes on right
    behind the end of that occurrence. *)
Inductive scanFrom (s q : string) : nat -> list nat -> Prop :=
| scanFrom_done from :
    (forall p, (from <= p)%nat -> ~ occursAt s q p) ->
    scanFrom s q from []
| scanFrom_hit from p ps :
    (from <= p)%nat ->
    occursAt s q p ->
    (forall p', (from <= p' < p)%nat -> ~ occursAt s q p') ->
    scanFrom s q (p + String.length q) ps ->
    scanFrom s q from (p :: ps).

(** The line a byte offset of [stripped] lies on. *)
Definition lineOf (stripped : string) (p : nat) : Z :=
  CountNewlines (takeBytes p stripped).

(** A line number: a non-negative [int]. *)
Definition isLine (z : Z) : Prop := 0 <= z < GoInt.two63.

(** Lowering does not make the stripped content longer, so that every
    offset of the lowered content is an offset of the stripped content. *)
Definition lowersWithin {collab : Collaborators} {uni : Unicode} (content : string) : Prop :=
  (String.length (ToLower (ansiStrip content)) <= String.length (ansiStrip content))%nat.

(** *** The file event claim as the specification words it *)

(** On a message for the watched file: the active file's bytes are read once,
    the rendered content is made anew from them, and the viewport stands
    afterwards at the offset it had before when the new content has at least
    that many lines, and otherwise at an offset within the new content. *)
Definition reloadsAndRestores {VP : Type} {viewport : Viewport VP} {collab : Collaborators}
  {uni : Unicode} (readFile : string -> Error + string) (msg : fileEventMsg) (m : Model VP)
  : Prop :=
  exists m' cmd data render,
    handleFileEvent readFile msg m = Some (m', cmd, [activeAbsPath m]) /\
    readFile (activeAbsPath m) = inr data /\
    renderer m = Some render /\
    rawContent m' = data /\
    render data = inr (renderedContent m') /\
    (vpYOffset (contentVP m) <= CountNewlines (renderedContent m') + 1 ->
     vpYOffset (contentVP m') = vpYOffset (contentVP m)) /\
    (CountNewlines (renderedContent m') + 1 < vpYOffset (contentVP m) ->
     vpYOffset (contentVP m') <= CountNewlines (renderedContent m') + 1).

(** *** The nearest match *)

(** [i] is the index of the match nearest to [line], the lowest such index. *)
Definition closestIn (matches : list Z) (line : Z) (i : Z) : Prop :=
  exists mi,
    0 <= i /\ matches !! Z.to_nat i = Some mi /\
    (forall j mj, matches !! j = Some mj -> Z.abs (mi - line) <= Z.abs (mj - line)) /\
    (forall j mj, (j < Z.to_nat i)%nat -> matches !! j = Some mj ->
                  Z.abs (mi - line) < Z.abs (mj - line)).

Section Reconciled.
Context {VP : Type}.

(** The line of the current match, as [onContentChanged] reads it: -1 when
    there is none. *)
Definition prevLineOf (m : Model VP) : option Z :=
  if (lenMatches m >? 0) && (searchIndex m >=? 0) && (searchIndex m <? lenMatches m)
  then searchMatches m !! Z.to_nat (searchIndex m)
  else Some (-1).

(** The index [onContentChanged] chooses among new matches. *)
Definition reconciledIndex (m : Model VP) (prevLine : Z) (matches : list Z) : Z :=
  if prevLine >=? 0 then closestMatchIndex matches prevLine
  else if (searchIndex m <? 0) || (searchIndex m >=? Z.of_nat (length matches)) then 0
       else searchIndex m.

End Reconciled.

(** *** The outcome of a call of HasMarkdown *)

(** What a call of [HasMarkdown] that returns has done. *)
Definition callOutcome {uni : Unicode} (fs : FileSystem) (p : string) (l : FSLoader)
  (r : Error + bool) (l' : FSLoader) : Prop :=
  (exists visited, reads l' = (reads l ++ visited)%list /\
     forall b, r = inr b -> forall q, In q visited -> is_Some (cache l' !! q)) /\
  (forall q, is_Some (cache l !! q) -> is_Some (cache l' !! q)) /\
  (forall b, r = inr b -> cache l' !! p = Some b) /\
  (cacheSound fs (cache l) ->
     cacheSound fs (cache l') /\
     (r = inr true -> hasDoc fs p) /\ (r = inr false -> noDocs fs p)) /\
  cache l ⊆ cache l'.

(** The entries of a directory that a scan has passed without a hit. *)
Definition passedOk {uni : Unicode}
  (fs : FileSystem) (p : string) (passed : list DirEntry) : Prop :=
  (forall e, In e passed -> entryIsDir e = false -> isMarkdown (entryName e) = false) /\
  (forall e, In e passed -> entryIsDir e = true -> shouldSkipDir (entryName e) = false ->
             noDocs fs (joinPath p (entryName e))).

Definition scanOutcome {uni : Unicode} (fs : FileSystem) (p : string) (entries rest : list DirEntry)
  (l : FSLoader) (r : Error + bool) (l' : FSLoader) : Prop :=
  (exists visited, reads l' = (reads l ++ visited)%list /\
     forall b, r = inr b -> forall q, In q visited -> is_Some (cache l' !! q)) /\
  (forall q, is_Some (cache l !! q) -> is_Some (cache l' !! q)) /\
  (forall b, r = inr b -> cache l' !! p = Some b) /\
  (cacheSound fs (cache l) -> readDir fs p = inr entries ->
   forall passed, entries = (passed ++ rest)%list -> passedOk fs p passed ->
     cacheSound fs (cache l') /\
     (r = inr true -> hasDoc fs p) /\ (r = inr false -> noDocs fs p)) /\
  (forall q b, q <> p -> cache l !! q = Some b -> cache l' !! q = Some b).

(** *** Values for concrete runs *)

(** A small file system, seen from the loader's root [docs/]: the root holds
    the directory [sub/] with [notes.md] and [readme.txt], the directory
    [.git/], and the files [A.md] and [b.md]. *)
Definition demoFS : FileSystem :=
  mkFileSystem
    (fun p => if String.eqb p EmptyString || String.eqb p "sub" then inr true
              else inl (errExternal "no such file or directory"))
    (fun p => if String.eqb p EmptyString
              then inr [mkEntry ".git" true; mkEntry "A.md" false; mkEntry "b.md" false;
                        mkEntry "sub" true]
              else if String.eqb p "sub"
              then inr [mkEntry "notes.md" false; mkEntry "readme.txt" false]
              else inl (errExternal "no such file or directory")).

(** The root node of the lazy tree over it. *)
Definition demoDir : Node := NewRoot "docs".

(** A directory node whose directory is not there any more. *)
Definition missingDir : Node := mkNode "gone" "gone" true true [] true false.

(** The file system of the scenario: [docs/] holds nothing but
    [docs/sub/readme.txt]. *)
Definition docsWithoutDocuments : FileSystem :=
  mkFileSystem
    (fun p => if String.eqb p "docs" || String.eqb p "docs/sub" then inr true
              else inl (errExternal "no such file or directory"))
    (fun p => if String.eqb p "docs" then inr [mkEntry "sub" true]
              else if String.eqb p "docs/sub" then inr [mkEntry "readme.txt" false]
              else inl (errExternal "no such file or directory")).

(** A string given by the values of its bytes. *)
Definition bytes (l : list Z) : string :=
  fold_right (fun n s => String (ascii_of_nat (Z.to_nat n)) s) EmptyString l.

(** The text of the scenario: two lines, [hello] twice on the first (once
    with a capital) and once on the second. *)
Definition helloText : string :=
  String.append "Hello hello world" (String newline "hello again").


(** The letters outside ASCII of the texts that are run below: as
    [unicode.ToLower] has it, the Kelvin sign U+212A (bytes E2 84 AA) is
    lowered to [k] and the letter U+023A (C8 BA) to U+2C65 (E2 B1 A5); every
    other byte from 0x80 on is left as it is. *)
Fixpoint lowerSample (s : string) : string :=
  match s with
  | EmptyString => EmptyString
  | String c1 rest1 =>
      match rest1 with
      | EmptyString => String (lowerByte c1) EmptyString
      | String c2 rest2 =>
          if Ascii.eqb c1 "200"%char && Ascii.eqb c2 "186"%char
          then String "226"%char (String "177"%char (String "165"%char (lowerSample rest2)))
          else
            match rest2 with
            | EmptyString => String (lowerByte c1) (lowerSample rest1)
            | String c3 rest3 =>
                if Ascii.eqb c1 "226"%char && Ascii.eqb c2 "132"%char && Ascii.eqb c3 "170"%char
                then String "k"%char (lowerSample rest3)
                else String (lowerByte c1) (lowerSample rest1)
            end
      end
  end.

(** The Kelvin sign U+212A, a newline and [k]; the letter U+023A twice and
    [x]. *)
Definition kelvinText : string := bytes [226; 132; 170; 10; 107].
Definition strokeText : string := bytes [200; 186; 200; 186; 120].

Definition helloModel : Model PlainViewport :=
  mkModel (mkPlainViewport 1 0 ["Hello hello world"; "hello again"])
          None helloText None EmptyString helloText "hello" [0; 0; 1] 0 EmptyString false.

Definition linesText (ls : list string) : string :=
  String.concat (String newline EmptyString) ls.

(** Ten lines with [needle] on the lines 2, 6 and 9. *)
Definition needleText : string :=
  linesText ["a"; "a"; "needle"; "a"; "a"; "a"; "needle"; "a"; "a"; "needle"].

(** Ten lines without [needle]. *)
Definition plainText : string := linesText (repeat "y" 10).

(** A model whose current match, the second of three, is on line 5, and whose
    rendered content has just become [needleText]. *)
Definition reconcileModel : Model PlainViewport :=
  mkModel (mkPlainViewport 5 5 (Split needleText newline))
          None needleText None EmptyString needleText "needle" [2; 5; 9] 1 EmptyString false.

(** Thirty lines without [needle], and thirty lines with [needle] on line 8. *)
Definition thirtyLines : string := linesText (repeat "a" 30).

Definition needleOnLine8 : string :=
  linesText (repeat "a" 8 ++ ["needle"] ++ repeat "a" 21).

(** A model that shows [/docs/a.md] with the given content, watches the file,
    renders text as it is, and has a viewport of 5 lines at the given offset;
    [query] is the active query, [matches] its matches. *)
Definition watchingModel (content : string) (offset : Z) (query : string)
  (matches : list Z) (index : Z) : Model PlainViewport :=
  mkModel (mkPlainViewport 5 offset (Split content newline))
          (Some (fun raw => inr raw)) content None "/docs/a.md"
          content query matches index "/docs/a.md" true.

(** The reader has scrolled to line 8; no search is active. *)
Definition readingModel : Model PlainViewport :=
  watchingModel thirtyLines 8 EmptyString [] (-1).

(** The reader has searched for [needle] and stands at its match on line 8. *)
Definition searchingModel : Model PlainViewport :=
  watchingModel needleOnLine8 8 "needle" [8] 0.

(** The file has the ten lines of [plainText]. *)
Definition fileRewritten : string -> Error + string :=
  fun p => if String.eqb p "/docs/a.md" then inr plainText
           else inl (errExternal "no such file or directory").

(** The file is gone. *)
Definition fileRemoved : string -> Error + string :=
  fun _ => inl (errExternal "no such file or directory").

(** fsnotify.Write and fsnotify.Remove. *)
Definition opWrite : Z := 2.
Definition opRemove : Z := 4.

(** *** The shape of a built tree *)

(** No two children of a node have the same name, at every level. *)
#[warnings="-register-all"]
Inductive siblingsDistinct : Node -> Prop :=
| siblingsDistinct_intro n :
    NoDup (map Name (Children n)) ->
    Forall siblingsDistinct (Children n) ->
    siblingsDistinct n.

(** The path of every child is the path of its parent joined with the
    child's name, at every level. *)
#[warnings="-register-all"]
Inductive pathsJoined : Node -> Prop :=
| pathsJoined_intro n :
    Forall (fun c => Path c = joinPath (Path n) (Name c)) (Children n) ->
    Forall pathsJoined (Children n) ->
    pathsJoined n.

(** The segments of a path joined again, from the root's empty path. *)
Definition joinParts (parts : list string) : string := fold_left joinPath parts EmptyString.

(** [n'] is [n] after a recursive sort: at every level the same children in
    some order, each one sorted in turn. *)
#[warnings="-register-all"]
Inductive sortedCopy : Node -> Node -> Prop :=
| sortedCopy_intro n cs cs' :
    Permutation cs (Children n) ->
    Forall2 sortedCopy cs cs' ->
    sortedCopy n (setChildren n cs').

(** *** What a listing shows *)

(** [listed fs relPath entries nodes]: of the entries of the directory, in
    their order, [nodes] holds one closed directory node for every directory
    outside the skip list that has a document below it, and one file node for
    every document; nothing else. *)
Inductive listed {uni : Unicode}
  (fs : FileSystem) (relPath : string) : list DirEntry -> list Node -> Prop :=
| listed_nil : listed fs relPath [] []
| listed_skipped e rest ns :
    entryIsDir e = true -> shouldSkipDir (entryName e) = true ->
    listed fs relPath rest ns -> listed fs relPath (e :: rest) ns
| listed_bare e rest ns :
    entryIsDir e = true -> shouldSkipDir (entryName e) = false ->
    noDocs fs (joinPath relPath (entryName e)) ->
    listed fs relPath rest ns -> listed fs relPath (e :: rest) ns
| listed_dir e rest ns :
    entryIsDir e = true -> shouldSkipDir (entryName e) = false ->
    hasDoc fs (joinPath relPath (entryName e)) ->
    listed fs relPath rest ns ->
    listed fs relPath (e :: rest) (newDir (entryName e) (joinPath relPath (entryName e)) :: ns)
| listed_other e rest ns :
    entryIsDir e = false -> isMarkdown (entryName e) = false ->
    listed fs relPath rest ns -> listed fs relPath (e :: rest) ns
| listed_file e rest ns :
    entryIsDir e = false -> isMarkdown (entryName e) = true ->
    listed fs relPath rest ns ->
    listed fs relPath (e :: rest) (newFile (entryName e) (joinPath relPath (entryName e)) :: ns).

(** [reaches fs p q]: the directory [q] is [p], or lies below [p] along
    directory entries none of which is on the skip list. *)
Inductive reaches {uni : Unicode} (fs : FileSystem) (p : string) : string -> Prop :=
| reaches_self : reaches fs p p
| reaches_child q entries e :
    reaches fs p q ->
    readDir fs q = inr entries -> In e entries ->
    entryIsDir e = true -> shouldSkipDir (entryName e) = false ->
    reaches fs p (joinPath q (entryName e)).

(** No directory entry has the empty name. *)
Definition entriesNamed (fs : FileSystem) : Prop :=
  forall q entries e, readDir fs q = inr entries -> In e entries -> entryName e <> EmptyString.

(** A key of the cache that a call for [q] leaves alone: it is not [q] and
    not longer than [q]. *)
Definition outside (q k : string) : Prop :=
  (String.length k <= String.length q)%nat /\ k <> q.

(** A file system whose root holds the directory [notes/], with [todo.txt]
    in it, and the directory [locked/], which cannot be read. *)
Definition lockedFS : FileSystem :=
  mkFileSystem
    (fun p => if String.eqb p EmptyString || String.eqb p "notes" || String.eqb p "locked"
              then inr true else inl (errExternal "no such file or directory"))
    (fun p => if String.eqb p EmptyString
              then inr [mkEntry "notes" true; mkEntry "locked" true]
              else if String.eqb p "notes" then inr [mkEntry "todo.txt" false]
              else inl (errExternal "permission denied")).

(** ** internal/ui: further functions of the model *)

(** [func (m *Model) clearSearch()] *)
Definition clearSearch {VP : Type} (m : Model VP) : Model VP :=
  setErr (setSearchIndex (setSearchMatches (setSearchQuery m EmptyString) []) (-1)) None.

(** *** The state of a search *)

(** The index of the current match is -1 when there are no matches, and
    otherwise an index into the matches. *)
Definition searchIndexValid {VP : Type} (m : Model VP) : Prop :=
  (searchMatches m = [] /\ searchIndex m = -1) \/ 0 <= searchIndex m < lenMatches m.

(** ** internal/ui: the tree panel *)

Module TreePanel.

(** const ( headerHeight; minContentWidth; minTreePanelWidth; defaultTreeWidth ) *)
Definition headerHeight : Z := 0.
Definition minContentWidth : Z := 20.
Definition minTreePanelWidth : Z := 18.
Definition defaultTreeWidth : Z := 28.

(** The functions of lipgloss the tree panel applies to a label: the width
    of a string on the screen and the three styles of a line. *)
Class Styling := {
  lipglossWidth : string -> Z;                 (* lipgloss.Width *)
  renderSelectedActive : string -> string;     (* treeSelectedActive.Render *)
  renderSelectedInactive : string -> string;   (* treeSelectedInactive.Render *)
  renderTreeLine : string -> string            (* treeLineStyle.Render *)
}.

(** [type treeLine struct]: [entry] points to a node of the tree, that is, it
    is the position of the node. *)
Record treeLine := mkTreeLine {
  entry : list nat;
  label : string
}.

(** The fields of [Model] that belong to the tree panel, beside those of the
    content side ([model]).  [treeRoot] is [None] for a nil root;
    [loaderState] is the state of the loader that the nodes of the tree
    share. *)
Record Panel (VP S : Type) := mkPanel {
  model : Model VP;
  treeVP : VP;
  treeVisible : bool;
  treePreferredWidth : Z;
  treeContentWidth : Z;
  treeFocus : bool;
  treeRoot : option Node;
  loaderState : S;
  flatTree : list treeLine;
  treeSelection : Z
}.
Arguments mkPanel {VP S}.
Arguments model {VP S}.
Arguments treeVP {VP S}.
Arguments treeVisible {VP S}.
Arguments treePreferredWidth {VP S}.
Arguments treeContentWidth {VP S}.
Arguments treeFocus {VP S}.
Arguments treeRoot {VP S}.
Arguments loaderState {VP S}.
Arguments flatTree {VP S}.
Arguments treeSelection {VP S}.

Section PanelSetters.
Context {VP S : Type}.

Definition setModel (p : Panel VP S) (m : Model VP) : Panel VP S :=
  mkPanel m (treeVP p) (treeVisible p) (treePreferredWidth p) (treeContentWidth p)
          (treeFocus p) (treeRoot p) (loaderState p) (flatTree p) (treeSelection p).

Definition setTreeVP (p : Panel VP S) (v : VP) : Panel VP S :=
  mkPanel (model p) v (treeVisible p) (treePreferredWidth p) (treeContentWidth p)
          (treeFocus p) (treeRoot p) (loaderState p) (flatTree p) (treeSelection p).

Definition setTreePreferredWidth (p : Panel VP S) (w : Z) : Panel VP S :=
  mkPanel (model p) (treeVP p) (treeVisible p) w (treeContentWidth p)
          (treeFocus p) (treeRoot p) (loaderState p) (flatTree p) (treeSelection p).

Definition setTreeContentWidth (p : Panel VP S) (w : Z) : Panel VP S :=
  mkPanel (model p) (treeVP p) (treeVisible p) (treePreferredWidth p) w
          (treeFocus p) (treeRoot p) (loaderState p) (flatTree p) (treeSelection p).

Definition setTreeRoot (p : Panel VP S) (root : option Node) : Panel VP S :=
  mkPanel (model p) (treeVP p) (treeVisible p) (treePreferredWidth p) (treeContentWidth p)
          (treeFocus p) root (loaderState p) (flatTree p) (treeSelection p).

Definition setLoaderState (p : Panel VP S) (st : S) : Panel VP S :=
  mkPanel (model p) (treeVP p) (treeVisible p) (treePreferredWidth p) (treeContentWidth p)
          (treeFocus p) (treeRoot p) st (flatTree p) (treeSelection p).

Definition setFlatTree (p : Panel VP S) (lines : list treeLine) : Panel VP S :=
  mkPanel (model p) (treeVP p) (treeVisible p) (treePreferredWidth p) (treeContentWidth p)
          (treeFocus p) (treeRoot p) (loaderState p) lines (treeSelection p).

Definition setTreeSelection (p : Panel VP S) (i : Z) : Panel VP S :=
  mkPanel (model p) (treeVP p) (treeVisible p) (treePreferredWidth p) (treeContentWidth p)
          (treeFocus p) (treeRoot p) (loaderState p) (flatTree p) i.

(** The tree, the loader and the error slot, which the loading functions
    change together. *)
Definition setLoaded3 (p : Panel VP S) (root : Node) (st : S) (e : option Error) : Panel VP S :=
  setModel (setLoaderState (setTreeRoot p (Some root)) st) (setErr (model p) e).

End PanelSetters.

Definition setOpen (n : Node) (o : bool) : Node :=
  mkNode (Name n) (Path n) (IsDir n) o (Children n) (loader n) (loaded n).

(** [strings.Repeat(s, count)]; a negative count panics. *)
Definition Repeat (s : string) (count : Z) : option string :=
  if count <? 0 then None
  else Some (fold_right String.append EmptyString (repeat s (Z.to_nat count))).

(** [func formatTreeLabel(entry *tree.Node, depth int) string] *)
Definition formatTreeLabel (e : Node) (depth : Z) : option string :=
  if depth =? 0 then Some (String.append (Name e) "/")
  else
    indent ← Repeat "  " (depth - 1);
    let indicator := if IsDir e then (if Open e then "- " else "+ ") else "  " in
    let label := String.append indent (String.append indicator (Name e)) in
    Some (if IsDir e then String.append label "/" else label).

(** [func (m *Model) treeWidth(totalWidth int) int]; [frame] is
    [m.treeVP.Style.GetHorizontalFrameSize()]. *)
Definition treeWidth (visible : bool) (preferredWidth frame totalWidth : Z) : Z :=
  if negb visible then 0
  else
    let preferred := if preferredWidth <=? 0 then defaultTreeWidth else preferredWidth in
    let minPanel := max (minTreePanelWidth - frame) 0 in
    let maxPanel := max (Z.quot totalWidth 2 - frame) minPanel in
    let panelContentWidth := clamp preferred minPanel maxPanel in
    let width := panelContentWidth + frame in
    let width := if totalWidth - width <? minContentWidth
                 then max (totalWidth - minContentWidth) 0 else width in
    if width >? totalWidth then totalWidth else width.

(** A mutation made through a pointer to the first element that satisfies
    [p], by a function that also changes a state. *)
Fixpoint updateFirstM {A St : Type} (p : A -> bool) (f : A -> St -> option (A * St))
  (l : list A) (s : St) : option (list A * St) :=
  match l with
  | [] => Some ([], s)
  | x :: l' =>
      if p x then '(x', s') ← f x s; Some (x' :: l', s')
      else '(l'', s') ← updateFirstM p f l' s; Some (x :: l'', s')
  end.

Section Walk.
Context {sorter : SliceSorter} {S : Type} {ld : Loader S} {styling : Styling} {uni : Unicode}.

(** [func (m *Model) loadNode(node *tree.Node) bool], on the node, the
    loader's state and the error slot.  [None] as the node is the nil
    pointer. *)
Definition loadNode (node : option Node) (st : S) (e : option Error)
  : option (bool * option Node * S * option Error) :=
  match node with
  | None => Some (false, None, st, e)
  | Some n =>
      r ← EnsureLoaded n st;
      match lrErr r with
      | Some failure => Some (false, Some (lrNode r), lrState r, Some failure)
      | None => Some (true, Some (lrNode r), lrState r, e)
      end
  end.

(** What the closure [walk] of [rebuildFlatTree] has in its reach: the lines
    and the greatest width so far, the loader's state and the error slot. *)
Record WalkState := mkWalkState {
  wsLines : list treeLine;
  wsMaxWidth : Z;
  wsLoader : S;
  wsErr : option Error
}.

(** The loop [for _, child := range node.Children { walk(child, depth+1) }];
    the child at index [i] is the node at position [pos ++ [i]]. *)
Fixpoint walkChildren (walk : Node -> list nat -> WalkState -> option (Node * WalkState))
  (children : list Node) (i : nat) (pos : list nat) (w : WalkState)
  : option (list Node * WalkState) :=
  match children with
  | [] => Some ([], w)
  | child :: rest =>
      '(child', w1) ← walk child (pos ++ [i])%list w;
      '(rest', w2) ← walkChildren walk rest (Datatypes.S i) pos w1;
      Some (child' :: rest', w2)
  end.

(** The closure [walk] of [rebuildFlatTree], with a budget for the depth of
    the recursion; it returns the node as the walk leaves it. *)
Fixpoint walkN (fuel : nat) (depth : Z) (node : Node) (pos : list nat) (w : WalkState)
  : option (Node * WalkState) :=
  match fuel with
  | O => None
  | Datatypes.S fuel' =>
      label ← formatTreeLabel node depth;
      let maxWidth := if lipglossWidth label >? wsMaxWidth w
                      then lipglossWidth label else wsMaxWidth w in
      let lines := (wsLines w ++ [mkTreeLine pos label])%list in
      if IsDir node && Open node then
        '(ok, node', st', e') ← loadNode (Some node) (wsLoader w) (wsErr w);
        match node' with
        | None => None
        | Some node' =>
            let w := mkWalkState lines maxWidth st' e' in
            if negb ok then Some (node', w)
            else
              '(children', w') ← walkChildren (walkN fuel' (depth + 1)) (Children node') O pos w;
              Some (setChildren node' children', w')
        end
      else Some (node, mkWalkState lines maxWidth (wsLoader w) (wsErr w))
  end.

(** The loop of [expandPath] over the segments, with [current] walking
    down. *)
Fixpoint expandParts (parts : list string) (current : Node) (st : S * option Error)
  : option (Node * (S * option Error)) :=
  match parts with
  | [] => Some (current, st)
  | part :: rest =>
      '(ok, current', st', e') ← loadNode (Some current) (fst st) (snd st);
      match current' with
      | None => None
      | Some current' =>
          if negb ok then Some (current', (st', e'))
          else
            match ChildByName current' part with
            | None => Some (current', (st', e'))
            | Some _ =>
                '(children', st'') ←
                  updateFirstM (nameIs part)
                    (fun child => expandParts rest
                                    (if IsDir child then setOpen child true else child))
                    (Children current') (st', e');
                Some (setChildren current' children', st'')
            end
      end
  end.

End Walk.
Arguments WalkState : clear implicits.

Section PanelFunctions.
Context {sorter : SliceSorter} {S : Type} {ld : Loader S}
        {VP : Type} {viewport : Viewport VP} {styling : Styling} {uni : Unicode}.

Definition lenFlat (p : Panel VP S) : Z := Z.of_nat (length (flatTree p)).

(** [func (m *Model) rebuildFlatTree() int] *)
Definition rebuildFlatTreeN (fuel : nat) (p : Panel VP S) : option (Z * Panel VP S) :=
  match treeRoot p with
  | None => Some (0, setFlatTree p [])
  | Some root =>
      '(root', w) ← walkN fuel 0 root [] (mkWalkState [] 0 (loaderState p) (err (model p)));
      Some (wsMaxWidth w, setFlatTree (setLoaded3 p root' (wsLoader w) (wsErr w)) (wsLines w))
  end.

(** The loop of [indexForPath] from the line with index [i] on. *)
Fixpoint indexLoop (root : Node) (path : string) (lines : list treeLine) (i : Z) : option Z :=
  match lines with
  | [] => Some (-1)
  | line :: rest =>
      n ← nodeAt (entry line) root;
      if String.eqb (Path n) path then Some i else indexLoop root path rest (i + 1)
  end.

(** [func (m *Model) indexForPath(path string) int] *)
Definition indexForPath (path : string) (p : Panel VP S) : option Z :=
  match flatTree p with
  | [] => Some (-1)
  | _ :: _ => root ← treeRoot p; indexLoop root path (flatTree p) 0
  end.

(** [func (m *Model) currentTreeEntry() *tree.Node]; [None] is nil. *)
Definition currentTreeEntry (p : Panel VP S) : option (list nat) :=
  if (lenFlat p =? 0) || (treeSelection p <? 0) || (treeSelection p >=? lenFlat p)
  then None
  else entry <$> flatTree p !! Z.to_nat (treeSelection p).

(** [func (m *Model) ensureSelectionVisible()] *)
Definition ensureSelectionVisible (p : Panel VP S) : Panel VP S :=
  if (lenFlat p =? 0) || (vpHeight (treeVP p) =? 0) then p
  else if treeSelection p <? vpYOffset (treeVP p)
       then setTreeVP p (SetYOffset (treeVP p) (treeSelection p))
       else
         let bottom := vpYOffset (treeVP p) + vpHeight (treeVP p) - 1 in
         if treeSelection p >? bottom
         then setTreeVP p (SetYOffset (treeVP p) (treeSelection p - vpHeight (treeVP p) + 1))
         else p.

(** The loop of [updateTreeContent] that writes the lines to the builder,
    from the line with index [i] on. *)
Fixpoint writeLines (selection : Z) (focus : bool) (total : Z) (lines : list treeLine) (i : Z)
  : string :=
  match lines with
  | [] => EmptyString
  | line :: rest =>
      let text := label line in
      let styled := if (i =? selection) && focus then renderSelectedActive text
                    else if i =? selection then renderSelectedInactive text
                    else renderTreeLine text in
      String.append styled
        (String.append (if i <? total - 1 then String newline EmptyString else EmptyString)
                       (writeLines selection focus total rest (i + 1)))
  end.

(** [func (m *Model) updateTreeContent(width int)] *)
Definition updateTreeContent (width : Z) (p : Panel VP S) : Panel VP S :=
  match treeRoot p with
  | None => p
  | Some _ =>
      let width := if width <=? 0 then minTreePanelWidth else width in
      let content := writeLines (treeSelection p) (treeFocus p) (lenFlat p) (flatTree p) 0 in
      let p := setTreePreferredWidth p (max (width + 4) minTreePanelWidth) in
      let p := setTreeVP p (SetContent (treeVP p) content) in
      ensureSelectionVisible p
  end.

(** [func (m *Model) moveTreeSelection(delta int)] *)
Definition moveTreeSelection (delta : Z) (p : Panel VP S) : Panel VP S :=
  if lenFlat p =? 0 then p
  else
    let p := setTreeSelection p (clamp (treeSelection p + delta) 0 (lenFlat p - 1)) in
    updateTreeContent (treeContentWidth p) p.

(** [func (m *Model) expandPath(path string)] *)
Definition expandPath (path : string) (p : Panel VP S) : option (Panel VP S) :=
  match treeRoot p with
  | None => Some p
  | Some root =>
      if String.eqb path EmptyString then Some p
      else
        let root := if negb (Open root) then setOpen root true else root in
        '(root', (st', e')) ← expandParts (Split path "/"%char) root
                                 (loaderState p, err (model p));
        Some (setLoaded3 p root' st' e')
  end.

(** The selection that [refreshTreeViewWithSelection] and [closeOrAscend]
    make after the flat tree has been rebuilt: the first line of the path, or
    the old selection cut to the range of the lines. *)
Definition selectPath (path : string) (p : Panel VP S) : option (Panel VP S) :=
  idx ← indexForPath path p;
  Some (if idx >=? 0 then setTreeSelection p idx
        else setTreeSelection p (clamp (treeSelection p) 0 (lenFlat p - 1))).

(** [func (m *Model) refreshTreeViewWithSelection(path string)] *)
Definition refreshTreeViewWithSelectionN (fuel : nat) (path : string) (p : Panel VP S)
  : option (Panel VP S) :=
  match treeRoot p with
  | None => Some p
  | Some root =>
      '(ok, root', st', e') ← loadNode (Some root) (loaderState p) (err (model p));
      root' ← root';
      let p := setLoaded3 p root' st' e' in
      if negb ok then Some p
      else
        p ← expandPath path p;
        '(maxWidth, p) ← rebuildFlatTreeN fuel p;
        p ← (if lenFlat p >? 0 then selectPath path p else Some (setTreeSelection p 0));
        let p := setTreeContentWidth p maxWidth in
        Some (updateTreeContent maxWidth p)
  end.

(** [func (m *Model) closeOrAscend()] *)
Definition closeOrAscendN (fuel : nat) (p : Panel VP S) : option (Panel VP S) :=
  match currentTreeEntry p with
  | None => Some p
  | Some pos =>
      root ← treeRoot p;
      entry ← nodeAt pos root;
      if IsDir entry && Open entry then
        let p := setTreeRoot p (Some (replaceAt pos (setOpen entry false) root)) in
        '(maxWidth, p) ← rebuildFlatTreeN fuel p;
        p ← selectPath (Path entry) p;
        let p := setTreeContentWidth p maxWidth in
        Some (updateTreeContent maxWidth p)
      else
        match pos with
        | [] => Some p
        | _ :: _ =>
            parent ← nodeAt (removelast pos) root;
            refreshTreeViewWithSelectionN fuel (Path parent) p
        end
  end.

End PanelFunctions.

End TreePanel.

Import TreePanel.

(** *** The lines of the tree panel *)

(** A directory node whose children the tree panel shows: it is open, and
    its children have been loaded or it has no loader. *)
Definition expanded (n : Node) : bool :=
  IsDir n && Open n && (loaded n || negb (loader n)).

(** The label of the node at a position: its depth is the length of the
    position. *)
Definition labelAt (n : Node) (pos : list nat) : string :=
  default EmptyString (formatTreeLabel n (Z.of_nat (length pos))).

Fixpoint shownChildren (shown : Node -> list nat -> list treeLine)
  (children : list Node) (i : nat) (pos : list nat) : list treeLine :=
  match children with
  | [] => []
  | child :: rest => (shown child (pos ++ [i]) ++ shownChildren shown rest (S i) pos)%list
  end.

(** The lines of the subtree of [n], which stands at position [pos]: the
    node itself, and below every expanded directory its children in their
    order, each with its own subtree. *)
Fixpoint shown (n : Node) (pos : list nat) {struct n} : list treeLine :=
  mkTreeLine pos (labelAt n pos) ::
  match n with
  | mkNode _ _ isDir open children ld lded =>
      if isDir && open && (lded || negb ld)
      then (fix below (cs : list Node) (i : nat) : list treeLine :=
              match cs with
              | [] => []
              | c :: cs' => (shown c (pos ++ [i]) ++ below cs' (S i))%list
              end) children O
      else []
  end.

(** The greatest width among the labels of [lines], and at least [start]. *)
Definition widest {styling : Styling} (lines : list treeLine) (start : Z) : Z :=
  fold_left (fun acc line => if lipglossWidth (label line) >? acc
                             then lipglossWidth (label line) else acc) lines start.

(** [n'] is [n] after a walk: a node the walk has loaded has the children
    the loader listed and is marked loaded; everything else is as before. *)
Definition sameFace (n n' : Node) : Prop :=
  Name n' = Name n /\ Path n' = Path n /\ IsDir n' = IsDir n /\ Open n' = Open n /\
  loader n' = loader n.

(** Every directory of the tree has been loaded or has no loader, so that
    [EnsureLoaded] has nothing to do anywhere. *)
#[warnings="-register-all"]
Inductive settled : Node -> Prop :=
| settled_intro n :
    negb (IsDir n) || loaded n || negb (loader n) = true ->
    Forall settled (Children n) ->
    settled n.

(** Every node above the position [pos] of [n] is an expanded directory. *)
Fixpoint visibleAt (pos : list nat) (n : Node) : Prop :=
  match pos with
  | [] => True
  | i :: rest => expanded n = true /\ exists c, Children n !! i = Some c /\ visibleAt rest c
  end.

(** [line] points to a node of [root], which it labels. *)
Definition lineOfNode (root : Node) (line : treeLine) : Prop :=
  exists n, nodeAt (entry line) root = Some n /\
            formatTreeLabel n (Z.of_nat (length (entry line))) = Some (label line).

(** The segments [parts] lead from [n] to [x], by [ChildByName], and every
    node passed on the way is a directory. *)
Inductive throughDirs : list string -> Node -> Node -> Prop :=
| throughDirs_last part n x :
    ChildByName n part = Some x -> throughDirs [part] n x
| throughDirs_step part rest n c x :
    ChildByName n part = Some c -> IsDir c = true ->
    throughDirs rest c x -> throughDirs (part :: rest) n x.

(** The tree after [expandPath] has gone along [parts] without loading
    anything: every directory it has passed is open. *)
Fixpoint openAlong (parts : list string) (n : Node) : Node :=
  match parts with
  | [] => n
  | part :: rest =>
      match ChildByName n part with
      | None => n
      | Some _ =>
          setChildren n
            (updateFirst (nameIs part)
               (fun child => openAlong rest (if IsDir child then setOpen child true else child))
               (Children n))
      end
  end.

(** *** Values for concrete runs of the tree panel *)

(** Labels without escape sequences and wide characters: their width is
    their length, and the styles leave them as they are. *)
Definition plainStyling : Styling :=
  {| lipglossWidth := len;
     renderSelectedActive := fun s => s;
     renderSelectedInactive := fun s => s;
     renderTreeLine := fun s => s |}.

(** The tree of [demoFS] after the root has been loaded. *)
Definition loadedDocs : Node :=
  mkNode "docs" EmptyString true true
    [mkNode "sub" "sub" true false [] true false;
     mkNode "A.md" "A.md" false false [] true false;
     mkNode "b.md" "b.md" false false [] true false]
    true true.

(** A panel over the lazy tree of [demoFS], before the first load. *)
Definition lazyPanel : Panel PlainViewport FSLoader :=
  mkPanel helloModel (mkPlainViewport 3 0 []) true 0 0 true (Some demoDir) NewFSLoader [] 0.

(** The same panel after [rebuildFlatTree]. *)
Definition lazyPanelRebuilt : Panel PlainViewport FSLoader :=
  mkPanel helloModel (mkPlainViewport 3 0 []) true 0 0 true (Some loadedDocs)
    (mkFSLoader (<["sub" := true]> ∅) [EmptyString; "sub"])
    [mkTreeLine [] "docs/"; mkTreeLine [0%nat] "+ sub/";
     mkTreeLine [1%nat] "  A.md"; mkTreeLine [2%nat] "  b.md"] 0.

(** A tree as [Build] makes it: [docs/] with the closed directory [b/], which
    holds [c.md], and the file [a.md]. *)
Definition builtDocs : Node :=
  mkNode "docs" EmptyString true true
    [mkNode "b" "b" true false [mkNode "c.md" "b/c.md" false false [] false false] false false;
     mkNode "a.md" "a.md" false false [] false false]
    false false.

(** A panel that shows [builtDocs] with [b/] closed, the selection on the
    root, in a viewport of three lines. *)
Definition builtPanel : Panel PlainViewport unit :=
  mkPanel helloModel (mkPlainViewport 3 0 ["docs/"; "+ b/"; "  a.md"]) true 0 0 true
    (Some builtDocs) tt
    [mkTreeLine [] "docs/"; mkTreeLine [0%nat] "+ b/"; mkTreeLine [1%nat] "  a.md"] 0.

(** A loader that is never asked: the tree of [builtPanel] has none. *)
Definition noLoader : Loader unit := {| List := fun _ st => Some (inr [], st) |}.

(** The same panel in a viewport of two lines, with the selection on the
    third line. *)
Definition narrowPanel : Panel PlainViewport unit :=
  setTreeSelection
    (setTreeVP builtPanel (mkPlainViewport 2 0 ["docs/"; "+ b/"; "  a.md"])) 2.

(** [builtDocs] with [b/] open, and a panel that shows it with the
    selection on [b/]. *)
Definition openedDocs : Node :=
  mkNode "docs" EmptyString true true
    [mkNode "b" "b" true true [mkNode "c.md" "b/c.md" false false [] false false] false false;
     mkNode "a.md" "a.md" false false [] false false]
    false false.

Definition openedPanel : Panel PlainViewport unit :=
  mkPanel helloModel (mkPlainViewport 3 0 ["docs/"; "- b/"; "    c.md"; "  a.md"]) true 0 0 true
    (Some openedDocs) tt
    [mkTreeLine [] "docs/"; mkTreeLine [0%nat] "- b/";
     mkTreeLine [0%nat; 0%nat] "    c.md"; mkTreeLine [1%nat] "  a.md"] 1.

(** * Properties *)

(** ** Integers *)

Lemma wrap_inRange z : GoInt.inRange z -> GoInt.wrap z = z.
Proof.
  unfold GoInt.inRange, GoInt.wrap, GoInt.two63. intros Hz.
  rewrite Z.mod_small; lia.
Qed.

Lemma absInt_lines a b : isLine a -> isLine b -> absInt (GoInt.sub a b) = Z.abs (a - b).
Proof.
  unfold isLine, absInt, GoInt.sub, GoInt.neg. intros Ha Hb.
  rewrite (wrap_inRange (a - b)) by (unfold GoInt.inRange; lia).
  destruct (Z.ltb_spec (a - b) 0) as [Hlt|Hge].
  - rewrite wrap_inRange by (unfold GoInt.inRange; lia). lia.
  - lia.
Qed.

(** ** The order of strings *)

Lemma string_compare_OT a b : String.compare a b = String_as_OT.compare a b.
Proof. revert b; induction a as [|c a IH]; intros [|d b]; simpl; auto. Qed.

Lemma compare_refl a : String.compare a a = Eq.
Proof.
  rewrite (string_compare_OT a a).
  destruct (String_as_OT.compare a a) eqn:E; auto; exfalso.
  - exact (StrictOrder_Irreflexive (R := String_as_OT.lt) a E).
  - pose proof (String.compare_antisym a a) as Ha.
    rewrite (string_compare_OT a a), E in Ha. discriminate.
Qed.

Lemma compare_lt_trans a b c :
  String.compare a b = Lt -> String.compare b c = Lt -> String.compare a c = Lt.
Proof.
  rewrite (string_compare_OT a b), (string_compare_OT b c), (string_compare_OT a c).
  exact (StrictOrder_Transitive (R := String_as_OT.lt) a b c).
Qed.

Lemma compare_gt_lt a b : String.compare a b = Gt -> String.compare b a = Lt.
Proof. rewrite (String.compare_antisym b a). intros ->. reflexivity. Qed.

Lemma ltb_irrefl a : String.ltb a a = false.
Proof. unfold String.ltb. rewrite compare_refl. reflexivity. Qed.

Lemma ltb_trans a b c : String.ltb a b = true -> String.ltb b c = true -> String.ltb a c = true.
Proof.
  unfold String.ltb. intros H1 H2.
  destruct (String.compare a b) eqn:Eab; try discriminate.
  destruct (String.compare b c) eqn:Ebc; try discriminate.
  rewrite (compare_lt_trans a b c Eab Ebc). reflexivity.
Qed.

Lemma ltb_false_leb a b : String.ltb b a = false <-> String.leb a b = true.
Proof.
  unfold String.ltb, String.leb. rewrite (String.compare_antisym a b).
  destruct (String.compare b a); simpl; split; congruence.
Qed.

Lemma ltb_cotrans a b c :
  String.ltb a c = true -> String.ltb a b = true \/ String.ltb b c = true.
Proof.
  unfold String.ltb. intros Hac.
  destruct (String.compare a c) eqn:Eac; try discriminate.
  destruct (String.compare a b) eqn:Eab; [|by left|].
  - apply String.compare_eq_iff in Eab as ->. rewrite Eac. by right.
  - destruct (String.compare b c) eqn:Ebc; [|by right|].
    + apply String.compare_eq_iff in Ebc as ->. congruence.
    + exfalso. apply compare_gt_lt in Eab, Ebc.
      pose proof (compare_lt_trans _ _ _ (compare_lt_trans _ _ _ Ebc Eab) Eac) as Hcc.
      rewrite compare_refl in Hcc. discriminate.
Qed.

(** ** The comparison of nodes *)

Lemma nodeLess_strict_weak {uni : Unicode} : StrictWeakOrder nodeLess.
Proof.
  unfold StrictWeakOrder, nodeLess. split; [|split].
  - intros a. rewrite Bool.eqb_reflx. apply ltb_irrefl.
  - intros a b c.
    destruct (IsDir a), (IsDir b), (IsDir c); simpl; try congruence; apply ltb_trans.
  - intros a b c.
    destruct (IsDir a), (IsDir b), (IsDir c); simpl; try congruence; auto using ltb_cotrans.
Qed.

Lemma notAfter_nodeLess {uni : Unicode} a b :
  notAfter nodeLess a b <->
  (IsDir a = true /\ IsDir b = false) \/ (IsDir a = IsDir b /\ lowerLe a b).
Proof.
  unfold notAfter, nodeLess, lowerLe. rewrite <- ltb_false_leb.
  destruct (IsDir a), (IsDir b); simpl; intuition congruence.
Qed.

(** A list in which no node stands before one it is less than is ordered as
    the claim words it. *)
Lemma sorted_childrenOrdered {uni : Unicode} cs :
  StronglySorted (notAfter nodeLess) cs -> childrenOrdered cs.
Proof.
  induction 1 as [|x cs Hs IH Hx].
  - exists [], []. repeat split; constructor.
  - destruct IH as (dirs & files & -> & Hd & Hf & Sd & Sf).
    apply Forall_app in Hx as [Hxd Hxf].
    destruct (IsDir x) eqn:Ex.
    + exists (x :: dirs), files. repeat split; auto.
      constructor; auto.
      * rewrite Forall_forall in Hxd, Hd |- *. intros d Hin.
        apply Hxd in Hin as Hna. apply notAfter_nodeLess in Hna.
        specialize (Hd d Hin). destruct Hna as [[_ ?]|[_ ?]]; [congruence|done].
    + assert (dirs = []) as ->.
      { destruct dirs as [|d dirs]; [done|exfalso].
        apply Forall_cons in Hxd as [Hna _]. apply Forall_cons in Hd as [Hd _].
        apply notAfter_nodeLess in Hna. destruct Hna as [[? _]|[? _]]; congruence. }
      exists [], (x :: files). repeat split; auto; try constructor; auto.
      rewrite Forall_forall in Hxf, Hf |- *. intros f Hin.
      apply Hxf in Hin as Hna. apply notAfter_nodeLess in Hna.
      specialize (Hf f Hin). destruct Hna as [[? _]|[_ ?]]; [congruence|done].
Qed.


(** ** Insertion sort meets the contract of sort.Slice *)

Section InsertionSort.
Context {A : Type} (less : A -> A -> bool).

Lemma insertSorted_perm x l : Permutation (insertSorted less x l) (x :: l).
Proof.
  induction l as [|y l IH]; simpl; [done|].
  destruct (less x y); [done|].
  rewrite IH. apply perm_swap.
Qed.

Lemma insertionSort_perm_acc l acc :
  Permutation (fold_left (fun acc x => insertSorted less x acc) l acc) (acc ++ l).
Proof.
  revert acc. induction l as [|x l IH]; intros acc; simpl.
  - by rewrite app_nil_r.
  - rewrite IH, insertSorted_perm. simpl. apply Permutation_middle.
Qed.

Lemma insertSorted_sorted x l :
  StrictWeakOrder less ->
  StronglySorted (notAfter less) l -> StronglySorted (notAfter less) (insertSorted less x l).
Proof.
  intros (Hirr & Htr & Hco). induction 1 as [|y l Hs IH Hy]; simpl.
  - repeat constructor.
  - destruct (less x y) eqn:Exy.
    + constructor; [by constructor|].
      assert (notAfter less x y) as Hxy.
      { unfold notAfter. destruct (less y x) eqn:Eyx; [|done].
        rewrite <- (Hirr x). symmetry. by apply (Htr x y x). }
      constructor; [done|].
      rewrite Forall_forall in Hy |- *. intros z Hz. specialize (Hy z Hz).
      unfold notAfter in *. destruct (less z x) eqn:Ezx; [|done].
      rewrite <- Hy. symmetry. by apply (Htr z x y).
    + constructor; [done|].
      rewrite (Forall_forall (notAfter less y)). intros z Hz.
      rewrite insertSorted_perm in Hz.
      apply elem_of_cons in Hz as [->|Hz]; [exact Exy|].
      rewrite Forall_forall in Hy. by apply Hy.
Qed.

Lemma insertionSort_sorted_acc l acc :
  StrictWeakOrder less ->
  StronglySorted (notAfter less) acc ->
  StronglySorted (notAfter less) (fold_left (fun acc x => insertSorted less x acc) l acc).
Proof.
  intros Hswo. revert acc. induction l as [|x l IH]; intros acc Hacc; simpl; [done|].
  apply IH. by apply insertSorted_sorted.
Qed.

End InsertionSort.

Definition insertionSorter : SliceSorter.
Proof.
  refine {| sortSlice := @insertionSort |}.
  - intros A less l. unfold insertionSort.
    by rewrite insertionSort_perm_acc.
  - intros A less l Hswo. unfold insertionSort.
    apply insertionSort_sorted_acc; [done|constructor].
Defined.

(** ** Text for concrete runs *)

Lemma trimRight_idem p s : trimRight p (trimRight p s) = trimRight p s.
Proof.
  induction s as [|c s IH]; simpl; [done|].
  destruct (trimRight p s) as [|d t] eqn:Ht.
  - destruct (p c) eqn:Hc; simpl; [done|]. by rewrite Hc.
  - simpl in IH |- *. by rewrite IH.
Qed.

Lemma trimLeft_head p s :
  trimLeft p s = EmptyString \/ exists c r, trimLeft p s = String c r /\ p c = false.
Proof.
  induction s as [|c s IH]; simpl; [by left|].
  destruct (p c) eqn:Hc; [done|]. right. by exists c, s.
Qed.

Lemma trimRight_head p c r :
  p c = false -> exists r', trimRight p (String c r) = String c r'.
Proof.
  intros Hc. simpl. destruct (trimRight p r); [|by eexists].
  rewrite Hc. by eexists.
Qed.

Lemma trimSpaceASCII_idem s : trimSpaceASCII (trimSpaceASCII s) = trimSpaceASCII s.
Proof.
  unfold trimSpaceASCII.
  destruct (trimLeft_head isSpace s) as [->|(c & r & -> & Hc)]; [done|].
  destruct (trimRight_head isSpace c r Hc) as (r' & Hr). rewrite Hr.
  simpl trimLeft. rewrite Hc. rewrite <- Hr. apply trimRight_idem.
Qed.

(** Package [unicode] for the concrete runs: texts whose letters outside
    ASCII are those of [lowerSample], without white space outside ASCII. *)
#[export] Instance sampleUnicode : Unicode.
Proof.
  refine {| lowerRunes := lowerSample; trimSpaceRunes := trimSpaceASCII |}.
  - intros [|c1 [|c2 [|c3 rest]]]; simpl; [done|done| |].
    + by destruct (Ascii.eqb c1 "200"%char && Ascii.eqb c2 "186"%char).
    + destruct (Ascii.eqb c1 "200"%char && Ascii.eqb c2 "186"%char); [done|].
      by destruct (Ascii.eqb c1 "226"%char && Ascii.eqb c2 "132"%char && Ascii.eqb c3 "170"%char).
  - intros s. unfold trimSpaceWith.
    destruct (isASCII s); destruct (isASCII (trimSpaceASCII s)); apply trimSpaceASCII_idem.
Defined.

(** ** Trees *)

Lemma height_child c n : In c (Children n) -> (height c < height n)%nat.
Proof.
  destruct n as [nm p d o cs ld lded]. simpl.
  induction cs as [|c' cs IH]; simpl; [done|].
  intros [->|Hin]; [lia|]. specialize (IH Hin). lia.
Qed.

Lemma notAfter_sameKey {uni : Unicode} a a' b b' :
  sameKey a a' -> sameKey b b' -> notAfter nodeLess a b -> notAfter nodeLess a' b'.
Proof.
  unfold sameKey, notAfter, nodeLess. intros [-> ->] [-> ->]. done.
Qed.

Lemma sorted_sameKey {uni : Unicode} l k :
  Forall2 sameKey l k ->
  StronglySorted (notAfter nodeLess) l -> StronglySorted (notAfter nodeLess) k.
Proof.
  induction 1 as [|x y l k Hxy Hlk IH]; intros Hs; [constructor|].
  apply StronglySorted_inv in Hs as [Hs Hx].
  constructor; [by apply IH|].
  clear IH Hs. induction Hlk as [|z w l k Hzw Hlk IH]; [constructor|].
  apply Forall_cons in Hx as [Hxz Hx].
  constructor; [by eapply notAfter_sameKey|by apply IH].
Qed.

Lemma mapM_Forall2 {A B : Type} (f : A -> option B) (P : A -> B -> Prop) l :
  Forall (fun x => exists y, f x = Some y /\ P x y) l ->
  exists k, mapM f l = Some k /\ Forall2 P l k.
Proof.
  induction 1 as [|x l (y & Hy & HP) _ (k & Hk & HF)]; simpl.
  - exists []. split; [done|constructor].
  - exists (y :: k). rewrite Hy. simpl. rewrite Hk. simpl. split; [reflexivity|]. constructor; assumption.
Qed.

Lemma childrenOrdered_sorted {uni : Unicode} cs :
  childrenOrdered cs -> StronglySorted (notAfter nodeLess) cs.
Proof.
  intros (dirs & files & -> & Hd & Hf & Sd & Sf).
  apply StronglySorted_app_2.
  - intros d f Hdin Hfin. apply notAfter_nodeLess. left.
    rewrite Forall_forall in Hd, Hf. split; [by apply Hd|by apply Hf].
  - clear Hf Sf. induction Sd as [|d dirs Sd IH Hdd]; [constructor|].
    apply Forall_cons in Hd as [Hd1 Hd]. constructor; [by apply IH|].
    rewrite Forall_forall in Hd, Hdd |- *. intros e He.
    apply notAfter_nodeLess. right. split; [by rewrite Hd1, Hd|by apply Hdd].
  - clear Hd Sd. induction Sf as [|d files Sf IH Hdd]; [constructor|].
    apply Forall_cons in Hf as [Hf1 Hf]. constructor; [by apply IH|].
    rewrite Forall_forall in Hf, Hdd |- *. intros e He.
    apply notAfter_nodeLess. right. split; [by rewrite Hf1, Hf|by apply Hdd].
Qed.

Lemma childrenOrdered_iff {uni : Unicode} cs :
  childrenOrdered cs <-> StronglySorted (notAfter nodeLess) cs.
Proof. split; [apply childrenOrdered_sorted|apply sorted_childrenOrdered]. Qed.

Lemma treeOrdered_leaf {uni : Unicode} n : Children n = [] -> treeOrdered n.
Proof.
  intros Hn. constructor; rewrite Hn; [|constructor].
  exists [], []. repeat split; constructor.
Qed.

Section Sorting.
Context {sorter : SliceSorter} {uni : Unicode}.

Lemma sortSlice_In {A : Type} (less : A -> A -> bool) l x :
  In x (sortSlice less l) <-> In x l.
Proof.
  split; apply Permutation_in; [|symmetry]; apply sortSlice_perm.
Qed.

Lemma sortSlice_nodes_ordered cs : StronglySorted (notAfter nodeLess) (sortSlice nodeLess cs).
Proof. apply sortSlice_sorted, nodeLess_strict_weak. Qed.

Lemma sameButChildren_key n n' : sameButChildren n n' -> sameKey n n'.
Proof. intros (? & ? & ? & ?). by split. Qed.

Lemma sameButChildren_refl n : sameButChildren n n.
Proof. by repeat split. Qed.

Lemma SortRecursiveN_ordered fuel n :
  (height n <= fuel)%nat ->
  exists n', SortRecursiveN fuel n = Some n' /\ treeOrdered n' /\ sameButChildren n n'.
Proof.
  revert n. induction fuel as [|fuel IH]; intros n Hh.
  { destruct n; simpl in Hh; lia. }
  simpl.
  destruct (mapM_Forall2
    (fun child => if (0 <? length (Children child))%nat
                  then SortRecursiveN fuel child else Some child)
    (fun c c' => treeOrdered c' /\ sameButChildren c c')
    (sortSlice nodeLess (Children n))) as (cs' & Hcs' & HF).
  { rewrite Forall_forall. intros c Hc. apply list_elem_of_In, sortSlice_In in Hc.
    destruct (Nat.ltb_spec 0 (length (Children c))) as [Hlen|Hlen].
    - apply IH. apply height_child in Hc. lia.
    - exists c. split; [done|]. split; [|apply sameButChildren_refl].
      apply treeOrdered_leaf. destruct (Children c); [done|simpl in Hlen; lia]. }
  rewrite Hcs'. simpl. eexists. split; [done|]. split; [|by repeat split].
  constructor; simpl.
  - apply childrenOrdered_iff. eapply sorted_sameKey; [|apply sortSlice_nodes_ordered].
    eapply Forall2_impl; [exact HF|]. intros c c' [_ Hk]. by apply sameButChildren_key.
  - clear Hcs'. induction HF as [|c c' l k [Hc _] _ IHF]; constructor; done.
Qed.

Lemma SortRecursive_ordered n :
  exists n', SortRecursive n = Some n' /\ treeOrdered n' /\ sameButChildren n n'.
Proof. apply SortRecursiveN_ordered. lia. Qed.

Lemma sortTreeN_ordered fuel n :
  (height n <= fuel)%nat ->
  exists n', sortTreeN fuel n = Some n' /\ treeOrdered n' /\ sameButChildren n n'.
Proof.
  revert n. induction fuel as [|fuel IH]; intros n Hh.
  { destruct n; simpl in Hh; lia. }
  simpl. destruct (Nat.eqb_spec (length (Children n)) 0) as [Hlen|Hlen].
  { exists n. split; [done|]. split; [|apply sameButChildren_refl].
    apply treeOrdered_leaf. by destruct (Children n). }
  destruct (mapM_Forall2 (sortTreeN fuel)
    (fun c c' => treeOrdered c' /\ sameButChildren c c')
    (sortSlice nodeLess (Children n))) as (cs' & Hcs' & HF).
  { rewrite Forall_forall. intros c Hc. apply list_elem_of_In, sortSlice_In in Hc.
    apply IH. apply height_child in Hc. lia. }
  rewrite Hcs'. simpl. eexists. split; [done|]. split; [|by repeat split].
  constructor; simpl.
  - apply childrenOrdered_iff. eapply sorted_sameKey; [|apply sortSlice_nodes_ordered].
    eapply Forall2_impl; [exact HF|]. intros c c' [_ Hk]. by apply sameButChildren_key.
  - clear Hcs'. induction HF as [|c c' l k [Hc _] _ IHF]; constructor; done.
Qed.

Lemma sortTree_ordered n :
  exists n', sortTree n = Some n' /\ treeOrdered n' /\ sameButChildren n n'.
Proof. apply sortTreeN_ordered. lia. Qed.

End Sorting.

(** ** Lazy loading *)

Section Loading.
Context {sorter : SliceSorter} {uni : Unicode}.

Lemma EnsureLoaded_skip {S : Type} `{Loader S} (n : Node) (st : S) :
  negb (IsDir n) || loaded n || negb (loader n) = true ->
  EnsureLoaded n st = Some (mkLoadResult n None [] st).
Proof. unfold EnsureLoaded. by intros ->. Qed.

Lemma EnsureLoaded_load {S : Type} `{Loader S} (n : Node) (st : S) :
  IsDir n = true -> loader n = true -> loaded n = false ->
  EnsureLoaded n st =
    match List (Path n) st with
    | None => None
    | Some (inl e, st') => Some (mkLoadResult n (Some e) [Path n] st')
    | Some (inr children, st') =>
        Some (mkLoadResult
                (setLoaded (sortChildren
                   (setChildren n (map (fun child => setLoader child (loader n)) children))) true)
                None [Path n] st')
    end.
Proof. unfold EnsureLoaded. by intros -> -> ->. Qed.

(** After a call that returns, the children are ordered if they were
    before: a load sorts them, everything else leaves them alone. *)
Lemma EnsureLoaded_children_ordered {S : Type} `{Loader S} (n : Node) (st : S) r :
  EnsureLoaded n st = Some r ->
  childrenOrdered (Children n) -> childrenOrdered (Children (lrNode r)).
Proof.
  unfold EnsureLoaded. intros Hr Hn.
  destruct (negb (IsDir n) || loaded n || negb (loader n)).
  { by inversion Hr. }
  destruct (List (Path n) st) as [[[e|children] st']|]; inversion Hr; subst; simpl; [done|].
  apply childrenOrdered_iff, sortSlice_nodes_ordered.
Qed.

Lemma EnsureLoaded_sameKey {S : Type} `{Loader S} (n : Node) (st : S) r :
  EnsureLoaded n st = Some r -> sameKey n (lrNode r).
Proof.
  unfold EnsureLoaded. intros Hr.
  destruct (negb (IsDir n) || loaded n || negb (loader n)).
  { by inversion Hr. }
  destruct (List (Path n) st) as [[[e|children] st']|]; by inversion Hr.
Qed.

(** The nodes the filesystem loader lists have no children of their own. *)
Lemma listEntries_leaves fs fuel relPath entries nodes l nodes' l' :
  Forall (fun c => Children c = []) nodes ->
  listEntries fs fuel relPath entries nodes l = Some (inr nodes', l') ->
  Forall (fun c => Children c = []) nodes'.
Proof.
  revert nodes l. induction entries as [|entry rest IH]; intros nodes l Hn; simpl.
  { intros [= <- <-]. done. }
  destruct (entryIsDir entry).
  - destruct (shouldSkipDir (entryName entry)); [by apply IH|].
    destruct (HasMarkdownN fs fuel _ l) as [[[e|[|]] l1]|]; try done.
    + apply IH. apply Forall_app. split; [done|]. by repeat constructor.
    + by apply IH.
  - destruct (isMarkdown (entryName entry)); simpl; [|by apply IH].
    apply IH. apply Forall_app. split; [done|]. by repeat constructor.
Qed.

Lemma ListN_leaves fs fuel relPath l nodes l' :
  ListN fs fuel relPath l = Some (inr nodes, l') -> Forall (fun c => Children c = []) nodes.
Proof.
  unfold ListN.
  destruct (statIsDir fs relPath) as [e|[|]]; try done.
  destruct (readDir fs relPath) as [e|entries]; try done.
  by apply listEntries_leaves.
Qed.

Lemma EnsureLoaded_fs_ordered fs fuel (n : Node) (st : FSLoader) r :
  EnsureLoaded (ld := fsLoader fs fuel) n st = Some r ->
  treeOrdered n -> treeOrdered (lrNode r).
Proof.
  unfold EnsureLoaded. intros Hr Hn.
  destruct (negb (IsDir n) || loaded n || negb (loader n)).
  { by inversion Hr. }
  simpl in Hr.
  destruct (ListN fs fuel (Path n) st) as [[[e|children] st']|] eqn:HL;
    inversion Hr; subst; simpl; [done|].
  apply ListN_leaves in HL.
  constructor; simpl.
  - apply childrenOrdered_iff, sortSlice_nodes_ordered.
  - rewrite Forall_forall. intros c Hc.
    apply list_elem_of_In, sortSlice_In, in_map_iff in Hc as (c0 & <- & Hc0).
    apply treeOrdered_leaf. simpl.
    rewrite Forall_forall in HL. by apply HL, list_elem_of_In.
Qed.

End Loading.

(** A change made in place to a node, which keeps its name and kind and
    leaves it ordered, leaves the whole tree ordered. *)
Lemma replaceAt_sameKey pos new root n :
  nodeAt pos root = Some n -> sameKey n new -> sameKey root (replaceAt pos new root).
Proof.
  destruct pos as [|i pos]; simpl.
  - by intros [= ->].
  - destruct (Children root !! i); [|done]. intros _ _. by split.
Qed.

Lemma replaceAt_ordered {uni : Unicode} pos new root n :
  treeOrdered root -> nodeAt pos root = Some n -> sameKey n new -> treeOrdered new ->
  treeOrdered (replaceAt pos new root).
Proof.
  revert root. induction pos as [|i pos IH]; intros root Hroot Hat Hkey Hnew; simpl; [done|].
  simpl in Hat. destruct (Children root !! i) as [c|] eqn:Hi; [|done]. simpl in Hat.
  inversion Hroot as [? Hord Hall]; subst.
  assert (treeOrdered c) as Hc.
  { rewrite Forall_forall in Hall. apply Hall. by eapply list_elem_of_lookup_2. }
  specialize (IH c Hc Hat Hkey Hnew).
  pose proof (replaceAt_sameKey pos new c n Hat Hkey) as Hk.
  constructor; simpl.
  - apply childrenOrdered_iff. apply childrenOrdered_iff in Hord.
    eapply sorted_sameKey; [|exact Hord].
    apply Forall2_same_length_lookup. split; [by rewrite length_insert|].
    intros j x y Hx Hy. destruct (decide (i = j)) as [->|Hne].
    + rewrite list_lookup_insert_eq in Hy by (by eapply lookup_lt_Some).
      by simplify_eq.
    + rewrite list_lookup_insert_ne in Hy by done. simplify_eq. by split.
  - apply Forall_insert; done.
Qed.

(** ** Termination on a file system of finite depth *)

Lemma scanEntries_returns {uni : Unicode} fs p entries fuel :
  (forall e, In e entries -> entryIsDir e = true -> shouldSkipDir (entryName e) = false ->
     forall l, exists r l', HasMarkdownN fs fuel (joinPath p (entryName e)) l = Some (r, l')) ->
  forall rest l, (forall e, In e rest -> In e entries) ->
    exists r l', scanEntries (HasMarkdownN fs fuel) p rest l = Some (r, l').
Proof.
  intros Hdirs. induction rest as [|entry rest IH]; intros l Hsub; simpl.
  { by eexists _, _. }
  assert (In entry entries) as Hin by (apply Hsub; by left).
  assert (forall e, In e rest -> In e entries) as Hsub' by (intros e He; apply Hsub; by right).
  destruct (entryIsDir entry) eqn:Hdir.
  - destruct (shouldSkipDir (entryName entry)) eqn:Hskip; [by apply IH|].
    destruct (Hdirs entry Hin Hdir Hskip l) as (r & l1 & Hcall). rewrite Hcall.
    destruct r as [e|[|]]; [by eexists _, _|by eexists _, _|by apply IH].
  - destruct (isMarkdown (entryName entry)); [by eexists _, _|by apply IH].
Qed.

(** One budget serves all the subdirectories of a directory. *)
Lemma finiteBelow_children {uni : Unicode} fs p entries :
  (forall e, In e entries -> entryIsDir e = true -> shouldSkipDir (entryName e) = false ->
     exists k, forall fuel l, (k <= fuel)%nat ->
       exists r l', HasMarkdownN fs fuel (joinPath p (entryName e)) l = Some (r, l')) ->
  exists K, forall e, In e entries -> entryIsDir e = true ->
    shouldSkipDir (entryName e) = false ->
    forall fuel l, (K <= fuel)%nat ->
      exists r l', HasMarkdownN fs fuel (joinPath p (entryName e)) l = Some (r, l').
Proof.
  induction entries as [|e es IHes]; intros IH.
  - exists 0%nat. by intros e [].
  - destruct IHes as (K & HK). { intros e' He'. apply IH. by right. }
    destruct (entryIsDir e) eqn:Hdir; [destruct (shouldSkipDir (entryName e)) eqn:Hskip|].
    + exists K. intros e' [<-|He']; [congruence|by apply HK].
    + destruct (IH e (or_introl eq_refl) Hdir Hskip) as (k & Hk).
      exists (Nat.max k K). intros e' [<-|He'] Hd Hs fuel l Hfuel.
      * apply Hk. lia.
      * apply HK; [done..|lia].
    + exists K. intros e' [<-|He']; [congruence|by apply HK].
Qed.

Lemma HasMarkdownN_returns {uni : Unicode} fs p :
  finiteBelow fs p ->
  exists k, forall fuel l, (k <= fuel)%nat ->
    exists r l', HasMarkdownN fs fuel p l = Some (r, l').
Proof.
  induction 1 as [p e Hread|p entries Hread Hdirs IH].
  - exists 1%nat. intros [|fuel] l Hfuel; [lia|]. simpl.
    destruct (cache l !! p); [by eexists _, _|]. rewrite Hread. by eexists _, _.
  - destruct (finiteBelow_children fs p entries IH) as (K & HK).
    exists (S K). intros [|fuel] l Hfuel; [lia|]. simpl.
    destruct (cache l !! p); [by eexists _, _|]. rewrite Hread.
    apply (scanEntries_returns fs p entries fuel); [|done].
    intros e He Hd Hs l0. apply (HK e He Hd Hs). lia.
Qed.

Lemma listEntries_returns {uni : Unicode} fs p entries fuel :
  (forall e, In e entries -> entryIsDir e = true -> shouldSkipDir (entryName e) = false ->
     forall l, exists r l', HasMarkdownN fs fuel (joinPath p (entryName e)) l = Some (r, l')) ->
  forall rest nodes l, (forall e, In e rest -> In e entries) ->
    exists r l', listEntries fs fuel p rest nodes l = Some (r, l').
Proof.
  intros Hdirs. induction rest as [|entry rest IH]; intros nodes l Hsub; simpl.
  { by eexists _, _. }
  assert (In entry entries) as Hin by (apply Hsub; by left).
  assert (forall e, In e rest -> In e entries) as Hsub' by (intros e He; apply Hsub; by right).
  destruct (entryIsDir entry) eqn:Hdir.
  - destruct (shouldSkipDir (entryName entry)) eqn:Hskip; [by apply IH|].
    destruct (Hdirs entry Hin Hdir Hskip l) as (r & l1 & Hcall). rewrite Hcall.
    destruct r as [e|[|]]; [by eexists _, _|by apply IH|by apply IH].
  - destruct (isMarkdown (entryName entry)); simpl; by apply IH.
Qed.

Lemma ListN_returns {uni : Unicode} fs p :
  finiteBelow fs p ->
  exists k, forall fuel l, (k <= fuel)%nat ->
    exists r l', ListN fs fuel p l = Some (r, l').
Proof.
  intros Hfin. unfold ListN.
  destruct Hfin as [p e Hread|p entries Hread Hdirs].
  - exists 0%nat. intros fuel l _.
    destruct (statIsDir fs p) as [e'|[|]]; [by eexists _, _| |by eexists _, _].
    rewrite Hread. by eexists _, _.
  - destruct (finiteBelow_children fs p entries) as (K & HK).
    { intros e He Hd Hs. by apply HasMarkdownN_returns, Hdirs. }
    exists K. intros fuel l Hfuel.
    destruct (statIsDir fs p) as [e'|[|]]; [by eexists _, _| |by eexists _, _].
    rewrite Hread. apply (listEntries_returns fs p entries fuel); [|done].
    intros e He Hd Hs l0. by apply (HK e He Hd Hs).
Qed.

Lemma EnsureLoaded_fs_returns {uni : Unicode} {sorter : SliceSorter} fs (n : Node) :
  finiteBelow fs (Path n) ->
  exists k, forall fuel st, (k <= fuel)%nat ->
    exists r, EnsureLoaded (ld := fsLoader fs fuel) n st = Some r.
Proof.
  intros Hfin. destruct (ListN_returns fs (Path n) Hfin) as (k & Hk).
  exists k. intros fuel st Hfuel. unfold EnsureLoaded.
  destruct (negb (IsDir n) || loaded n || negb (loader n)); [by eexists|].
  simpl. destruct (Hk fuel st Hfuel) as ([e|children] & st' & ->); by eexists.
Qed.

(** ** Claims about the tree *)

(** C1. Sorting invariant: after the eager build, after the tag-filter merge
    and after a lazy load through [EnsureLoaded], the children of every node
    stand with all directories before all files, each group ascending by the
    lowercase form of the names, at every level of the tree.  For the lazy
    load: whatever the loader, the children of the loaded node are ordered;
    and with the filesystem loader a load at any node of an ordered tree
    leaves the whole tree ordered, the load returning whenever the file
    system has finite depth below the node. *)
Theorem C1_children_ordered_at_every_level {uni : Unicode} (sorter : SliceSorter) :
  (forall rootName files,
      exists root, Build rootName files = Some root /\ treeOrdered root) /\
  (forall displayRoot relPaths,
      exists root, buildFilteredTree displayRoot relPaths = Some root /\ treeOrdered root) /\
  (forall (S : Type) (ld : Loader S) (n : Node) (st : S) r,
      EnsureLoaded n st = Some r ->
      childrenOrdered (Children n) -> childrenOrdered (Children (lrNode r))) /\
  (forall fs fuel root pos n (st : FSLoader) r,
      treeOrdered root ->
      nodeAt pos root = Some n ->
      EnsureLoaded (ld := fsLoader fs fuel) n st = Some r ->
      treeOrdered (replaceAt pos (lrNode r) root)) /\
  (forall fs root pos n,
      treeOrdered root ->
      nodeAt pos root = Some n ->
      finiteBelow fs (Path n) ->
      exists k, forall fuel (st : FSLoader), (k <= fuel)%nat ->
        exists r, EnsureLoaded (ld := fsLoader fs fuel) n st = Some r /\
                  treeOrdered (replaceAt pos (lrNode r) root)).
Proof.
  assert (forall fs fuel root pos n (st : FSLoader) r,
      treeOrdered root ->
      nodeAt pos root = Some n ->
      EnsureLoaded (ld := fsLoader fs fuel) n st = Some r ->
      treeOrdered (replaceAt pos (lrNode r) root)) as Hload.
  { intros fs fuel root pos n st r Hroot Hat Hr.
    assert (treeOrdered n) as Hn.
    { clear Hr. revert root Hroot Hat. induction pos as [|i pos IH]; intros root Hroot; simpl.
      - by intros [= <-].
      - destruct (Children root !! i) as [c|] eqn:Hi; [|done]. simpl.
        apply IH. inversion Hroot as [? _ Hall]; subst.
        rewrite Forall_forall in Hall. apply Hall. by eapply list_elem_of_lookup_2. }
    eapply replaceAt_ordered; eauto.
    + by eapply EnsureLoaded_sameKey.
    + by eapply EnsureLoaded_fs_ordered. }
  split; [|split; [|split; [|split]]].
  - intros rootName files. unfold Build.
    destruct (SortRecursive_ordered (insertAll (newRootNode rootName) files))
      as (root & Hroot & Hord & _). eauto.
  - intros displayRoot relPaths. unfold buildFilteredTree.
    destruct (sortTree_ordered (insertTrimmed (newRootNode displayRoot) relPaths))
      as (root & Hroot & Hord & _). eauto.
  - intros S ld n st r. apply EnsureLoaded_children_ordered.
  - exact Hload.
  - intros fs root pos n Hroot Hat Hfin.
    destruct (EnsureLoaded_fs_returns fs n Hfin) as (k & Hk).
    exists k. intros fuel st Hfuel. destruct (Hk fuel st Hfuel) as (r & Hr).
    exists r. split; [done|]. by eapply Hload.
Qed.

Lemma C1_witness :
  exists r,
    EnsureLoaded (sorter := insertionSorter) (ld := fsLoader demoFS 8) demoDir NewFSLoader = Some r /\
    map Name (Children (lrNode r)) = ["sub"; "A.md"; "b.md"] /\
    treeOrdered (replaceAt [] (lrNode r) demoDir).
Proof.
  eexists. split; [vm_compute; reflexivity|]. split; [reflexivity|].
  apply (proj1 (proj2 (proj2 (proj2 (C1_children_ordered_at_every_level insertionSorter))))
           demoFS 8%nat demoDir [] demoDir NewFSLoader).
  - apply treeOrdered_leaf. reflexivity.
  - reflexivity.
  - vm_compute. reflexivity.
Defined.

(** C3. Idempotent load: a call of [EnsureLoaded] that follows one that
    returned without error is a no-op: no [List] call, the node (children,
    loaded flag and every other field) and the loader unchanged, no error.
    For a directory node with a loader that is not loaded yet and whose
    listing succeeds, the two calls together make exactly one [List] call:
    the first call takes the listing as the children and leaves the loader in
    the state the one [List] call left it in, and the second call leaves node
    and loader as they are; a loader that counts the calls it gets has
    counted one more. *)
Theorem C3_ensureLoaded_twice_lists_once {uni : Unicode} (sorter : SliceSorter) (S : Type)
  (ld : Loader S) (n : Node) (st : S) :
  (forall r1, EnsureLoaded n st = Some r1 -> lrErr r1 = None ->
      EnsureLoaded (lrNode r1) (lrState r1) = Some (mkLoadResult (lrNode r1) None [] (lrState r1))) /\
  (forall children st',
      IsDir n = true -> loader n = true -> loaded n = false ->
      List (Path n) st = Some (inr children, st') ->
      exists r1 r2,
        EnsureLoaded n st = Some r1 /\
        EnsureLoaded (lrNode r1) (lrState r1) = Some r2 /\
        lrErr r1 = None /\ loaded (lrNode r1) = true /\
        lrState r1 = st' /\
        Permutation (Children (lrNode r1))
                    (map (fun child => setLoader child (loader n)) children) /\
        (lrCalls r1 ++ lrCalls r2)%list = [Path n] /\
        lrCalls r2 = [] /\ lrNode r2 = lrNode r1 /\ lrErr r2 = None /\ lrState r2 = st') /\
  (forall children st' (calls : nat),
      IsDir n = true -> loader n = true -> loaded n = false ->
      List (Path n) st = Some (inr children, st') ->
      exists r1 r2,
        EnsureLoaded (ld := countingLoader ld) n (st, calls) = Some r1 /\
        EnsureLoaded (ld := countingLoader ld) (lrNode r1) (lrState r1) = Some r2 /\
        lrState r1 = (st', Datatypes.S calls) /\
        lrState r2 = (st', Datatypes.S calls) /\
        lrNode r2 = lrNode r1 /\ lrErr r2 = None).
Proof.
  assert (forall (T : Type) (lt : Loader T) (s : T) r1,
      EnsureLoaded (ld := lt) n s = Some r1 -> lrErr r1 = None ->
      EnsureLoaded (ld := lt) (lrNode r1) (lrState r1)
      = Some (mkLoadResult (lrNode r1) None [] (lrState r1)))
    as Hnoop.
  { intros T lt s r1 Hr1 He. unfold EnsureLoaded in Hr1.
    destruct (negb (IsDir n) || loaded n || negb (loader n)) eqn:Hskip.
    - inversion Hr1; subst; simpl. by apply EnsureLoaded_skip.
    - destruct (List (Path n) s) as [[[e|children] s']|]; inversion Hr1; subst; [done|].
      simpl. apply EnsureLoaded_skip. simpl. by rewrite orb_true_r. }
  split; [exact (Hnoop S ld st)|]. split.
  - intros children st' Hd Hl Hnl HList.
    pose proof (EnsureLoaded_load n st Hd Hl Hnl) as Hr1. rewrite HList in Hr1.
    eexists _, _. split; [exact Hr1|]. split; [by apply (Hnoop S ld st)|]. simpl.
    split; [done|]. split; [done|]. split; [done|]. split; [apply sortSlice_perm|done].
  - intros children st' calls Hd Hl Hnl HList.
    pose proof (EnsureLoaded_load (H := countingLoader ld) n (st, calls) Hd Hl Hnl) as Hr1.
    simpl in Hr1. rewrite HList in Hr1.
    eexists _, _. split; [exact Hr1|].
    split; [by apply (Hnoop _ (countingLoader ld) (st, calls))|]. done.
Qed.

Lemma C3_witness :
  exists r1 r2,
    EnsureLoaded (sorter := insertionSorter) (ld := countingLoader (fsLoader demoFS 8))
      demoDir (NewFSLoader, 0%nat) = Some r1 /\
    EnsureLoaded (sorter := insertionSorter) (ld := countingLoader (fsLoader demoFS 8))
      (lrNode r1) (lrState r1) = Some r2 /\
    lrState r1 = (mkFSLoader (<["sub" := true]> ∅) [EmptyString; "sub"], 1%nat) /\
    lrState r2 = (mkFSLoader (<["sub" := true]> ∅) [EmptyString; "sub"], 1%nat) /\
    lrNode r2 = lrNode r1 /\ lrErr r2 = None.
Proof.
  refine (proj2 (proj2 (C3_ensureLoaded_twice_lists_once insertionSorter FSLoader
                          (fsLoader demoFS 8) demoDir NewFSLoader))
            [newFile "A.md" "A.md"; newFile "b.md" "b.md"; newDir "sub" "sub"]
            (mkFSLoader (<["sub" := true]> ∅) [EmptyString; "sub"]) 0%nat _ _ _ _);
    [reflexivity|reflexivity|reflexivity|vm_compute; reflexivity].
Defined.

(** C9. Failure of the listing: when [List] returns an error, [EnsureLoaded]
    returns that error after this one call, and leaves the node as it was,
    the loaded flag false with it; a later call calls [List] again. *)
Theorem C9_ensureLoaded_failure_leaves_node {uni : Unicode}
  (sorter : SliceSorter) (S : Type) (ld : Loader S)
  (n : Node) (st st' : S) (e : Error) :
  IsDir n = true -> loader n = true -> loaded n = false ->
  List (Path n) st = Some (inl e, st') ->
  EnsureLoaded n st = Some (mkLoadResult n (Some e) [Path n] st') /\
  loaded n = false /\
  (forall res st'', List (Path n) st' = Some (res, st'') ->
     exists r, EnsureLoaded n st' = Some r /\ lrCalls r = [Path n] /\ lrState r = st'').
Proof.
  intros Hd Hl Hnl HList. split; [|split; [done|]].
  - rewrite (EnsureLoaded_load n st Hd Hl Hnl), HList. done.
  - intros res st'' HList'. rewrite (EnsureLoaded_load n st' Hd Hl Hnl), HList'.
    destruct res; eexists; done.
Qed.

Lemma C9_witness :
  EnsureLoaded (sorter := insertionSorter) (ld := fsLoader demoFS 8) missingDir NewFSLoader
  = Some (mkLoadResult missingDir (Some (errExternal "no such file or directory")) ["gone"] NewFSLoader)
  /\ loaded missingDir = false
  /\ (forall res st'', ListN demoFS 8 "gone" NewFSLoader = Some (res, st'') ->
        exists r, EnsureLoaded (sorter := insertionSorter) (ld := fsLoader demoFS 8)
                    missingDir NewFSLoader = Some r /\ lrCalls r = ["gone"] /\ lrState r = st'').
Proof.
  apply (C9_ensureLoaded_failure_leaves_node insertionSorter FSLoader (fsLoader demoFS 8)
           missingDir NewFSLoader NewFSLoader (errExternal "no such file or directory"));
    reflexivity.
Defined.

(** ** The eager builder *)

Lemma Split_nonempty s sep : Split s sep <> [].
Proof.
  induction s as [|c s IH]; simpl; [done|].
  destruct (Ascii.eqb c sep); [done|]. by destruct (Split s sep).
Qed.

Lemma updateFirst_fixed {A : Type} (p : A -> bool) (f : A -> A) l c :
  List.find p l = Some c -> f c = c -> updateFirst p f l = l.
Proof.
  induction l as [|x l IH]; simpl; [done|].
  destruct (p x); [by intros [= ->] ->|]. intros Hc Hf. by rewrite IH.
Qed.

Lemma setChildren_same n : setChildren n (Children n) = n.
Proof. by destruct n. Qed.

(** A path whose every segment is already there, the last one under its
    parent, changes nothing when it is inserted. *)
Lemma insertParts_existing parts currentPath n x :
  parts <> [] -> lookupPath parts n = Some x -> insertParts parts currentPath n = n.
Proof.
  revert currentPath n. induction parts as [|part rest IH]; intros currentPath n Hne; [done|].
  simpl. destruct (ChildByName n part) as [c|] eqn:Hc; simpl; [|done].
  destruct rest as [|part' rest']; [done|].
  intros Hlook.
  rewrite (updateFirst_fixed _ _ _ c Hc); [apply setChildren_same|].
  by apply IH.
Qed.

Lemma insertAll_app root files rel :
  insertAll root (files ++ [rel]) =
  insertParts (Split rel "/"%char) EmptyString (insertAll root files).
Proof. unfold insertAll. by rewrite fold_left_app. Qed.

(** On a list in which [nodeLess] separates any two different elements, every
    sort that meets the contract gives the same result. *)
Lemma sortSlice_nodes_unique {uni : Unicode} {sorter : SliceSorter} l l' :
  Permutation l' l ->
  StronglySorted (notAfter nodeLess) l' ->
  (forall x1 x2, x1 ∈ l -> x2 ∈ l ->
     notAfter nodeLess x1 x2 -> notAfter nodeLess x2 x1 -> x1 = x2) ->
  sortSlice nodeLess l = l'.
Proof.
  intros Hperm Hsorted Hanti.
  apply (StronglySorted_unique_strong (notAfter nodeLess)).
  - intros x1 x2 H1 H2. apply Hanti.
    + by rewrite <- (sortSlice_perm _ nodeLess l).
    + by rewrite <- Hperm.
  - apply sortSlice_nodes_ordered.
  - done.
  - by rewrite sortSlice_perm.
Qed.

Lemma sortSlice_singleton {sorter : SliceSorter} {A : Type} (less : A -> A -> bool) x :
  sortSlice less [x] = [x].
Proof. apply Permutation_singleton_r, sortSlice_perm. Qed.

Lemma SortRecursiveN_step {uni : Unicode} {sorter : SliceSorter} fuel n :
  SortRecursiveN (S fuel) n =
  (children' ← mapM (fun child =>
                       if (0 <? length (Children child))%nat
                       then SortRecursiveN fuel child
                       else Some child) (sortSlice nodeLess (Children n));
   Some (setChildren n children')).
Proof. reflexivity. Qed.

(** C6. Eager builder: [Build] with root name [root] and the paths [b/x.md],
    [A/y.md], [a.md] gives a root whose children are, in this order, the
    directory [A], the directory [b] and the file [a.md]; and a path whose
    last segment already exists under its parent is skipped, the tree staying
    as the earlier paths made it. *)
Theorem C6_build_result_and_first_occurrence_wins {uni : Unicode} (sorter : SliceSorter) :
  Build "root" ["b/x.md"; "A/y.md"; "a.md"] =
    Some (mkNode "root" EmptyString true true
            [mkNode "A" "A" true false [newFile "y.md" "A/y.md"] false false;
             mkNode "b" "b" true false [newFile "x.md" "b/x.md"] false false;
             newFile "a.md" "a.md"] false false) /\
  (forall current currentPath part existing,
      ChildByName current part = Some existing ->
      insertParts [part] currentPath current = current) /\
  (forall rootName files rel existing,
      lookupPath (Split rel "/"%char) (insertAll (newRootNode rootName) files) = Some existing ->
      Build rootName (files ++ [rel]) = Build rootName files).
Proof.
  split; [|split].
  - unfold Build, SortRecursive.
    change (insertAll (newRootNode "root") ["b/x.md"; "A/y.md"; "a.md"])
      with (mkNode "root" EmptyString true true
              [mkNode "b" "b" true false [newFile "x.md" "b/x.md"] false false;
               mkNode "A" "A" true false [newFile "y.md" "A/y.md"] false false;
               newFile "a.md" "a.md"] false false).
    change (height _) with 3%nat.
    rewrite SortRecursiveN_step.
    rewrite (sortSlice_nodes_unique _
               [mkNode "A" "A" true false [newFile "y.md" "A/y.md"] false false;
                mkNode "b" "b" true false [newFile "x.md" "b/x.md"] false false;
                newFile "a.md" "a.md"]).
    + simpl.
      rewrite (sortSlice_singleton nodeLess (newFile "y.md" "A/y.md")).
      rewrite (sortSlice_singleton nodeLess (newFile "x.md" "b/x.md")).
      reflexivity.
    + simpl. apply perm_swap.
    + repeat constructor.
    + intros x1 x2 H1 H2. simpl in H1, H2.
      repeat (apply elem_of_cons in H1 as [->|H1]); [| | |by apply elem_of_nil in H1];
      repeat (apply elem_of_cons in H2 as [->|H2]); try done;
        try (by apply elem_of_nil in H2); vm_compute; congruence.
  - intros current currentPath part existing Hc. simpl. by rewrite Hc.
  - intros rootName files rel existing Hlook. unfold Build.
    rewrite insertAll_app.
    by rewrite (insertParts_existing _ _ _ existing (Split_nonempty _ _) Hlook).
Qed.

Lemma C6_witness :
  insertParts ["a.md"] EmptyString (insertAll (newRootNode "root") ["a.md"; "b/x.md"]) =
    insertAll (newRootNode "root") ["a.md"; "b/x.md"] /\
  Build (sorter := insertionSorter) "root" (["b/x.md"; "A/y.md"; "a.md"] ++ ["b/x.md"]) =
    Build (sorter := insertionSorter) "root" ["b/x.md"; "A/y.md"; "a.md"].
Proof.
  split.
  - apply (proj1 (proj2 (C6_build_result_and_first_occurrence_wins insertionSorter))
             (insertAll (newRootNode "root") ["a.md"; "b/x.md"]) EmptyString "a.md"
             (newFile "a.md" "a.md")).
    reflexivity.
  - apply (proj2 (proj2 (C6_build_result_and_first_occurrence_wins insertionSorter))
             "root" ["b/x.md"; "A/y.md"; "a.md"] "b/x.md" (newFile "x.md" "b/x.md")).
    reflexivity.
Defined.

(** ** A larger budget does not change a result *)

Lemma mapM_mono {A B : Type} (f g : A -> option B) l k :
  (forall x y, f x = Some y -> g x = Some y) ->
  mapM f l = Some k -> mapM g l = Some k.
Proof.
  intros Hfg. rewrite !mapM_Some. intros H. eapply Forall2_impl; [exact H|exact Hfg].
Qed.

Lemma SortRecursiveN_more {uni : Unicode} {sorter : SliceSorter} fuel n n' :
  SortRecursiveN fuel n = Some n' -> SortRecursiveN (S fuel) n = Some n'.
Proof.
  revert n n'. induction fuel as [|fuel IH]; intros n n'; [done|].
  rewrite !SortRecursiveN_step.
  destruct (mapM _ (sortSlice nodeLess (Children n))) as [cs|] eqn:Hcs; [|done].
  intros Hn'. erewrite mapM_mono; [exact Hn'| |exact Hcs].
  intros c c'. simpl. destruct (0 <? length (Children c))%nat; [apply IH|done].
Qed.

Lemma sortTreeN_more {uni : Unicode} {sorter : SliceSorter} fuel n n' :
  sortTreeN fuel n = Some n' -> sortTreeN (S fuel) n = Some n'.
Proof.
  revert n n'. induction fuel as [|fuel IH]; intros n n'; [done|].
  change (sortTreeN (S (S fuel)) n) with
    (if (length (Children n) =? 0)%nat then Some n
     else children' ← mapM (sortTreeN (S fuel)) (sortSlice nodeLess (Children n));
          Some (setChildren n children')).
  change (sortTreeN (S fuel) n) with
    (if (length (Children n) =? 0)%nat then Some n
     else children' ← mapM (sortTreeN fuel) (sortSlice nodeLess (Children n));
          Some (setChildren n children')).
  destruct (length (Children n) =? 0)%nat; [done|].
  destruct (mapM (sortTreeN fuel) (sortSlice nodeLess (Children n))) as [cs|] eqn:Hcs; [|done].
  intros Hn'. erewrite mapM_mono; [exact Hn'| |exact Hcs]. exact IH.
Qed.

Lemma scanEntries_more {uni : Unicode} rec rec' p entries l x :
  (forall q l0 y, rec q l0 = Some y -> rec' q l0 = Some y) ->
  scanEntries rec p entries l = Some x -> scanEntries rec' p entries l = Some x.
Proof.
  intros Hrec. revert l. induction entries as [|entry rest IH]; intros l; simpl; [done|].
  destruct (entryIsDir entry).
  - destruct (shouldSkipDir (entryName entry)); [apply IH|].
    destruct (rec (joinPath p (entryName entry)) l) as [[r l1]|] eqn:Hsub; [|done].
    rewrite (Hrec _ _ _ Hsub). destruct r as [e|[|]]; [done|done|apply IH].
  - destruct (isMarkdown (entryName entry)); [done|apply IH].
Qed.

Lemma HasMarkdownN_more {uni : Unicode} fs fuel p l x :
  HasMarkdownN fs fuel p l = Some x -> HasMarkdownN fs (S fuel) p l = Some x.
Proof.
  revert p l x. induction fuel as [|fuel IH]; intros p l x; [done|].
  change (HasMarkdownN fs (S (S fuel)) p l) with
    (match cache l !! p with
     | Some cached => Some (inr cached, l)
     | None => match readDir fs p with
               | inl e => Some (inl e, logRead p l)
               | inr entries =>
                   scanEntries (HasMarkdownN fs (S fuel)) p entries (logRead p l)
               end
     end).
  simpl. destruct (cache l !! p); [done|]. destruct (readDir fs p); [done|].
  apply scanEntries_more. exact IH.
Qed.

Lemma searchLoop_more fuel stripped lowerContent lowerQuery matches offset ms :
  searchLoop fuel stripped lowerContent lowerQuery matches offset = Some ms ->
  searchLoop (S fuel) stripped lowerContent lowerQuery matches offset = Some ms.
Proof.
  revert matches offset. induction fuel as [|fuel IH]; intros matches offset; [done|].
  change (searchLoop (S (S fuel)) stripped lowerContent lowerQuery matches offset) with
    (rest ← sliceFrom lowerContent offset;
     let pos := Index rest lowerQuery in
     if pos =? -1 then Some matches
     else before ← sliceTo stripped (offset + pos);
          searchLoop (S fuel) stripped lowerContent lowerQuery
            (matches ++ [CountNewlines before]) (offset + pos + len lowerQuery)).
  simpl. destruct (sliceFrom lowerContent offset) as [rest|]; [|done]. simpl.
  destruct (Index rest lowerQuery =? -1); [done|].
  destruct (sliceTo stripped (offset + Index rest lowerQuery)); [|done]. simpl.
  apply IH.
Qed.

(** ** The cache of HasMarkdown *)

Lemma HasMarkdownN_hit {uni : Unicode} fs fuel p l b :
  cache l !! p = Some b -> HasMarkdownN fs (S fuel) p l = Some (inr b, l).
Proof. simpl. by intros ->. Qed.

Lemma noDocs_not_hasDoc {uni : Unicode} fs p : noDocs fs p -> hasDoc fs p -> False.
Proof.
  induction 1 as [p entries Hread Hfiles Hdirs IH].
  inversion 1 as [? entries' e Hread' Hin Hfile Hmd|? entries' e Hread' Hin Hdir Hskip Hsub]; subst.
  - rewrite Hread in Hread'. injection Hread' as <-.
    specialize (Hfiles e Hin Hfile). congruence.
  - rewrite Hread in Hread'. injection Hread' as <-.
    by apply (IH e Hin Hdir Hskip).
Qed.

Lemma cacheSound_insert {uni : Unicode} fs c p (b : bool) :
  cacheSound fs c ->
  (if b return Prop then hasDoc fs p else noDocs fs p) ->
  cacheSound fs (<[p := b]> c).
Proof.
  intros Hc Hp q b'. rewrite lookup_insert. case_decide as Hq.
  - intros [= <-]. by subst q.
  - apply Hc.
Qed.

Lemma is_Some_insert_mono (c : gmap string bool) p b q :
  is_Some (c !! q) -> is_Some (<[p := b]> c !! q).
Proof.
  intros Hq. rewrite lookup_insert. case_decide; [by eexists|done].
Qed.

Lemma passedOk_snoc {uni : Unicode} fs p passed e :
  passedOk fs p passed ->
  (entryIsDir e = false -> isMarkdown (entryName e) = false) ->
  (entryIsDir e = true -> shouldSkipDir (entryName e) = false ->
   noDocs fs (joinPath p (entryName e))) ->
  passedOk fs p (passed ++ [e]).
Proof.
  intros [Hf Hd] Hef Hed. split; intros e' Hin; apply in_app_or in Hin as [Hin|[<-|[]]]; auto.
Qed.

Ltac split_outcome := split; [|split; [|split; [|split]]].

Lemma lookup_insert_other (c : gmap string bool) p b q b' :
  q <> p -> c !! q = Some b' -> <[p := b]> c !! q = Some b'.
Proof. intros Hne Hq. by rewrite lookup_insert_ne. Qed.

Lemma scanEntries_outcome {uni : Unicode} fs p entries rec :
  (forall q l r l', rec q l = Some (r, l') -> callOutcome fs q l r l') ->
  forall rest l r l',
    scanEntries rec p rest l = Some (r, l') -> scanOutcome fs p entries rest l r l'.
Proof.
  intros Hrec. induction rest as [|entry rest IH]; intros l r l'; simpl.
  { intros [= <- <-]. split_outcome; simpl.
    - exists []. rewrite app_nil_r. split; [done|]. by intros.
    - intros q. apply is_Some_insert_mono.
    - intros b [= <-]. apply lookup_insert_eq.
    - intros Hsound Hread passed Hent [Hf Hd]. rewrite app_nil_r in Hent. subst passed.
      assert (noDocs fs p) as Hno by (by econstructor).
      split; [|split]; [|done|done].
      by apply cacheSound_insert.
    - intros q b. apply lookup_insert_other. }
  (* the passed prefix grows by [entry] *)
  assert (forall l0 r0 l0',
    scanOutcome fs p entries rest l0 r0 l0' ->
    (entryIsDir entry = false -> isMarkdown (entryName entry) = false) ->
    (entryIsDir entry = true -> shouldSkipDir (entryName entry) = false ->
     cacheSound fs (cache l0) -> noDocs fs (joinPath p (entryName entry))) ->
    scanOutcome fs p entries (entry :: rest) l0 r0 l0') as Hnext.
  { intros l0 r0 l0' (Hv & Hm & Hc & Hs & Hk) Hef Hed. split_outcome; [done..| |done].
    intros Hsound Hread passed Hent Hpassed.
    apply (Hs Hsound Hread (passed ++ [entry])%list); [by rewrite <- app_assoc|].
    apply passedOk_snoc; auto. }
  assert (forall passed, entries = (passed ++ entry :: rest)%list -> In entry entries) as Hin.
  { intros passed ->. apply in_or_app. right. by left. }
  destruct (entryIsDir entry) eqn:Hdir.
  - destruct (shouldSkipDir (entryName entry)) eqn:Hskip.
    { intros Hscan. apply Hnext; [by apply IH|done|congruence]. }
    destruct (rec (joinPath p (entryName entry)) l) as [[[e|[|]] l1]|] eqn:Hsub; [| | |done].
    + (* the recursive call fails *)
      intros [= <- <-]. apply Hrec in Hsub as ((visited & Hv & _) & Hm & _ & Hs & Hk).
      split_outcome; [|done|done| |].
      * exists visited. split; [done|]. by intros.
      * intros Hsound _ _ _ _. destruct (Hs Hsound) as (? & _ & _). by split.
      * intros q b _ Hq. by eapply lookup_weaken.
    + (* a document below *)
      intros [= <- <-]. apply Hrec in Hsub as ((visited & Hv & Hvis) & Hm & _ & Hs & Hk).
      split_outcome; simpl.
      * exists visited. split; [done|]. intros b _ q Hq.
        apply is_Some_insert_mono. by eapply Hvis.
      * intros q Hq. by apply is_Some_insert_mono, Hm.
      * intros b [= <-]. apply lookup_insert_eq.
      * intros Hsound Hread passed Hent _. destruct (Hs Hsound) as (Hs1 & Hs2 & _).
        assert (hasDoc fs p) as Hhas by (eapply hasDoc_dir; eauto).
        split; [|split]; [|done|done].
        by apply cacheSound_insert.
      * intros q b Hne Hq. apply lookup_insert_other; [done|]. by eapply lookup_weaken.
    + (* nothing below: on with the rest *)
      intros Hscan. apply Hrec in Hsub as ((visited & Hv & Hvis) & Hm & _ & Hs & Hk).
      apply IH in Hscan as ((visited' & Hv' & Hvis') & Hm' & Hc' & Hs' & Hk').
      split_outcome; [| |done| |].
      * exists (visited ++ visited')%list. split; [by rewrite Hv', Hv, app_assoc|].
        intros b Hb q Hq. apply in_app_or in Hq as [Hq|Hq]; [|by eapply Hvis'].
        apply Hm'. by eapply Hvis.
      * intros q Hq. by apply Hm', Hm.
      * intros Hsound Hread passed Hent Hpassed. destruct (Hs Hsound) as (Hs1 & _ & Hs3).
        apply (Hs' Hs1 Hread (passed ++ [entry])%list); [by rewrite <- app_assoc|].
        apply passedOk_snoc; auto. congruence.
      * intros q b Hne Hq. apply Hk'; [done|]. by eapply lookup_weaken.
  - destruct (isMarkdown (entryName entry)) eqn:Hmd.
    + intros [= <- <-]. split_outcome; simpl.
      * exists []. rewrite app_nil_r. split; [done|]. by intros.
      * intros q. apply is_Some_insert_mono.
      * intros b [= <-]. apply lookup_insert_eq.
      * intros Hsound Hread passed Hent _.
        assert (hasDoc fs p) as Hhas by (eapply hasDoc_file; eauto).
        split; [|split]; [|done|done].
        by apply cacheSound_insert.
      * intros q b. apply lookup_insert_other.
    + intros Hscan. apply Hnext; [by apply IH|done|congruence].
Qed.

Lemma HasMarkdownN_outcome {uni : Unicode} fs fuel :
  forall p l r l', HasMarkdownN fs fuel p l = Some (r, l') -> callOutcome fs p l r l'.
Proof.
  induction fuel as [|fuel IH]; intros p l r l'; simpl; [done|].
  destruct (cache l !! p) as [cached|] eqn:Hhit.
  { intros [= <- <-]. split_outcome.
    - exists []. rewrite app_nil_r. split; [done|]. by intros.
    - done.
    - intros b [= <-]. done.
    - intros Hsound. split; [done|].
      split; intros [= ->]; by apply (Hsound _ _ Hhit).
    - done. }
  destruct (readDir fs p) as [e|entries] eqn:Hread.
  { intros [= <- <-]. split_outcome; simpl; try done.
    exists [p]. split; [done|]. by intros. }
  intros Hscan.
  apply (scanEntries_outcome fs p entries _ IH) in Hscan
    as ((visited & Hv & Hvis) & Hm & Hc & Hs & Hk).
  simpl in *. split_outcome; [|done|done| |].
  - exists (p :: visited). split; [by rewrite Hv, <- app_assoc|].
    intros b Hb q [<-|Hq]; [|by eapply Hvis]. rewrite (Hc b Hb). by eexists.
  - intros Hsound. apply (Hs Hsound Hread []); [done|]. by split.
  - apply map_subseteq_spec. intros q b Hq. apply Hk; [|done]. congruence.
Qed.

Lemma scanEntries_noDocs {uni : Unicode} fs p entries fuel :
  (forall e, In e entries -> entryIsDir e = false -> isMarkdown (entryName e) = false) ->
  (forall e, In e entries -> entryIsDir e = true -> shouldSkipDir (entryName e) = false ->
     forall l, cacheSound fs (cache l) ->
       exists l', HasMarkdownN fs fuel (joinPath p (entryName e)) l = Some (inr false, l')) ->
  forall rest l, (forall e, In e rest -> In e entries) -> cacheSound fs (cache l) ->
    exists l', scanEntries (HasMarkdownN fs fuel) p rest l = Some (inr false, l').
Proof.
  intros Hfiles Hdirs. induction rest as [|entry rest IH]; intros l Hsub Hsound; simpl.
  { by eexists. }
  assert (In entry entries) as Hin by (apply Hsub; by left).
  assert (forall e, In e rest -> In e entries) as Hsub' by (intros e He; apply Hsub; by right).
  destruct (entryIsDir entry) eqn:Hdir.
  - destruct (shouldSkipDir (entryName entry)) eqn:Hskip; [by apply IH|].
    destruct (Hdirs entry Hin Hdir Hskip l Hsound) as (l1 & Hcall). rewrite Hcall.
    apply IH; [done|].
    by apply (HasMarkdownN_outcome fs fuel _ _ _ _ Hcall).
  - rewrite (Hfiles entry Hin Hdir). by apply IH.
Qed.

(** A subtree without documents is found out with a budget that its depth
    fixes, whatever the (sound) cache holds. *)
Lemma HasMarkdownN_noDocs {uni : Unicode} fs p :
  noDocs fs p ->
  exists k, forall fuel l, (k <= fuel)%nat -> cacheSound fs (cache l) ->
    exists l', HasMarkdownN fs fuel p l = Some (inr false, l').
Proof.
  induction 1 as [p entries Hread Hfiles Hdirs IH].
  assert (noDocs fs p) as Hno by (by econstructor).
  assert (exists K, forall e, In e entries -> entryIsDir e = true ->
            shouldSkipDir (entryName e) = false ->
            forall fuel l, (K <= fuel)%nat -> cacheSound fs (cache l) ->
              exists l', HasMarkdownN fs fuel (joinPath p (entryName e)) l = Some (inr false, l'))
    as (K & HK).
  { clear Hread Hfiles Hdirs Hno. induction entries as [|e es IHes].
    - exists 0%nat. by intros e [].
    - destruct IHes as (K & HK). { intros e' He'. apply IH. by right. }
      destruct (entryIsDir e) eqn:Hdir; [destruct (shouldSkipDir (entryName e)) eqn:Hskip|].
      + exists K. intros e' [<-|He']; [congruence|by apply HK].
      + destruct (IH e (or_introl eq_refl) Hdir Hskip) as (k & Hk).
        exists (Nat.max k K). intros e' [<-|He'] Hd Hs fuel l Hfuel Hsound.
        * apply Hk; [lia|done].
        * apply HK; [done..|lia|done].
      + exists K. intros e' [<-|He']; [congruence|by apply HK]. }
  exists (S K). intros [|fuel] l Hfuel Hsound; [lia|]. simpl.
  destruct (cache l !! p) as [[|]|] eqn:Hhit.
  - exfalso. apply (noDocs_not_hasDoc fs p Hno). by apply (Hsound _ _ Hhit).
  - by eexists.
  - rewrite Hread.
    apply (scanEntries_noDocs fs p entries fuel); try done.
    intros e He Hd Hs l0 Hl0. apply (HK e He Hd Hs); [lia|done].
Qed.

(** A cached answer is given back without a directory read, by any later
    state of the loader. *)
Lemma HasMarkdownN_cached {uni : Unicode} fs fuel p b (l l'' : FSLoader) :
  cache l !! p = Some b -> cache l ⊆ cache l'' ->
  HasMarkdownN fs (S fuel) p l'' = Some (inr b, l'').
Proof. intros Hp Hsub. apply HasMarkdownN_hit. by eapply lookup_weaken. Qed.

Lemma HasMarkdownN_answered {uni : Unicode} fs fuel p l b l' :
  HasMarkdownN fs fuel p l = Some (inr b, l') ->
  exists visited,
    reads l' = (reads l ++ visited)%list /\
    cache l ⊆ cache l' /\
    cache l' !! p = Some b /\
    (forall q, In q visited ->
       exists b', cache l' !! q = Some b' /\
                  forall fuel' l'', cache l' ⊆ cache l'' ->
                    HasMarkdownN fs (S fuel') q l'' = Some (inr b', l'')).
Proof.
  intros Hcall.
  destruct (HasMarkdownN_outcome fs fuel _ _ _ _ Hcall)
    as ((visited & Hv & Hvis) & _ & Hc & _ & Hsub).
  exists visited. split; [done|]. split; [done|]. split; [by apply Hc|].
  intros q Hq. destruct (Hvis b eq_refl q Hq) as [b' Hb'].
  exists b'. split; [done|]. intros fuel' l'' Hl''. by eapply HasMarkdownN_cached.
Qed.

(** C2. Cache of [HasMarkdown]: for a directory [p] whose subtree holds no
    document (skip-list directories left out), the call returns false and
    leaves [p] cached as false, so that every later call for [p] returns
    false and leaves the loader as it is, the list of directory reads
    included; and a call that returns an answer keeps the entries the cache
    had and has written one for every directory it read, [p] among them, so
    that later calls for those are answered from the cache as well. *)
Theorem C2_hasMarkdown_false_is_cached {uni : Unicode} (fs : FileSystem) :
  (forall p l, noDocs fs p -> cacheSound fs (cache l) ->
     exists k, forall fuel, (k <= fuel)%nat ->
       exists l' visited,
         HasMarkdownN fs fuel p l = Some (inr false, l') /\
         reads l' = (reads l ++ visited)%list /\
         cache l ⊆ cache l' /\
         cache l' !! p = Some false /\
         (forall fuel' l'', cache l' ⊆ cache l'' ->
            HasMarkdownN fs (S fuel') p l'' = Some (inr false, l'')) /\
         (forall q, In q visited ->
            exists b, cache l' !! q = Some b /\
                      forall fuel' l'', cache l' ⊆ cache l'' ->
                        HasMarkdownN fs (S fuel') q l'' = Some (inr b, l''))) /\
  (forall fuel p l b l', HasMarkdownN fs fuel p l = Some (inr b, l') ->
     exists visited,
       reads l' = (reads l ++ visited)%list /\
       cache l ⊆ cache l' /\
       cache l' !! p = Some b /\
       (forall q, In q visited ->
          exists b', cache l' !! q = Some b' /\
                     forall fuel' l'', cache l' ⊆ cache l'' ->
                       HasMarkdownN fs (S fuel') q l'' = Some (inr b', l''))).
Proof.
  split.
  - intros p l Hno Hsound.
    destruct (HasMarkdownN_noDocs fs p Hno) as (k & Hk).
    exists k. intros fuel Hfuel.
    destruct (Hk fuel l Hfuel Hsound) as (l' & Hcall).
    destruct (HasMarkdownN_answered fs fuel p l false l' Hcall)
      as (visited & Hreads & Hsub & Hp & Hvis).
    exists l', visited. split; [done|]. split; [done|]. split; [done|]. split; [done|].
    split; [|done]. intros fuel' l'' Hl''. by eapply HasMarkdownN_cached.
  - apply HasMarkdownN_answered.
Qed.

(** With [notes.md] in [sub/], a first evaluation for [sub] finds it. *)
Example hasMarkdown_finds_notes :
  exists l', HasMarkdownN demoFS 1 "sub" NewFSLoader = Some (inr true, l') /\
             cache l' !! "sub" = Some true /\ reads l' = ["sub"].
Proof. eexists. split; [vm_compute; reflexivity|]. split; reflexivity. Qed.

Lemma C2_witness :
  (exists k, forall fuel, (k <= fuel)%nat ->
     exists l' visited,
       HasMarkdownN docsWithoutDocuments fuel "docs" NewFSLoader = Some (inr false, l') /\
       reads l' = (reads NewFSLoader ++ visited)%list /\
       cache NewFSLoader ⊆ cache l' /\
       cache l' !! "docs" = Some false /\
       (forall fuel' l'', cache l' ⊆ cache l'' ->
          HasMarkdownN docsWithoutDocuments (S fuel') "docs" l'' = Some (inr false, l'')) /\
       (forall q, In q visited ->
          exists b, cache l' !! q = Some b /\
                    forall fuel' l'', cache l' ⊆ cache l'' ->
                      HasMarkdownN docsWithoutDocuments (S fuel') q l'' = Some (inr b, l''))) /\
  (exists l', HasMarkdownN docsWithoutDocuments 2 "docs" NewFSLoader = Some (inr false, l') /\
              reads l' = ["docs"; "docs/sub"] /\
              cache l' !! "docs" = Some false /\ cache l' !! "docs/sub" = Some false /\
              HasMarkdownN docsWithoutDocuments 1 "docs" l' = Some (inr false, l')).
Proof.
  split.
  - apply (proj1 (C2_hasMarkdown_false_is_cached docsWithoutDocuments) "docs" NewFSLoader).
    + apply (noDocs_intro _ "docs" [mkEntry "sub" true]); [reflexivity| |].
      * intros e [<-|[]]. discriminate.
      * intros e [<-|[]] _ _.
        apply (noDocs_intro _ "docs/sub" [mkEntry "readme.txt" false]); [reflexivity| |].
        -- intros e [<-|[]] _. reflexivity.
        -- intros e [<-|[]]. discriminate.
    + intros q b. simpl. rewrite lookup_empty. discriminate.
  - eexists. split; [vm_compute; reflexivity|]. split; [reflexivity|].
    split; [reflexivity|]. split; reflexivity.
Defined.

(** ** Strings *)

Lemma lowerASCII_length s : String.length (lowerASCII s) = String.length s.
Proof. induction s as [|c s IH]; simpl; congruence. Qed.

(** On ASCII text [strings.ToLower] works byte by byte and keeps the length. *)
Lemma ToLower_ascii {uni : Unicode} s : isASCII s = true -> ToLower s = lowerASCII s.
Proof. unfold ToLower. by intros ->. Qed.

Lemma ToLower_length {uni : Unicode} s :
  isASCII s = true -> String.length (ToLower s) = String.length s.
Proof. intros Hs. rewrite ToLower_ascii by done. apply lowerASCII_length. Qed.

Lemma dropBytes_length n s : String.length (dropBytes n s) = (String.length s - n)%nat.
Proof.
  revert s. induction n as [|n IH]; intros [|c s]; simpl; auto; lia.
Qed.

Lemma takeBytes_length n s : (String.length (takeBytes n s) <= String.length s)%nat.
Proof.
  revert s. induction n as [|n IH]; intros [|c s]; simpl; auto; try lia.
  specialize (IH s). lia.
Qed.

Lemma dropBytes_dropBytes a b s : dropBytes a (dropBytes b s) = dropBytes (b + a) s.
Proof.
  revert s. induction b as [|b IH]; intros s; simpl; [done|].
  destruct s as [|c s]; [by destruct a|]. apply IH.
Qed.

Lemma prefix_length q s : String.prefix q s = true -> (String.length q <= String.length s)%nat.
Proof.
  revert s. induction q as [|c q IH]; intros [|d s]; simpl; try done; try lia.
  destruct (ascii_dec c d); [|done]. intros Hp. specialize (IH s Hp). lia.
Qed.

Lemma CountNewlines_bounds s : 0 <= CountNewlines s <= len s.
Proof.
  unfold len. induction s as [|c s IH]; simpl String.length; simpl CountNewlines; [lia|].
  destruct (Ascii.eqb c newline); lia.
Qed.

Lemma occursAt_zero s q : occursAt s q 0 <-> HasPrefix s q = true.
Proof.
  unfold occursAt. simpl. split; [by intros [_ ?]|].
  intros Hp. split; [|done]. by apply prefix_length.
Qed.

Lemma occursAt_succ c s q p : occursAt (String c s) q (S p) <-> occursAt s q p.
Proof. unfold occursAt. simpl. split; intros [? ?]; (split; [lia|done]). Qed.

Lemma occursAt_drop s q off p :
  (off <= String.length s)%nat ->
  occursAt (dropBytes off s) q p <-> occursAt s q (off + p).
Proof.
  intros Hoff. unfold occursAt. rewrite dropBytes_dropBytes, dropBytes_length.
  split; intros [? ?]; (split; [lia|done]).
Qed.

Lemma Index_nil q : Index EmptyString q = if HasPrefix EmptyString q then 0 else -1.
Proof. reflexivity. Qed.

Lemma Index_cons c s q :
  Index (String c s) q =
  if HasPrefix (String c s) q then 0
  else if Index s q <? 0 then -1 else Index s q + 1.
Proof. reflexivity. Qed.

(** [strings.Index] gives the first occurrence, and -1 only when there is none. *)
Lemma Index_spec s q :
  (Index s q = -1 /\ forall p, ~ occursAt s q p) \/
  (exists i : nat, Index s q = Z.of_nat i /\ occursAt s q i /\
                   forall p, (p < i)%nat -> ~ occursAt s q p).
Proof.
  induction s as [|c s IH]; [rewrite Index_nil|rewrite Index_cons].
  - destruct (HasPrefix EmptyString q) eqn:Hp.
    + right. exists 0%nat. split; [done|]. split; [by apply occursAt_zero|]. intros p; lia.
    + left. split; [done|]. intros p [Hlen Hpre].
      assert (q = EmptyString) as -> by (destruct q; [done|simpl in Hlen; lia]).
      discriminate.
  - destruct (HasPrefix (String c s) q) eqn:Hp.
    + right. exists 0%nat. split; [done|]. split; [by apply occursAt_zero|]. intros p; lia.
    + destruct IH as [[Hi Hnone]|(i & Hi & Hocc & Hfirst)]; rewrite Hi.
      * left. split; [done|]. intros [|p].
        -- rewrite occursAt_zero. congruence.
        -- rewrite occursAt_succ. apply Hnone.
      * right. exists (S i).
        destruct (Z.ltb_spec (Z.of_nat i) 0) as [?|_]; [lia|].
        split; [lia|]. split; [by apply occursAt_succ|].
        intros [|p] Hlt.
        -- rewrite occursAt_zero. congruence.
        -- rewrite occursAt_succ. apply Hfirst. lia.
Qed.

Lemma TrimSpace_idem {uni : Unicode} s : TrimSpace (TrimSpace s) = TrimSpace s.
Proof. apply trimSpaceRunes_idem. Qed.

(** ** The scan of findSearchMatches *)

Lemma scanFrom_from s q from ps : scanFrom s q from ps -> Forall (fun p => (from <= p)%nat) ps.
Proof.
  induction 1 as [|from p ps Hle Hocc Hfirst Hrest IH]; constructor; [done|].
  eapply Forall_impl; [exact IH|]. simpl. intros; lia.
Qed.

(** The occurrences a scan reports do not overlap. *)
Lemma scanFrom_apart s q from ps :
  scanFrom s q from ps ->
  StronglySorted (fun p p' => (p + String.length q <= p')%nat) ps.
Proof.
  induction 1 as [|from p ps Hle Hocc Hfirst Hrest IH]; constructor; [done|].
  by apply scanFrom_from in Hrest.
Qed.

Lemma scanFrom_occurs s q from ps : scanFrom s q from ps -> Forall (occursAt s q) ps.
Proof. induction 1; constructor; done. Qed.

(** The loop of [findSearchMatches] follows the scan of the lowered content
    and takes the line of each offset from the stripped content.  It returns
    when every offset it finds lies within the stripped content; an offset
    past the end of the stripped content is a slice out of range. *)
Lemma searchLoop_follows_scan stripped lowerContent lowerQuery :
  lowerQuery <> EmptyString ->
  forall fuel offset matches,
    (offset <= String.length lowerContent)%nat ->
    (String.length lowerContent - offset < fuel)%nat ->
    exists ps,
      scanFrom lowerContent lowerQuery offset ps /\
      ((Forall (fun p => (p <= String.length stripped)%nat) ps /\
        searchLoop fuel stripped lowerContent lowerQuery matches (Z.of_nat offset)
        = Some (matches ++ map (lineOf stripped) ps)%list) \/
       (Exists (fun p => (String.length stripped < p)%nat) ps /\
        searchLoop fuel stripped lowerContent lowerQuery matches (Z.of_nat offset) = None)).
Proof.
  intros Hq.
  assert (1 <= String.length lowerQuery)%nat as Hq1.
  { destruct lowerQuery; [done|simpl; lia]. }
  induction fuel as [|fuel IH]; intros offset matches Hoff Hfuel; [lia|].
  simpl. unfold sliceFrom, len.
  replace ((0 <=? Z.of_nat offset) && (Z.of_nat offset <=? Z.of_nat (String.length lowerContent)))
    with true by (symmetry; apply andb_true_iff; split; apply Z.leb_le; lia).
  simpl. rewrite Nat2Z.id.
  destruct (Index_spec (dropBytes offset lowerContent) lowerQuery)
    as [[Hi Hnone]|(i & Hi & Hocc & Hfirst)]; rewrite Hi.
  - exists []. simpl. rewrite app_nil_r. split; [|by left].
    constructor. intros p Hp Hoccp.
    apply (Hnone (p - offset)%nat). apply occursAt_drop; [done|].
    by replace (offset + (p - offset))%nat with p by lia.
  - apply occursAt_drop in Hocc; [|done].
    destruct (Z.eqb_spec (Z.of_nat i) (-1)) as [?|_]; [lia|].
    pose proof Hocc as [Hbound _].
    replace (Z.of_nat offset + Z.of_nat i + Z.of_nat (String.length lowerQuery))
      with (Z.of_nat (offset + i + String.length lowerQuery)) by lia.
    assert (forall ps, scanFrom lowerContent lowerQuery (offset + i + String.length lowerQuery) ps ->
                       scanFrom lowerContent lowerQuery offset ((offset + i)%nat :: ps)) as Hhit.
    { intros ps Hscan. apply scanFrom_hit; [lia|done| |done].
      intros p' [Hp1 Hp2] Hoccp.
      apply (Hfirst (p' - offset)%nat); [lia|]. apply occursAt_drop; [done|].
      by replace (offset + (p' - offset))%nat with p' by lia. }
    unfold sliceTo, len.
    destruct (Nat.le_gt_cases (offset + i) (String.length stripped)) as [Hin|Hout].
    + replace ((0 <=? Z.of_nat offset + Z.of_nat i)
               && (Z.of_nat offset + Z.of_nat i <=? Z.of_nat (String.length stripped)))
        with true by (symmetry; apply andb_true_iff; split; apply Z.leb_le; lia).
      simpl.
      destruct (IH (offset + i + String.length lowerQuery)%nat
                   (matches ++ [CountNewlines (takeBytes (Z.to_nat (Z.of_nat offset + Z.of_nat i))
                                                         stripped)])%list)
        as (ps & Hscan & Hloop); [lia|lia|].
      exists ((offset + i)%nat :: ps). split; [by apply Hhit|].
      destruct Hloop as [[Hall Hloop]|[Hex Hloop]]; [left|right].
      * split; [by constructor|]. rewrite Hloop. rewrite <- app_assoc. simpl. unfold lineOf.
        by replace (Z.to_nat (Z.of_nat offset + Z.of_nat i)) with (offset + i)%nat by lia.
      * split; [by apply Exists_cons_tl|done].
    + replace ((0 <=? Z.of_nat offset + Z.of_nat i)
               && (Z.of_nat offset + Z.of_nat i <=? Z.of_nat (String.length stripped)))
        with false
        by (symmetry; apply andb_false_iff; right; apply Z.leb_gt; lia).
      simpl.
      destruct (IH (offset + i + String.length lowerQuery)%nat matches)
        as (ps & Hscan & _); [lia|lia|].
      exists ((offset + i)%nat :: ps). split; [by apply Hhit|].
      right. split; [by apply Exists_cons_hd|done].
Qed.

Lemma scanFrom_within s q from ps :
  scanFrom s q from ps -> Forall (fun p => (p + String.length q <= String.length s)%nat) ps.
Proof.
  intros Hscan. apply scanFrom_occurs in Hscan.
  eapply Forall_impl; [exact Hscan|]. by intros p [? _].
Qed.

(** When the lowered content is not longer than the stripped one, every
    offset lies within the stripped content. *)
Lemma searchLoop_scan stripped lowerContent lowerQuery :
  (String.length lowerContent <= String.length stripped)%nat ->
  lowerQuery <> EmptyString ->
  forall fuel offset matches,
    (offset <= String.length lowerContent)%nat ->
    (String.length lowerContent - offset < fuel)%nat ->
    exists ps,
      scanFrom lowerContent lowerQuery offset ps /\
      searchLoop fuel stripped lowerContent lowerQuery matches (Z.of_nat offset)
      = Some (matches ++ map (lineOf stripped) ps)%list.
Proof.
  intros Hlen Hq fuel offset matches Hoff Hfuel.
  destruct (searchLoop_follows_scan stripped lowerContent lowerQuery Hq fuel offset matches
              Hoff Hfuel) as (ps & Hscan & [[_ Hloop]|[Hex _]]).
  - by exists ps.
  - apply scanFrom_within in Hscan. apply Exists_exists in Hex as (p & Hp & Hgt).
    rewrite Forall_forall in Hscan. specialize (Hscan p Hp). lia.
Qed.

(** The offsets are those of the lowered content, the lines are counted in
    the stripped content.  [strings.ToLower] keeps the length of ASCII text;
    for some letters outside ASCII it changes the number of bytes, and the
    offsets found in the lowered text then no longer fit the stripped text.
    The Kelvin sign (E2 84 AA) is lowered to [k]: for the stripped text of
    the Kelvin sign, a newline and [k], the loop reports line 0 for the [k] of
    the second line. *)
Example searchLoop_lowered_text_shorter :
  searchLoop 10 (bytes [226; 132; 170; 10; 107]) (bytes [107; 10; 107]) "k" [] 0
  = Some [0; 0].
Proof. reflexivity. Qed.

(** The letter C8 BA is lowered to E2 B1 A5, one byte more: after two of them
    the offset of [x] in the lowered text lies past the end of the stripped
    text, and the slice expression panics. *)
Example searchLoop_lowered_text_longer :
  searchLoop 10 (bytes [200; 186; 200; 186; 120])
             (bytes [226; 177; 165; 226; 177; 165; 120]) "x" [] 0
  = None.
Proof. reflexivity. Qed.

Section Search.
Context {collab : Collaborators} {uni : Unicode}.

Lemma ToLower_nonempty s : ToLower s = EmptyString -> s = EmptyString.
Proof.
  unfold ToLower. destruct (isASCII s); [|apply lowerRunes_nonempty].
  by destruct s.
Qed.

(** For a query and content that are not empty, [findSearchMatches] follows
    the scan of the lowered stripped content from the start. *)
Lemma findSearchMatches_follows_scan content query :
  TrimSpace query <> EmptyString -> content <> EmptyString ->
  exists ps,
    scanFrom (ToLower (ansiStrip content)) (ToLower (TrimSpace query)) 0 ps /\
    ((Forall (fun p => (p <= String.length (ansiStrip content))%nat) ps /\
      findSearchMatches content query = Some (map (lineOf (ansiStrip content)) ps)) \/
     (Exists (fun p => (String.length (ansiStrip content) < p)%nat) ps /\
      findSearchMatches content query = None)).
Proof.
  intros Hq Hc. unfold findSearchMatches.
  destruct (String.eqb_spec (TrimSpace query) EmptyString) as [?|_]; [done|].
  destruct (String.eqb_spec content EmptyString) as [?|_]; [done|].
  simpl orb. cbv iota.
  apply (searchLoop_follows_scan (ansiStrip content) (ToLower (ansiStrip content))
           (ToLower (TrimSpace query))) with
    (fuel := S (String.length (ToLower (ansiStrip content)))) (offset := 0%nat)
    (matches := @nil Z); try lia.
  intros Hl. by apply Hq, ToLower_nonempty.
Qed.

(** [findSearchMatches] returns when lowering does not make the stripped
    content longer, as on ASCII text. *)
Lemma findSearchMatches_scan content query :
  (String.length (ToLower (ansiStrip content)) <= String.length (ansiStrip content))%nat ->
  TrimSpace query <> EmptyString -> content <> EmptyString ->
  exists ps,
    scanFrom (ToLower (ansiStrip content)) (ToLower (TrimSpace query)) 0 ps /\
    findSearchMatches content query = Some (map (lineOf (ansiStrip content)) ps).
Proof.
  intros Hlen Hq Hc.
  destruct (findSearchMatches_follows_scan content query Hq Hc)
    as (ps & Hscan & [[_ Hms]|[Hex _]]).
  - by exists ps.
  - apply scanFrom_within in Hscan. apply Exists_exists in Hex as (p & Hp & Hgt).
    rewrite Forall_forall in Hscan. specialize (Hscan p Hp). lia.
Qed.

Lemma findSearchMatches_empty content query :
  TrimSpace query = EmptyString \/ content = EmptyString ->
  findSearchMatches content query = Some [].
Proof.
  unfold findSearchMatches. intros [->| ->]; [done|].
  by destruct (String.eqb (TrimSpace query) EmptyString).
Qed.

Lemma findSearchMatches_returns content query :
  (String.length (ToLower (ansiStrip content)) <= String.length (ansiStrip content))%nat ->
  exists ms, findSearchMatches content query = Some ms.
Proof.
  intros Hlen.
  destruct (String.eqb_spec (TrimSpace query) EmptyString) as [Hq|Hq].
  { exists []. apply findSearchMatches_empty. by left. }
  destruct (String.eqb_spec content EmptyString) as [Hc|Hc].
  { exists []. apply findSearchMatches_empty. by right. }
  destruct (findSearchMatches_scan content query Hlen Hq Hc) as (ps & _ & ->). by eexists.
Qed.

Lemma lineOf_isLine stripped p : len stripped < GoInt.two63 -> isLine (lineOf stripped p).
Proof.
  intros Hlen. unfold isLine, lineOf.
  pose proof (CountNewlines_bounds (takeBytes p stripped)) as Hb.
  pose proof (takeBytes_length p stripped). unfold len in *. lia.
Qed.

Lemma findSearchMatches_lines content query ms :
  len (ansiStrip content) < GoInt.two63 ->
  findSearchMatches content query = Some ms -> Forall isLine ms.
Proof.
  intros Hlen Hms.
  destruct (String.eqb_spec (TrimSpace query) EmptyString) as [Hq|Hq].
  { rewrite findSearchMatches_empty in Hms by (by left). by inversion Hms. }
  destruct (String.eqb_spec content EmptyString) as [Hc|Hc].
  { rewrite findSearchMatches_empty in Hms by (by right). by inversion Hms. }
  destruct (findSearchMatches_follows_scan content query Hq Hc)
    as (ps & _ & [[_ Hps]|[_ Hps]]); rewrite Hps in Hms; [|done].
  inversion Hms; subst.
  apply Forall_map, Forall_forall. intros p _. by apply lineOf_isLine.
Qed.

Lemma findSearchMatches_trimmed content query :
  findSearchMatches content (TrimSpace query) = findSearchMatches content query.
Proof. unfold findSearchMatches. by rewrite TrimSpace_idem. Qed.

End Search.

(** ** Search in the model *)

Section Model.
Context {VP : Type} {viewport : Viewport VP} {collab : Collaborators} {uni : Unicode}.

Lemma setContentVP_same (m : Model VP) : setContentVP m (contentVP m) = m.
Proof. by destruct m. Qed.

(** [gotoSearchMatch] only moves the viewport, and it returns whenever the
    index is below the number of matches. *)
Lemma gotoSearchMatch_moves (m : Model VP) :
  searchIndex m < lenMatches m \/ lenMatches m = 0 ->
  exists v, gotoSearchMatch m = Some (setContentVP m v).
Proof.
  intros Hidx. unfold gotoSearchMatch.
  destruct (Z.eqb_spec (lenMatches m) 0) as [Hz|Hnz]; simpl.
  { exists (contentVP m). by rewrite setContentVP_same. }
  destruct (Z.ltb_spec (searchIndex m) 0) as [Hneg|Hpos]; simpl.
  { exists (contentVP m). by rewrite setContentVP_same. }
  destruct (CountNewlines (renderedContent m) + 1 <=? 0).
  { exists (contentVP m). by rewrite setContentVP_same. }
  destruct (searchMatches m !! Z.to_nat (searchIndex m)) as [targetLine|] eqn:Hlook; simpl.
  - by eexists.
  - apply lookup_ge_None in Hlook. unfold lenMatches in *. lia.
Qed.

Lemma nextSearchMatch_cycles (m : Model VP) :
  0 <= searchIndex m < lenMatches m ->
  exists v, nextSearchMatch m =
    Some (setContentVP (setErr (setSearchIndex m ((searchIndex m + 1) mod lenMatches m)) None) v).
Proof.
  intros Hidx. unfold nextSearchMatch.
  destruct (Z.eqb_spec (lenMatches m) 0) as [?|_]; [lia|].
  destruct (Z.ltb_spec (searchIndex m) 0) as [?|_]; [lia|].
  rewrite Z.rem_mod_nonneg by lia.
  apply gotoSearchMatch_moves. left. simpl.
  change (lenMatches (setErr (setSearchIndex m _) None)) with (lenMatches m).
  apply Z.mod_pos_bound. lia.
Qed.

Lemma previousSearchMatch_cycles (m : Model VP) :
  0 <= searchIndex m < lenMatches m ->
  exists v, previousSearchMatch m =
    Some (setContentVP (setErr (setSearchIndex m ((searchIndex m - 1) mod lenMatches m)) None) v).
Proof.
  intros Hidx. unfold previousSearchMatch.
  destruct (Z.eqb_spec (lenMatches m) 0) as [?|_]; [lia|].
  destruct (Z.leb_spec (searchIndex m) 0) as [Hz|Hpos].
  - assert (searchIndex m = 0) as Hi by lia. rewrite Hi.
    replace ((0 - 1) mod lenMatches m) with (lenMatches m - 1).
    2:{ apply Z.mod_unique with (q := -1); lia. }
    apply gotoSearchMatch_moves. left. simpl.
    change (lenMatches (setErr (setSearchIndex m _) None)) with (lenMatches m). lia.
  - rewrite Z.mod_small by lia.
    apply gotoSearchMatch_moves. left. simpl.
    change (lenMatches (setErr (setSearchIndex m _) None)) with (lenMatches m). lia.
Qed.

Lemma searchMatches_nil_len (m : Model VP) : searchMatches m = [] -> lenMatches m = 0.
Proof. unfold lenMatches. by intros ->. Qed.

End Model.

(** C10. The offsets of the matches are found in the lowered content and
    used on the stripped content.  [strings.ToLower] turns the Kelvin sign
    (three bytes) into [k] (one byte): in the content of the Kelvin sign, a
    newline and [k], the query [k] is found at the offsets 0 and 2 of the
    lowered content, and both are reported on line 0, although the [k] of the
    content stands behind the newline, on line 1.  The letter U+023A (two
    bytes) becomes U+2C65 (three bytes): in the content of two of them and
    [x], the [x] is found at offset 6 of the lowered content, the stripped
    content has 5 bytes, and the slice panics. *)
Theorem C10_offsets_of_the_lowered_content :
  ToLower kelvinText = bytes [107; 10; 107] /\
  scanFrom (ToLower kelvinText) "k" 0 [0%nat; 2%nat] /\
  findSearchMatches (collab := plainCollaborators) kelvinText "k" = Some [0; 0] /\
  Index kelvinText "k" = 4 /\ CountNewlines (takeBytes 4 kelvinText) = 1 /\
  ToLower strokeText = bytes [226; 177; 165; 226; 177; 165; 120] /\
  Index (ToLower strokeText) "x" = 6 /\ len strokeText = 5 /\
  findSearchMatches (collab := plainCollaborators) strokeText "x" = None.
Proof.
  split; [reflexivity|]. split.
  { replace (ToLower kelvinText) with (String "k" (String newline (String "k" EmptyString)))
      by reflexivity.
    apply (scanFrom_hit _ _ 0 0); [lia|split; [simpl; lia|reflexivity]|intros p' Hp'; lia|].
    apply (scanFrom_hit _ _ 1 2); [lia|split; [simpl; lia|reflexivity]| |].
    - intros p' Hp' [_ Hocc]. assert (p' = 1%nat) as -> by lia. discriminate.
    - apply scanFrom_done. intros p Hp [Hlen _]. simpl in Hlen, Hp. lia. }
  repeat split; reflexivity.
Qed.

(** C5. Search and cyclic navigation: in the stripped text of the scenario the
    query [hello] is found on the lines 0, 0 and 1; from index 0 [Next] goes to
    1, then to 2, then back to 0; in general [Next] and [Previous] step
    through the matches cyclically, and both leave the model as it is when
    there are no matches. *)
Theorem C5_search_and_cyclic_navigation {uni : Unicode} (VP : Type) (viewport : Viewport VP)
  (collab : Collaborators) :
  (forall content, content <> EmptyString -> ansiStrip content = helloText ->
     findSearchMatches content "hello" = Some [0; 0; 1]) /\
  (forall m : Model VP, searchMatches m = [0; 0; 1] -> searchIndex m = 0 ->
     exists m1 m2 m3,
       nextSearchMatch m = Some m1 /\ searchIndex m1 = 1 /\
       nextSearchMatch m1 = Some m2 /\ searchIndex m2 = 2 /\
       nextSearchMatch m2 = Some m3 /\ searchIndex m3 = 0 /\
       searchMatches m3 = [0; 0; 1]) /\
  (forall m : Model VP, 0 <= searchIndex m < lenMatches m ->
     exists m1 m2,
       nextSearchMatch m = Some m1 /\
       searchIndex m1 = (searchIndex m + 1) mod lenMatches m /\
       searchMatches m1 = searchMatches m /\
       previousSearchMatch m = Some m2 /\
       searchIndex m2 = (searchIndex m - 1) mod lenMatches m /\
       searchMatches m2 = searchMatches m) /\
  (forall m : Model VP, searchMatches m = [] ->
     nextSearchMatch m = Some m /\ previousSearchMatch m = Some m).
Proof.
  split; [|split; [|split]].
  - intros content Hne Hstrip. unfold findSearchMatches.
    destruct (String.eqb_spec content EmptyString) as [?|_]; [done|].
    rewrite Hstrip. reflexivity.
  - assert (forall (m : Model VP) i, searchMatches m = [0; 0; 1] -> 0 <= i < 3 ->
              searchIndex m = i ->
              exists m', nextSearchMatch m = Some m' /\ searchIndex m' = (i + 1) mod 3 /\
                         searchMatches m' = [0; 0; 1]) as Hstep.
    { intros m i Hms Hi Hidx.
      destruct (nextSearchMatch_cycles m) as (v & Hv).
      { unfold lenMatches. rewrite Hms, Hidx. simpl. lia. }
      eexists. split; [exact Hv|]. simpl. unfold lenMatches. by rewrite Hms, Hidx. }
    intros m Hms Hi.
    destruct (Hstep m 0 Hms ltac:(lia) Hi) as (m1 & H1 & Hi1 & Hms1).
    destruct (Hstep m1 1 Hms1 ltac:(lia) Hi1) as (m2 & H2 & Hi2 & Hms2).
    destruct (Hstep m2 2 Hms2 ltac:(lia) Hi2) as (m3 & H3 & Hi3 & Hms3).
    by exists m1, m2, m3.
  - intros m Hidx.
    destruct (nextSearchMatch_cycles m Hidx) as (v1 & H1).
    destruct (previousSearchMatch_cycles m Hidx) as (v2 & H2).
    eexists _, _. split; [exact H1|]. split; [done|]. split; [done|].
    split; [exact H2|]. done.
  - intros m Hms. apply searchMatches_nil_len in Hms.
    unfold nextSearchMatch, previousSearchMatch. by rewrite Hms.
Qed.

Lemma C5_witness :
  findSearchMatches (collab := plainCollaborators) helloText "hello" = Some [0; 0; 1] /\
  (exists m1 m2 m3,
     nextSearchMatch helloModel = Some m1 /\ searchIndex m1 = 1 /\
     nextSearchMatch m1 = Some m2 /\ searchIndex m2 = 2 /\
     nextSearchMatch m2 = Some m3 /\ searchIndex m3 = 0 /\
     searchMatches m3 = [0; 0; 1]) /\
  (nextSearchMatch (setSearchMatches helloModel []) = Some (setSearchMatches helloModel []) /\
   previousSearchMatch (setSearchMatches helloModel []) = Some (setSearchMatches helloModel [])).
Proof.
  pose proof (C5_search_and_cyclic_navigation PlainViewport plainViewport plainCollaborators)
    as (Hfind & Hnext & _ & Hempty).
  split; [|split].
  - apply (Hfind helloText); [discriminate|reflexivity].
  - apply (Hnext helloModel); reflexivity.
  - apply (Hempty (setSearchMatches helloModel [])). reflexivity.
Defined.

(** ** Reconciliation after a change of the content *)

Lemma closestLoop_spec line rest :
  isLine line ->
  forall pre bestIndex bestDiff mb,
    Forall isLine (pre ++ rest) ->
    pre !! bestIndex = Some mb ->
    bestDiff = Z.abs (mb - line) ->
    (forall j mj, pre !! j = Some mj -> Z.abs (mb - line) <= Z.abs (mj - line)) ->
    (forall j mj, (j < bestIndex)%nat -> pre !! j = Some mj ->
                  Z.abs (mb - line) < Z.abs (mj - line)) ->
    closestIn (pre ++ rest) line
      (closestLoop rest line (Z.of_nat (length pre)) (Z.of_nat bestIndex) bestDiff).
Proof.
  intros Hline. induction rest as [|mi rest IH];
    intros pre bestIndex bestDiff mb Hall Hbest Hdiff Hmin Hfirst; simpl.
  - rewrite app_nil_r. exists mb. rewrite Nat2Z.id. split; [lia|]. done.
  - assert (isLine mi) as Hmi.
    { apply Forall_app in Hall as [_ Hall]. by apply Forall_cons in Hall as [? _]. }
    rewrite (absInt_lines mi line Hmi Hline).
    replace (Z.of_nat (length pre) + 1) with (Z.of_nat (length (pre ++ [mi]))) 
      by (rewrite length_app; simpl; lia).
    replace (pre ++ mi :: rest)%list with ((pre ++ [mi]) ++ rest)%list
      by (by rewrite <- app_assoc).
    assert (Forall isLine ((pre ++ [mi]) ++ rest)) as Hall'
      by (by rewrite <- app_assoc).
    assert (forall j mj, (pre ++ [mi])%list !! j = Some mj ->
              pre !! j = Some mj \/ (j = length pre /\ mj = mi)) as Hsplit.
    { intros j mj Hj. apply lookup_app_Some in Hj as [Hj|[Hge Hj]]; [by left|right].
      destruct (j - length pre)%nat as [|k] eqn:Hk; simpl in Hj; [|done].
      split; [lia|congruence]. }
    destruct (Z.ltb_spec (Z.abs (mi - line)) bestDiff) as [Hlt|Hge].
    + apply (IH (pre ++ [mi])%list (length pre) _ mi Hall').
      * rewrite lookup_app_r by lia. by rewrite Nat.sub_diag.
      * done.
      * intros j mj Hj. apply Hsplit in Hj as [Hj|[_ ->]]; [|lia].
        specialize (Hmin j mj Hj). lia.
      * intros j mj Hlt' Hj. apply Hsplit in Hj as [Hj|[? _]]; [|lia].
        specialize (Hmin j mj Hj). lia.
    + apply (IH (pre ++ [mi])%list bestIndex _ mb Hall').
      * apply lookup_app_l_Some. done.
      * done.
      * intros j mj Hj. apply Hsplit in Hj as [Hj|[_ ->]]; [by apply (Hmin j)|lia].
      * intros j mj Hlt' Hj. apply Hsplit in Hj as [Hj|[-> _]]; [by apply (Hfirst j)|].
        apply lookup_lt_Some in Hbest. lia.
Qed.

Lemma closestMatchIndex_spec matches line :
  matches <> [] -> Forall isLine matches -> isLine line ->
  closestIn matches line (closestMatchIndex matches line).
Proof.
  destruct matches as [|m0 rest]; [done|]. intros _ Hall Hline. simpl.
  assert (isLine m0) as Hm0 by (by apply Forall_cons in Hall as [? _]).
  rewrite (absInt_lines m0 line Hm0 Hline).
  apply (closestLoop_spec line rest Hline [m0] 0%nat _ m0); try done.
  - intros [|j] mj; simpl; [intros [= <-]; lia|done].
  - intros j mj Hj. lia.
Qed.

Lemma closestLoop_range rest line i bestIndex bestDiff :
  0 <= bestIndex < i ->
  0 <= closestLoop rest line i bestIndex bestDiff < i + Z.of_nat (length rest).
Proof.
  revert i bestIndex bestDiff. induction rest as [|mi rest IH];
    intros i bestIndex bestDiff Hb; simpl; [lia|].
  destruct (absInt (GoInt.sub mi line) <? bestDiff).
  - specialize (IH (i + 1) i (absInt (GoInt.sub mi line))). lia.
  - specialize (IH (i + 1) bestIndex bestDiff). lia.
Qed.

Lemma closestMatchIndex_range matches line :
  matches <> [] -> 0 <= closestMatchIndex matches line < Z.of_nat (length matches).
Proof.
  destruct matches as [|m0 rest]; [done|]. intros _. simpl closestMatchIndex.
  pose proof (closestLoop_range rest line 1 0 (absInt (GoInt.sub m0 line))).
  simpl length. lia.
Qed.

Section Reconcile.
Context {VP : Type} {viewport : Viewport VP} {collab : Collaborators} {uni : Unicode}.

Lemma prevLineOf_some (m : Model VP) : exists prevLine, prevLineOf m = Some prevLine.
Proof.
  unfold prevLineOf.
  destruct (Z.gtb_spec (lenMatches m) 0); simpl; [|by eexists].
  destruct (Z.geb_spec (searchIndex m) 0); simpl; [|by eexists].
  destruct (Z.ltb_spec (searchIndex m) (lenMatches m)); simpl; [|by eexists].
  destruct (searchMatches m !! Z.to_nat (searchIndex m)) eqn:Hlook; [by eexists|].
  apply lookup_ge_None in Hlook. unfold lenMatches in *. lia.
Qed.

Lemma prevLineOf_known (m : Model VP) prevLine :
  0 <= searchIndex m -> searchMatches m !! Z.to_nat (searchIndex m) = Some prevLine ->
  prevLineOf m = Some prevLine.
Proof.
  intros Hidx Hlook. unfold prevLineOf.
  apply lookup_lt_Some in Hlook as Hlt. unfold lenMatches.
  destruct (Z.gtb_spec (Z.of_nat (length (searchMatches m))) 0); [|lia].
  destruct (Z.geb_spec (searchIndex m) 0); [|lia].
  destruct (Z.ltb_spec (searchIndex m) (Z.of_nat (length (searchMatches m)))); [|lia].
  done.
Qed.

Lemma reconciledIndex_range (m : Model VP) prevLine matches :
  matches <> [] -> 0 <= reconciledIndex m prevLine matches < Z.of_nat (length matches).
Proof.
  intros Hne. unfold reconciledIndex.
  destruct (prevLine >=? 0); [by apply closestMatchIndex_range|].
  destruct (Z.ltb_spec (searchIndex m) 0); simpl.
  { destruct matches; [done|simpl; lia]. }
  destruct (Z.geb_spec (searchIndex m) (Z.of_nat (length matches))); simpl; [|lia].
  destruct matches; [done|simpl; lia].
Qed.

(** [onContentChanged] step by step: nothing without a query; the no-match
    state when the new search finds nothing; the new matches with the
    reconciled index, the error cleared and the viewport moved, when it finds
    some; and no return when the search does not return. *)
Lemma onContentChanged_cases (m : Model VP) :
  (searchQuery m = EmptyString /\ onContentChanged m = Some m) \/
  (searchQuery m <> EmptyString /\
   findSearchMatches (renderedContent m) (searchQuery m) = Some [] /\
   onContentChanged m =
     Some (setErr (setSearchIndex (setSearchMatches m []) (-1))
                  (Some (errNoMatch (searchQuery m))))) \/
  (exists prevLine matches v,
     searchQuery m <> EmptyString /\
     prevLineOf m = Some prevLine /\
     findSearchMatches (renderedContent m) (searchQuery m) = Some matches /\
     matches <> [] /\
     onContentChanged m =
       Some (setContentVP
               (setErr (setSearchIndex (setSearchMatches m matches)
                                       (reconciledIndex m prevLine matches)) None) v)) \/
  (searchQuery m <> EmptyString /\
   findSearchMatches (renderedContent m) (searchQuery m) = None /\
   onContentChanged m = None).
Proof.
  unfold onContentChanged.
  destruct (String.eqb_spec (searchQuery m) EmptyString) as [Hq|Hq]; [by left|right].
  destruct (prevLineOf_some m) as (prevLine & Hprev).
  unfold prevLineOf in Hprev. rewrite Hprev. simpl.
  destruct (findSearchMatches (renderedContent m) (searchQuery m)) as [matches|] eqn:Hms;
    [|by right; right].
  simpl.
  destruct matches as [|m0 rest].
  { left. done. }
  right. left. exists prevLine, (m0 :: rest).
  change (lenMatches (setSearchMatches m (m0 :: rest)) =? 0) with (Z.of_nat (S (length rest)) =? 0).
  destruct (Z.eqb_spec (Z.of_nat (S (length rest))) 0) as [?|_]; [lia|].
  pose proof (reconciledIndex_range m prevLine (m0 :: rest) ltac:(done)) as Hrange.
  unfold reconciledIndex in *.
  change (searchMatches (setSearchMatches m (m0 :: rest))) with (m0 :: rest).
  change (searchIndex (setSearchMatches m (m0 :: rest))) with (searchIndex m).
  change (lenMatches (setSearchMatches m (m0 :: rest))) with (Z.of_nat (length (m0 :: rest))).
  match goal with
  | |- context [gotoSearchMatch ?x] =>
      destruct (gotoSearchMatch_moves x) as (v & Hv)
  end.
  { left. destruct (prevLine >=? 0); [exact (proj2 Hrange)|].
    destruct ((searchIndex m <? 0) || (searchIndex m >=? Z.of_nat (length (m0 :: rest))));
      exact (proj2 Hrange). }
  exists v. split; [done|]. split; [done|]. split; [done|]. split; [done|].
  rewrite Hv. f_equal.
  destruct (prevLine >=? 0); [done|].
  by destruct ((searchIndex m <? 0) || (searchIndex m >=? Z.of_nat (length (m0 :: rest)))).
Qed.

(** [onContentChanged] returns exactly when its search does, and always
    without a query. *)
Lemma onContentChanged_returns (m : Model VP) :
  (exists m', onContentChanged m = Some m') <->
  (searchQuery m = EmptyString \/
   exists ms, findSearchMatches (renderedContent m) (searchQuery m) = Some ms).
Proof.
  destruct (onContentChanged_cases m)
    as [[Hq H]|[(_ & Hms & H)|[(? & ms & ? & _ & _ & Hms & _ & H)|(Hq & Hms & H)]]].
  - split; [by left|by eexists].
  - split; [right; by eexists|by eexists].
  - split; [right; by eexists|by eexists].
  - rewrite H, Hms. split; [by intros [? ?]|]. intros [?|[? ?]]; done.
Qed.

End Reconcile.

(** C4. Closest-match reconciliation: when the content changes while a query
    is active, the line of the previous current match is known and the new
    search finds matches, the new current index is the index of the match
    whose line is nearest to the previous line, the lowest such index on a
    tie; for previous line 5 and new match lines 2, 6, 9 that is the match on
    line 6. *)
Theorem C4_closest_match_reconciliation {uni : Unicode} (VP : Type) (viewport : Viewport VP)
  (collab : Collaborators) :
  closestMatchIndex [2; 6; 9] 5 = 1 /\
  (forall matches line,
     matches <> [] -> Forall isLine matches -> isLine line ->
     closestIn matches line (closestMatchIndex matches line)) /\
  (forall (m : Model VP) prevLine matches,
     searchQuery m <> EmptyString ->
     0 <= searchIndex m ->
     searchMatches m !! Z.to_nat (searchIndex m) = Some prevLine ->
     isLine prevLine ->
     len (ansiStrip (renderedContent m)) < GoInt.two63 ->
     findSearchMatches (renderedContent m) (searchQuery m) = Some matches ->
     matches <> [] ->
     exists m',
       onContentChanged m = Some m' /\
       searchMatches m' = matches /\
       searchIndex m' = closestMatchIndex matches prevLine /\
       closestIn matches prevLine (searchIndex m')).
Proof.
  split; [reflexivity|]. split; [apply closestMatchIndex_spec|].
  intros m prevLine matches Hq Hidx Hlook Hprev Hlen Hms Hne.
  destruct (onContentChanged_cases m)
    as [[Hq' _]|[(_ & Hms' & _)|[(prevLine' & matches' & v & _ & Hp & Hms' & _ & Hm')
                                |(_ & Hms' & _)]]].
  - done.
  - rewrite Hms in Hms'. by inversion Hms'.
  - rewrite Hms in Hms'. inversion Hms'; subst matches'.
    rewrite (prevLineOf_known m prevLine Hidx Hlook) in Hp. inversion Hp; subst prevLine'.
    eexists. split; [exact Hm'|]. simpl. split; [done|].
    unfold reconciledIndex.
    destruct (Z.geb_spec prevLine 0) as [_|?]; [|unfold isLine in Hprev; lia].
    split; [done|].
    apply closestMatchIndex_spec; [done| |done].
    by eapply findSearchMatches_lines.
  - congruence.
Qed.

Lemma C4_witness :
  exists m',
    onContentChanged (collab := plainCollaborators) reconcileModel = Some m' /\
    searchMatches m' = [2; 6; 9] /\
    searchIndex m' = closestMatchIndex [2; 6; 9] 5 /\
    closestIn [2; 6; 9] 5 (searchIndex m').
Proof.
  apply (proj2 (proj2 (C4_closest_match_reconciliation PlainViewport plainViewport
                         plainCollaborators)) reconcileModel 5 [2; 6; 9]).
  - discriminate.
  - simpl. lia.
  - reflexivity.
  - unfold isLine, GoInt.two63. lia.
  - vm_compute. reflexivity.
  - vm_compute. reflexivity.
  - discriminate.
Defined.

(** C8. No match: when the search finds nothing, the list of matches becomes
    empty, the current index -1, the status the no-match message for the query
    (not an error of the operating system), and the query stays stored (trimmed,
    as [performSearch] stores it); everything else is as before.  This holds
    for [performSearch] and for [onContentChanged]. *)
Theorem C8_no_match_keeps_query {uni : Unicode} (VP : Type) (viewport : Viewport VP)
  (collab : Collaborators) (m : Model VP) :
  (forall query resetIndex,
     findSearchMatches (renderedContent m) query = Some [] ->
     exists m',
       performSearch query resetIndex m = Some m' /\
       searchMatches m' = [] /\ searchIndex m' = -1 /\
       err m' = Some (errNoMatch (TrimSpace query)) /\
       searchQuery m' = TrimSpace query /\
       (TrimSpace query = query -> searchQuery m' = query) /\
       m' = setErr (setSearchIndex (setSearchMatches (setSearchQuery m (TrimSpace query)) [])
                                   (-1))
                   (Some (errNoMatch (TrimSpace query)))) /\
  (searchQuery m <> EmptyString ->
   findSearchMatches (renderedContent m) (searchQuery m) = Some [] ->
   exists m',
     onContentChanged m = Some m' /\
     searchMatches m' = [] /\ searchIndex m' = -1 /\
     err m' = Some (errNoMatch (searchQuery m)) /\
     searchQuery m' = searchQuery m /\
     m' = setErr (setSearchIndex (setSearchMatches m []) (-1))
                 (Some (errNoMatch (searchQuery m)))).
Proof.
  split.
  - intros query resetIndex Hms. unfold performSearch.
    change (renderedContent (setSearchQuery m (TrimSpace query))) with (renderedContent m).
    rewrite findSearchMatches_trimmed, Hms. simpl.
    eexists. split; [reflexivity|]. simpl. repeat split; congruence.
  - intros Hq Hms.
    destruct (onContentChanged_cases m)
      as [[Hq' _]|[(_ & _ & Hm')|[(? & matches' & ? & _ & _ & Hms' & Hne & _)|(_ & Hms' & _)]]].
    + done.
    + eexists. split; [exact Hm'|]. done.
    + rewrite Hms in Hms'. by inversion Hms'.
    + congruence.
Qed.

Lemma C8_witness :
  (exists m',
     performSearch (collab := plainCollaborators) " needle " true readingModel = Some m' /\
     searchMatches m' = [] /\ searchIndex m' = -1 /\
     err m' = Some (errNoMatch "needle") /\ searchQuery m' = "needle") /\
  (exists m',
     onContentChanged (collab := plainCollaborators) (setRenderedContent searchingModel plainText)
     = Some m' /\
     searchMatches m' = [] /\ searchIndex m' = -1 /\
     err m' = Some (errNoMatch "needle") /\ searchQuery m' = "needle").
Proof.
  split.
  - destruct (proj1 (C8_no_match_keeps_query PlainViewport plainViewport plainCollaborators
                       readingModel) " needle " true)
      as (m' & H1 & H2 & H3 & H4 & H5 & _).
    + vm_compute. reflexivity.
    + exists m'. repeat split; assumption.
  - destruct (proj2 (C8_no_match_keeps_query PlainViewport plainViewport plainCollaborators
                       (setRenderedContent searchingModel plainText)))
      as (m' & H1 & H2 & H3 & H4 & H5 & _).
    + discriminate.
    + vm_compute. reflexivity.
    + exists m'. repeat split; assumption.
Defined.

(** ** File events *)

Section FileEvents.
Context {VP : Type} {viewport : Viewport VP} {collab : Collaborators} {uni : Unicode}.





End FileEvents.





(** After the reload of [readingModel] the viewport stands at offset 5: the
    offset 8 it had, cut to the last page of the ten lines of the new
    content. *)
Example reload_restores_and_clamps :
  exists m' cmd,
    handleFileEvent (collab := plainCollaborators) fileRewritten
      (mkFileEvent "/docs/a.md" opWrite) readingModel =
      Some (m', cmd, ["/docs/a.md"]) /\
    pvYOffset (contentVP m') = 5 /\ err m' = None /\ renderedContent m' = plainText.
Proof. eexists _, _. split; [vm_compute; reflexivity|]. by repeat split. Qed.

(** A message for another file changes nothing. *)
Example other_file_is_ignored :
  handleFileEvent (collab := plainCollaborators) fileRewritten
    (mkFileEvent "/docs/b.md" opWrite) readingModel =
  Some (readingModel, cmdWaitForFileEvent, []).
Proof. reflexivity. Qed.

(** An offset that lies on the last page of the new content is restored as
    the specification says: from offset 3 the reader is at offset 3 again. *)
Example small_offset_is_restored :
  reloadsAndRestores (collab := plainCollaborators) fileRewritten
    (mkFileEvent "/docs/a.md" opWrite) (watchingModel thirtyLines 3 EmptyString [] (-1)).
Proof.
  eexists _, _, plainText, (fun raw => inr raw).
  split; [vm_compute; reflexivity|].
  repeat split; try reflexivity. vm_compute. by intros [=].
Qed.


(** * Further properties *)

(** ** Children by name *)

Lemma find_app_first {A : Type} (p : A -> bool) l k :
  List.find p (l ++ k)%list = match List.find p l with Some x => Some x | None => List.find p k end.
Proof. induction l as [|x l IH]; simpl; [done|]. by destruct (p x). Qed.

Lemma find_none_name name cs :
  List.find (nameIs name) cs = None -> ~ In name (map Name cs).
Proof.
  induction cs as [|c cs IH]; simpl; [by intros _ []|].
  unfold nameIs at 1. destruct (String.eqb_spec (Name c) name) as [He|Hne]; [done|].
  intros Hf [Hc|Hin]; [done|]. by apply IH.
Qed.

Lemma find_some_name name cs c :
  List.find (nameIs name) cs = Some c -> In c cs /\ Name c = name.
Proof.
  intros Hf. apply find_some in Hf as [Hin Hn]. split; [done|]. by apply String.eqb_eq.
Qed.

Lemma updateFirst_names (p : Node -> bool) f l :
  (forall x, Name (f x) = Name x) -> map Name (updateFirst p f l) = map Name l.
Proof.
  intros Hf. induction l as [|x l IH]; simpl; [done|].
  destruct (p x); simpl; [by rewrite Hf|by rewrite IH].
Qed.

Lemma updateFirst_Forall {A : Type} (P : A -> Prop) p f l :
  (forall x, P x -> P (f x)) -> Forall P l -> Forall P (updateFirst p f l).
Proof.
  intros Hf. induction 1 as [|x l Hx Hl IH]; simpl; [constructor|].
  destruct (p x); constructor; auto.
Qed.

Lemma find_updateFirst a b f cs :
  (forall x, Name (f x) = Name x) ->
  List.find (nameIs a) (updateFirst (nameIs b) f cs) =
    if String.eqb a b then f <$> List.find (nameIs a) cs else List.find (nameIs a) cs.
Proof.
  intros Hf. induction cs as [|c cs IH]; simpl; [by destruct (String.eqb a b)|].
  unfold nameIs at 2 4 6. unfold nameIs at 1.
  destruct (String.eqb_spec (Name c) b) as [Hb|Hb]; simpl.
  - unfold nameIs at 1. rewrite Hf.
    destruct (String.eqb_spec (Name c) a) as [Ha|Ha].
    + subst. by rewrite String.eqb_refl.
    + destruct (String.eqb_spec a b) as [->|Hab]; [done|done].
  - unfold nameIs at 1. destruct (String.eqb_spec (Name c) a) as [Ha|Ha].
    + destruct (String.eqb_spec a b) as [->|Hab]; [done|done].
    + exact IH.
Qed.

(** ** The trees of Build and buildFilteredTree *)

Lemma insertParts_Name parts currentPath n :
  Name (insertParts parts currentPath n) = Name n.
Proof.
  destruct parts as [|part [|part' rest]]; simpl; [done| |];
    by destruct (ChildByName n part).
Qed.

Lemma insertParts_Path parts currentPath n :
  Path (insertParts parts currentPath n) = Path n.
Proof.
  destruct parts as [|part [|part' rest]]; simpl; [done| |];
    by destruct (ChildByName n part).
Qed.

Lemma siblingsDistinct_leaf n : Children n = [] -> siblingsDistinct n.
Proof. intros Hn. constructor; rewrite Hn; constructor. Qed.

Lemma pathsJoined_leaf n : Children n = [] -> pathsJoined n.
Proof. intros Hn. constructor; rewrite Hn; constructor. Qed.

Lemma siblingsDistinct_add n c :
  siblingsDistinct n -> siblingsDistinct c -> ChildByName n (Name c) = None ->
  siblingsDistinct (AddChild n c).
Proof.
  intros Hn Hc Hnone. inversion Hn as [? Hnd Hall]; subst. constructor; simpl.
  - rewrite map_app. simpl. apply NoDup_app. split; [done|]. split; [|apply NoDup_singleton].
    intros x Hx Hx'. apply list_elem_of_In in Hx. apply list_elem_of_singleton in Hx'. subst x.
    by apply (find_none_name _ _ Hnone).
  - apply Forall_app. split; [done|]. by constructor.
Qed.

Lemma siblingsDistinct_update n p f :
  siblingsDistinct n -> (forall x, Name (f x) = Name x) ->
  (forall x, siblingsDistinct x -> siblingsDistinct (f x)) ->
  siblingsDistinct (setChildren n (updateFirst p f (Children n))).
Proof.
  intros Hn Hname Hf. inversion Hn as [? Hnd Hall]; subst. constructor; simpl.
  - by rewrite updateFirst_names.
  - by apply updateFirst_Forall.
Qed.

Lemma insertParts_distinct parts currentPath n :
  siblingsDistinct n -> siblingsDistinct (insertParts parts currentPath n).
Proof.
  revert currentPath n. induction parts as [|part rest IH]; intros currentPath n Hn; [done|].
  destruct rest as [|part' rest].
  - simpl. destruct (ChildByName n part) eqn:Hc; [done|].
    apply siblingsDistinct_add; [done|by apply siblingsDistinct_leaf|done].
  - change (insertParts (part :: part' :: rest) currentPath n) with
      (match ChildByName n part with
       | Some _ => setChildren n (updateFirst (nameIs part)
                     (insertParts (part' :: rest) (joinPath currentPath part)) (Children n))
       | None => AddChild n (insertParts (part' :: rest) (joinPath currentPath part)
                               (newDir part (joinPath currentPath part)))
       end).
    destruct (ChildByName n part) eqn:Hc.
    + apply siblingsDistinct_update; [done|intros; apply insertParts_Name|intros; by apply IH].
    + apply siblingsDistinct_add; [done| |by rewrite insertParts_Name].
      apply IH. by apply siblingsDistinct_leaf.
Qed.

Lemma updateFirst_Forall_on {A : Type} (P : A -> Prop) p f l :
  (forall x, p x = true -> P x -> P (f x)) -> Forall P l -> Forall P (updateFirst p f l).
Proof.
  intros Hf. induction 1 as [|x l Hx Hl IH]; simpl; [constructor|].
  destruct (p x) eqn:Hp; constructor; auto.
Qed.

Lemma pathsJoined_add n c :
  pathsJoined n -> pathsJoined c -> Path c = joinPath (Path n) (Name c) ->
  pathsJoined (AddChild n c).
Proof.
  intros Hn Hc Hp. inversion Hn as [? Hps Hall]; subst. constructor; simpl.
  - apply Forall_app. split; [done|]. by constructor.
  - apply Forall_app. split; [done|]. by constructor.
Qed.

Lemma pathsJoined_update n name f :
  pathsJoined n ->
  (forall x, Name (f x) = Name x) -> (forall x, Path (f x) = Path x) ->
  (forall x, Name x = name -> Path x = joinPath (Path n) name -> pathsJoined x -> pathsJoined (f x)) ->
  pathsJoined (setChildren n (updateFirst (nameIs name) f (Children n))).
Proof.
  intros Hn Hname Hpath Hf. inversion Hn as [? Hps Hall]; subst.
  assert (Forall (fun c => Path c = joinPath (Path n) (Name c) /\ pathsJoined c) (Children n)) as Hboth.
  { rewrite Forall_forall in Hps, Hall |- *. intros c Hc. split; auto. }
  apply (updateFirst_Forall_on _ (nameIs name) f) in Hboth.
  - constructor; simpl; eapply Forall_impl; try exact Hboth; simpl; by intros c [? ?].
  - intros x Hx [Hxp Hxj]. apply String.eqb_eq in Hx. rewrite Hname, Hpath. split; [done|].
    apply Hf; [done| |done]. by rewrite Hxp, Hx.
Qed.

Lemma insertParts_paths parts n :
  pathsJoined n -> pathsJoined (insertParts parts (Path n) n).
Proof.
  revert n. induction parts as [|part rest IH]; intros n Hn; [done|].
  destruct rest as [|part' rest].
  - simpl. destruct (ChildByName n part) eqn:Hc; [done|].
    apply pathsJoined_add; [done|by apply pathsJoined_leaf|done].
  - change (insertParts (part :: part' :: rest) (Path n) n) with
      (match ChildByName n part with
       | Some _ => setChildren n (updateFirst (nameIs part)
                     (insertParts (part' :: rest) (joinPath (Path n) part)) (Children n))
       | None => AddChild n (insertParts (part' :: rest) (joinPath (Path n) part)
                               (newDir part (joinPath (Path n) part)))
       end).
    destruct (ChildByName n part) eqn:Hc.
    + apply pathsJoined_update; [done|intros; apply insertParts_Name|intros; apply insertParts_Path|].
      intros x _ Hx Hxj. rewrite <- Hx. by apply IH.
    + apply pathsJoined_add; [done| |by rewrite insertParts_Name, insertParts_Path].
      apply (IH (newDir part (joinPath (Path n) part))). by apply pathsJoined_leaf.
Qed.

Lemma insertAll_invariants root files :
  Path root = EmptyString -> siblingsDistinct root -> pathsJoined root ->
  Path (insertAll root files) = EmptyString /\
  siblingsDistinct (insertAll root files) /\ pathsJoined (insertAll root files).
Proof.
  unfold insertAll. revert root. induction files as [|rel files IH]; intros root Hp Hd Hj; simpl; [done|].
  apply IH.
  - by rewrite insertParts_Path.
  - by apply insertParts_distinct.
  - rewrite <- Hp. by apply insertParts_paths.
Qed.

(** The same for the tag-filtered tree. *)
Lemma insertPathParts_Name parts parentPath n :
  Name (insertPathParts parts parentPath n) = Name n.
Proof. destruct parts as [|part rest]; simpl; [done|]. by destruct (ChildByName n part). Qed.

Lemma insertPathParts_Path parts parentPath n :
  Path (insertPathParts parts parentPath n) = Path n.
Proof. destruct parts as [|part rest]; simpl; [done|]. by destruct (ChildByName n part). Qed.

Lemma insertPathParts_step part rest parentPath n :
  insertPathParts (part :: rest) parentPath n =
    let isLast := match rest with [] => true | _ :: _ => false end in
    let childPath := joinPath parentPath part in
    let descend (child : Node) : Node :=
      insertPathParts rest childPath (if isLast then markFile child else child) in
    match ChildByName n part with
    | Some _ => setChildren n (updateFirst (nameIs part) descend (Children n))
    | None =>
        setChildren n
          (Children n ++ [descend (mkNode part childPath (negb isLast) false [] false false)])
    end.
Proof. reflexivity. Qed.

Lemma insertPathParts_distinct parts parentPath n :
  siblingsDistinct n -> siblingsDistinct (insertPathParts parts parentPath n).
Proof.
  revert parentPath n. induction parts as [|part rest IH]; intros parentPath n Hn; [done|].
  rewrite insertPathParts_step. cbv zeta.
  assert (forall x, siblingsDistinct x ->
            siblingsDistinct (if match rest with [] => true | _ :: _ => false end
                              then markFile x else x)) as Hmark.
  { intros x Hx. destruct rest; [by apply siblingsDistinct_leaf|done]. }
  destruct (ChildByName n part) eqn:Hc.
  - apply siblingsDistinct_update; [done| |].
    + intros x. rewrite insertPathParts_Name. by destruct rest.
    + intros x Hx. by apply IH, Hmark.
  - apply (siblingsDistinct_add n); [done| |].
    + apply IH, Hmark. by apply siblingsDistinct_leaf.
    + rewrite insertPathParts_Name. by destruct rest.
Qed.

Lemma insertPathParts_paths parts n :
  pathsJoined n -> pathsJoined (insertPathParts parts (Path n) n).
Proof.
  revert n. induction parts as [|part rest IH]; intros n Hn; [done|].
  rewrite insertPathParts_step. cbv zeta.
  assert (forall x, pathsJoined x ->
            pathsJoined (if match rest with [] => true | _ :: _ => false end
                         then markFile x else x)) as Hmark.
  { intros x Hx. destruct rest; [by apply pathsJoined_leaf|done]. }
  assert (forall x, Path (if match rest with [] => true | _ :: _ => false end
                          then markFile x else x) = Path x) as HmarkP by (intros; by destruct rest).
  assert (forall x, Name (if match rest with [] => true | _ :: _ => false end
                          then markFile x else x) = Name x) as HmarkN by (intros; by destruct rest).
  destruct (ChildByName n part) eqn:Hc.
  - apply pathsJoined_update; [done| | |].
    + intros x. by rewrite insertPathParts_Name.
    + intros x. by rewrite insertPathParts_Path.
    + intros x _ Hx Hxj. rewrite <- Hx, <- (HmarkP x). by apply IH, Hmark.
  - apply (pathsJoined_add n); [done| |].
    + set (c := mkNode part (joinPath (Path n) part) _ false [] false false).
      replace (joinPath (Path n) part) with (Path c) at 1 by done.
      rewrite <- (HmarkP c). apply IH, Hmark. by apply pathsJoined_leaf.
    + by rewrite insertPathParts_Name, insertPathParts_Path, HmarkN, HmarkP.
Qed.

Lemma insertTrimmed_invariants root relPaths :
  Path root = EmptyString -> siblingsDistinct root -> pathsJoined root ->
  Path (insertTrimmed root relPaths) = EmptyString /\
  siblingsDistinct (insertTrimmed root relPaths) /\ pathsJoined (insertTrimmed root relPaths).
Proof.
  unfold insertTrimmed. revert root.
  induction relPaths as [|rel relPaths IH]; intros root Hp Hd Hj; simpl; [done|].
  destruct (String.eqb (TrimSlashes rel) EmptyString); [by apply IH|].
  unfold insertPath. apply IH.
  - by rewrite insertPathParts_Path.
  - by apply insertPathParts_distinct.
  - rewrite <- Hp. by apply insertPathParts_paths.
Qed.

(** *** Sorting keeps the shape *)

Lemma sortedCopy_ind_nested (P : Node -> Node -> Prop) :
  (forall n cs cs',
      Permutation cs (Children n) -> Forall2 sortedCopy cs cs' -> Forall2 P cs cs' ->
      P n (setChildren n cs')) ->
  forall n n', sortedCopy n n' -> P n n'.
Proof.
  intros Hstep. fix IH 3. intros n n' [n0 cs cs' Hperm HF].
  apply (Hstep _ cs); [done|done|]. clear Hperm.
  induction HF as [|c c' cs cs' Hc HF IHF]; [constructor|].
  constructor; [by apply IH|done].
Qed.

Lemma sortedCopy_same n n' : sortedCopy n n' -> sameButChildren n n'.
Proof. intros [n0 cs cs' _ _]. by repeat split. Qed.

Lemma sortedCopy_leaf n : Children n = [] -> sortedCopy n n.
Proof.
  intros Hn. rewrite <- (setChildren_same n) at 2. rewrite Hn.
  apply (sortedCopy_intro n [] []); [by rewrite Hn|constructor].
Qed.

Lemma SortRecursiveN_sortedCopy {uni : Unicode} {sorter : SliceSorter} fuel n n' :
  SortRecursiveN fuel n = Some n' -> sortedCopy n n'.
Proof.
  revert n n'. induction fuel as [|fuel IH]; intros n n'; [done|].
  rewrite SortRecursiveN_step.
  destruct (mapM _ (sortSlice nodeLess (Children n))) as [cs'|] eqn:Hcs; [|done].
  intros [= <-]. apply mapM_Some_1 in Hcs.
  apply (sortedCopy_intro n (sortSlice nodeLess (Children n))); [apply sortSlice_perm|].
  eapply Forall2_impl; [exact Hcs|]. intros c c'. simpl.
  destruct (Nat.ltb_spec 0 (length (Children c))) as [Hlen|Hlen]; [apply IH|].
  intros [= <-]. apply sortedCopy_leaf. destruct (Children c); [done|simpl in Hlen; lia].
Qed.

Lemma sortTreeN_sortedCopy {uni : Unicode} {sorter : SliceSorter} fuel n n' :
  sortTreeN fuel n = Some n' -> sortedCopy n n'.
Proof.
  revert n n'. induction fuel as [|fuel IH]; intros n n'; [done|].
  simpl. destruct (Nat.eqb_spec (length (Children n)) 0) as [Hlen|Hlen].
  { intros [= <-]. apply sortedCopy_leaf. by destruct (Children n). }
  destruct (mapM (sortTreeN fuel) (sortSlice nodeLess (Children n))) as [cs'|] eqn:Hcs; [|done].
  intros [= <-]. apply mapM_Some_1 in Hcs.
  apply (sortedCopy_intro n (sortSlice nodeLess (Children n))); [apply sortSlice_perm|].
  eapply Forall2_impl; [exact Hcs|]. exact IH.
Qed.

Lemma Forall2_names cs cs' :
  Forall2 (fun c c' => sameButChildren c c') cs cs' -> map Name cs' = map Name cs.
Proof.
  induction 1 as [|c c' cs cs' (Hn & _) _ IH]; simpl; [done|]. by rewrite Hn, IH.
Qed.

Lemma sortedCopy_distinct n n' : sortedCopy n n' -> siblingsDistinct n -> siblingsDistinct n'.
Proof.
  revert n n'. apply (sortedCopy_ind_nested (fun n n' => siblingsDistinct n -> siblingsDistinct n')).
  intros n cs cs' Hperm HF HP Hn. inversion Hn as [? Hnd Hall]; subst.
  constructor; simpl.
  - rewrite (Forall2_names cs cs').
    + assert (map Name cs ≡ₚ map Name (Children n)) as Hp by (by apply Permutation_map).
      by rewrite Hp.
    + eapply Forall2_impl; [exact HF|]. apply sortedCopy_same.
  - rewrite <- Hperm in Hall. clear Hperm Hnd Hn HF.
    induction HP as [|c c' cs cs' Hc HP IH]; [constructor|].
    apply Forall_cons in Hall as [Hc1 Hall]. constructor; auto.
Qed.

Lemma sortedCopy_paths n n' : sortedCopy n n' -> pathsJoined n -> pathsJoined n'.
Proof.
  revert n n'. apply (sortedCopy_ind_nested (fun n n' => pathsJoined n -> pathsJoined n')).
  intros n cs cs' Hperm HF HP Hn. inversion Hn as [? Hps Hall]; subst.
  rewrite <- Hperm in Hps, Hall. clear Hperm Hn.
  constructor; simpl.
  - clear HP Hall. induction HF as [|c c' cs cs' Hc HF IH]; [constructor|].
    apply Forall_cons in Hps as [Hp1 Hps]. constructor; [|by apply IH].
    apply sortedCopy_same in Hc as (Hnm & Hpt & _). by rewrite Hnm, Hpt.
  - clear HF Hps. induction HP as [|c c' cs cs' Hc HP IH]; [constructor|].
    apply Forall_cons in Hall as [Hc1 Hall]. constructor; auto.
Qed.

(** *** Looking a path up *)

Lemma ChildByName_AddChild n child name :
  ChildByName (AddChild n child) name =
    match ChildByName n name with
    | Some c => Some c
    | None => if String.eqb (Name child) name then Some child else None
    end.
Proof.
  unfold ChildByName, AddChild. simpl. rewrite find_app_first.
  destruct (List.find (nameIs name) (Children n)); [done|].
  simpl. unfold nameIs. by destruct (String.eqb (Name child) name).
Qed.

Lemma ChildByName_update n a b f :
  (forall x, Name (f x) = Name x) ->
  ChildByName (setChildren n (updateFirst (nameIs b) f (Children n))) a =
    if String.eqb a b then f <$> ChildByName n a else ChildByName n a.
Proof. intros Hf. unfold ChildByName. simpl. by apply find_updateFirst. Qed.

Lemma insertParts_cons part part' rest currentPath n :
  insertParts (part :: part' :: rest) currentPath n =
    match ChildByName n part with
    | Some _ => setChildren n (updateFirst (nameIs part)
                  (insertParts (part' :: rest) (joinPath currentPath part)) (Children n))
    | None => AddChild n (insertParts (part' :: rest) (joinPath currentPath part)
                            (newDir part (joinPath currentPath part)))
    end.
Proof. reflexivity. Qed.

Lemma lookupPath_insertParts_self parts currentPath n :
  parts <> [] ->
  exists x, lookupPath parts (insertParts parts currentPath n) = Some x /\
            Name x = List.last parts EmptyString.
Proof.
  revert currentPath n. induction parts as [|part rest IH]; intros currentPath n Hne; [done|].
  destruct rest as [|part' rest].
  - simpl. destruct (ChildByName n part) as [c|] eqn:Hc.
    + rewrite Hc. simpl. exists c. split; [done|]. by apply find_some_name in Hc as [_ ?].
    + rewrite ChildByName_AddChild, Hc. simpl. rewrite String.eqb_refl. simpl. by eexists.
  - rewrite insertParts_cons. remember (part' :: rest) as rest' eqn:Hrest.
    assert (rest' <> []) as Hne' by (by subst).
    assert (List.last (part :: rest') EmptyString = List.last rest' EmptyString) as ->
      by (by subst).
    destruct (ChildByName n part) as [c|] eqn:Hc.
    + simpl. rewrite ChildByName_update by (intros; apply insertParts_Name).
      rewrite String.eqb_refl, Hc. simpl. by apply IH.
    + simpl. rewrite ChildByName_AddChild, Hc, insertParts_Name. simpl.
      rewrite String.eqb_refl. simpl. by apply IH.
Qed.

Lemma lookupPath_insertParts_other q parts currentPath n x :
  lookupPath q n = Some x ->
  exists x', lookupPath q (insertParts parts currentPath n) = Some x' /\ Name x' = Name x.
Proof.
  revert parts currentPath n. induction q as [|a q IH]; intros parts currentPath n; simpl.
  { intros [= <-]. eexists. split; [done|]. apply insertParts_Name. }
  destruct (ChildByName n a) as [c|] eqn:Hc; [|done]. simpl. intros Hx.
  destruct parts as [|part [|part' rest]].
  - simpl. rewrite Hc. simpl. by exists x.
  - simpl. destruct (ChildByName n part) eqn:Hp.
    + rewrite Hc. simpl. by exists x.
    + rewrite ChildByName_AddChild, Hc. simpl. by exists x.
  - rewrite insertParts_cons. destruct (ChildByName n part) eqn:Hp.
    + rewrite ChildByName_update by (intros; apply insertParts_Name).
      rewrite Hc. destruct (String.eqb a part).
      * exact (IH (part' :: rest) (joinPath currentPath part) c Hx).
      * simpl. by exists x.
    + rewrite ChildByName_AddChild, Hc. simpl. by exists x.
Qed.

Lemma insertAll_resolves root files rel :
  In rel files ->
  exists x, lookupPath (Split rel "/"%char) (insertAll root files) = Some x /\
            Name x = List.last (Split rel "/"%char) EmptyString.
Proof.
  unfold insertAll. revert root. induction files as [|rel' files IH]; intros root; [by intros []|].
  intros [->|Hin]; simpl; [|by apply IH].
  destruct (lookupPath_insertParts_self (Split rel "/"%char) EmptyString root
              (Split_nonempty _ _)) as (x & Hx & Hname).
  clear IH. revert Hx. generalize (insertParts (Split rel "/"%char) EmptyString root).
  revert x Hname. induction files as [|rel' files IH]; intros x Hname root' Hx; simpl.
  { by exists x. }
  destruct (lookupPath_insertParts_other _ (Split rel' "/"%char) EmptyString _ _ Hx)
    as (x' & Hx' & Hname').
  apply (IH x'); [congruence|done].
Qed.

Lemma find_unique_name a c l :
  NoDup (map Name l) -> In c l -> Name c = a -> List.find (nameIs a) l = Some c.
Proof.
  induction l as [|x l IH]; simpl; [by intros _ []|].
  intros Hnd Hin Hname. apply NoDup_cons in Hnd as [Hx Hnd].
  unfold nameIs at 1. destruct (String.eqb_spec (Name x) a) as [Hxa|Hxa].
  - destruct Hin as [->|Hin]; [done|]. exfalso. apply Hx.
    apply list_elem_of_In, in_map_iff. exists c. split; [congruence|done].
  - destruct Hin as [->|Hin]; [done|]. by apply IH.
Qed.

Lemma sortedCopy_lookup n n' :
  sortedCopy n n' -> siblingsDistinct n ->
  forall q x, lookupPath q n = Some x -> exists x', lookupPath q n' = Some x' /\ sortedCopy x x'.
Proof.
  revert n n'.
  apply (sortedCopy_ind_nested (fun n n' => siblingsDistinct n ->
     forall q x, lookupPath q n = Some x -> exists x', lookupPath q n' = Some x' /\ sortedCopy x x')).
  intros n cs cs' Hperm HF HP Hn [|a q] x; simpl.
  { intros [= <-]. eexists. split; [done|]. by econstructor. }
  destruct (ChildByName n a) as [c|] eqn:Hc; [|done]. simpl. intros Hx.
  inversion Hn as [? Hnd Hall]; subst.
  apply find_some_name in Hc as [Hin Hname].
  assert (In c cs) as Hin' by (eapply Permutation_in; [symmetry; exact Hperm|done]).
  assert (siblingsDistinct c) as Hcd.
  { rewrite Forall_forall in Hall. by apply Hall, list_elem_of_In. }
  apply list_elem_of_In, list_elem_of_lookup in Hin' as [i Hi].
  destruct (Forall2_lookup_l _ _ _ _ _ HP Hi) as (c' & Hi' & Hc').
  destruct (Forall2_lookup_l _ _ _ _ _ HF Hi) as (c'' & Hi'' & Hcc).
  assert (c'' = c') as -> by congruence.
  destruct (Hc' Hcd q x Hx) as (x' & Hx' & Hxx).
  exists x'. split; [|done].
  unfold ChildByName. simpl.
  rewrite (find_unique_name a c' cs'); [done| | |].
  - rewrite (Forall2_names cs cs').
    + assert (map Name cs ≡ₚ map Name (Children n)) as Hp by (by apply Permutation_map).
      by rewrite Hp.
    + eapply Forall2_impl; [exact HF|]. apply sortedCopy_same.
  - apply list_elem_of_In. by eapply list_elem_of_lookup_2.
  - apply sortedCopy_same in Hcc as (Hnm & _). congruence.
Qed.

Lemma lookupPath_path q n x :
  pathsJoined n -> lookupPath q n = Some x ->
  Path x = fold_left joinPath q (Path n) /\ pathsJoined x.
Proof.
  revert n. induction q as [|a q IH]; intros n Hn; simpl.
  { by intros [= <-]. }
  destruct (ChildByName n a) as [c|] eqn:Hc; [|done]. simpl. intros Hx.
  apply find_some_name in Hc as [Hin Hname].
  inversion Hn as [? Hps Hall]; subst. rewrite Forall_forall in Hps, Hall.
  apply list_elem_of_In in Hin.
  rewrite <- (Hps c Hin). by apply IH; [apply Hall|].
Qed.

(** *** Splitting a path and joining it again *)

Lemma concat_Split s sep :
  String.concat (String sep EmptyString) (Split s sep) = s.
Proof.
  induction s as [|c s IH]; simpl; [done|].
  destruct (Ascii.eqb_spec c sep) as [->|Hne].
  - pose proof (Split_nonempty s sep). simpl in *.
    destruct (Split s sep) as [|h t]; [done|]. by rewrite IH.
  - pose proof (Split_nonempty s sep).
    destruct (Split s sep) as [|h t]; [done|]. simpl in *.
    destruct t; simpl in *; by rewrite <- IH.
Qed.

Lemma append_assoc (a b c : string) :
  String.append (String.append a b) c = String.append a (String.append b c).
Proof.
  induction a as [|x a IH]; [done|].
  change (String x (String.append (String.append a b) c) = String x (String.append a (String.append b c))).
  by rewrite IH.
Qed.

Lemma fold_joinPath t h :
  h <> EmptyString ->
  fold_left joinPath t h = String.concat "/" (h :: t).
Proof.
  revert h. induction t as [|a t IH]; intros h Hh; [done|].
  simpl fold_left. unfold joinPath at 2.
  destruct (String.eqb_spec h EmptyString) as [?|_]; [done|].
  rewrite IH by (by destruct h).
  change (String.concat "/" (h :: a :: t)) with
    (String.append h (String.append "/" (String.concat "/" (a :: t)))).
  destruct t as [|b t]; [done|].
  change (String.concat "/" (String.append h (String "/" a) :: b :: t)) with
    (String.append (String.append h (String "/" a)) (String.append "/" (String.concat "/" (b :: t)))).
  change (String.concat "/" (a :: b :: t)) with
    (String.append a (String.append "/" (String.concat "/" (b :: t)))).
  rewrite append_assoc. done.
Qed.

Lemma prefix_empty s : String.prefix EmptyString s = true.
Proof. by destruct s. Qed.

Lemma joinParts_Split rel :
  HasPrefix rel "/" = false -> joinParts (Split rel "/"%char) = rel.
Proof.
  intros Hpre. pose proof (concat_Split rel "/"%char) as Hcat.
  pose proof (Split_nonempty rel "/"%char) as Hne.
  unfold joinParts. destruct (Split rel "/"%char) as [|h t]; [done|]. simpl fold_left.
  destruct (String.eqb_spec h EmptyString) as [->|Hh].
  - destruct t as [|a t].
    + simpl in *. by subst rel.
    + exfalso. rewrite <- Hcat in Hpre.
      change (String.concat "/" (EmptyString :: a :: t)) with
        (String "/"%char (String.concat "/" (a :: t))) in Hpre.
      unfold HasPrefix in Hpre. simpl in Hpre. by rewrite prefix_empty in Hpre.
  - unfold joinPath at 2. simpl. rewrite fold_joinPath by done. exact Hcat.
Qed.

(** ** Properties of the tree package *)

(** X1. Adding a child and looking a name up: a child that was there under
    the name is still the one found; otherwise the added child is found
    exactly when it has the name. *)
Theorem AddChild_then_ChildByName (n child : Node) (name : string) :
  ChildByName (AddChild n child) name =
    match ChildByName n name with
    | Some c => Some c
    | None => if String.eqb (Name child) name then Some child else None
    end.
Proof.
  unfold ChildByName, AddChild. simpl. rewrite find_app_first.
  destruct (List.find (nameIs name) (Children n)); [done|].
  simpl. unfold nameIs. by destruct (String.eqb (Name child) name).
Qed.

(** X2. In the tree [Build] returns, and in the tree [buildFilteredTree]
    returns, no node has two children of the same name. *)
Theorem built_trees_have_distinct_sibling_names {uni : Unicode} (sorter : SliceSorter) :
  (forall rootName files,
      exists root, Build rootName files = Some root /\ siblingsDistinct root) /\
  (forall displayRoot relPaths,
      exists root, buildFilteredTree displayRoot relPaths = Some root /\ siblingsDistinct root).
Proof.
  split.
  - intros rootName files. unfold Build.
    destruct (SortRecursive_ordered (insertAll (newRootNode rootName) files)) as (root & Hroot & _).
    exists root. split; [done|].
    apply SortRecursiveN_sortedCopy in Hroot.
    eapply sortedCopy_distinct; [exact Hroot|].
    apply insertAll_invariants; [done|by apply siblingsDistinct_leaf|by apply pathsJoined_leaf].
  - intros displayRoot relPaths. unfold buildFilteredTree.
    destruct (sortTree_ordered (insertTrimmed (newRootNode displayRoot) relPaths))
      as (root & Hroot & _).
    exists root. split; [done|].
    apply sortTreeN_sortedCopy in Hroot.
    eapply sortedCopy_distinct; [exact Hroot|].
    apply insertTrimmed_invariants; [done|by apply siblingsDistinct_leaf|by apply pathsJoined_leaf].
Qed.

(** X3. In the tree [Build] returns, and in the tree [buildFilteredTree]
    returns, the root has the empty path and the path of every other node is
    the path of its parent joined with its own name. *)
Theorem built_trees_join_paths {uni : Unicode} (sorter : SliceSorter) :
  (forall rootName files,
      exists root, Build rootName files = Some root /\
                   Path root = EmptyString /\ pathsJoined root) /\
  (forall displayRoot relPaths,
      exists root, buildFilteredTree displayRoot relPaths = Some root /\
                   Path root = EmptyString /\ pathsJoined root).
Proof.
  split.
  - intros rootName files. unfold Build.
    destruct (SortRecursive_ordered (insertAll (newRootNode rootName) files))
      as (root & Hroot & _ & _ & Hpath & _).
    exists root. split; [done|].
    apply SortRecursiveN_sortedCopy in Hroot.
    destruct (insertAll_invariants (newRootNode rootName) files) as (Hp & _ & Hj);
      [done|by apply siblingsDistinct_leaf|by apply pathsJoined_leaf|].
    split; [congruence|]. by eapply sortedCopy_paths.
  - intros displayRoot relPaths. unfold buildFilteredTree.
    destruct (sortTree_ordered (insertTrimmed (newRootNode displayRoot) relPaths))
      as (root & Hroot & _ & _ & Hpath & _).
    exists root. split; [done|].
    apply sortTreeN_sortedCopy in Hroot.
    destruct (insertTrimmed_invariants (newRootNode displayRoot) relPaths) as (Hp & _ & Hj);
      [done|by apply siblingsDistinct_leaf|by apply pathsJoined_leaf|].
    split; [congruence|]. by eapply sortedCopy_paths.
Qed.

(** X4. [Build] loses no file: every path of [files] leads, one
    [ChildByName] per segment, to a node of the returned tree; the node has
    the name of the last segment, its path is the segments joined, and that is
    the given path itself when it does not begin with a slash. *)
Theorem Build_resolves_every_file {uni : Unicode} (sorter : SliceSorter) (rootName : string)
  (files : list string) (rel : string) :
  In rel files ->
  exists root n,
    Build rootName files = Some root /\
    lookupPath (Split rel "/"%char) root = Some n /\
    Name n = List.last (Split rel "/"%char) EmptyString /\
    Path n = joinParts (Split rel "/"%char) /\
    (HasPrefix rel "/" = false -> Path n = rel).
Proof.
  intros Hin. unfold Build.
  destruct (SortRecursive_ordered (insertAll (newRootNode rootName) files))
    as (root & Hroot & _ & _ & Hpath & _).
  pose proof (SortRecursiveN_sortedCopy _ _ _ Hroot) as Hcopy.
  destruct (insertAll_invariants (newRootNode rootName) files) as (Hp & Hd & Hj);
    [done|by apply siblingsDistinct_leaf|by apply pathsJoined_leaf|].
  destruct (insertAll_resolves (newRootNode rootName) files rel Hin) as (x & Hx & Hname).
  destruct (sortedCopy_lookup _ _ Hcopy Hd _ _ Hx) as (n & Hn & Hxn).
  exists root, n. split; [done|]. split; [done|].
  apply sortedCopy_same in Hxn as (Hnm & Hpt & _).
  destruct (lookupPath_path _ _ _ Hj Hx) as [Hxp _]. rewrite Hp in Hxp.
  assert (Path n = joinParts (Split rel "/"%char)) as Hnp by (by rewrite Hpt, Hxp).
  split; [congruence|]. split; [done|].
  intros Hpre. by rewrite Hnp, joinParts_Split.
Qed.

Lemma Build_resolves_every_file_witness :
  exists root n,
    Build (sorter := insertionSorter) "docs" ["b/c.md"; "a.md"; "b/d.md"] = Some root /\
    lookupPath (Split "b/d.md" "/"%char) root = Some n /\
    Name n = List.last (Split "b/d.md" "/"%char) EmptyString /\
    Path n = joinParts (Split "b/d.md" "/"%char) /\
    (HasPrefix "b/d.md" "/" = false -> Path n = "b/d.md").
Proof.
  apply (Build_resolves_every_file insertionSorter "docs" ["b/c.md"; "a.md"; "b/d.md"] "b/d.md").
  right. right. by left.
Defined.

(** X5. A first successful load takes the listing as the children: the
    children afterwards are the listed nodes, each with the parent's loader
    attached, in some order (children held before are dropped); the node is
    marked loaded and its name, path, kind and open flag are as before. *)
Theorem EnsureLoaded_takes_the_listing {uni : Unicode}
  (sorter : SliceSorter) (S : Type) (ld : Loader S)
  (n : Node) (st st' : S) (children : list Node) :
  IsDir n = true -> loader n = true -> loaded n = false ->
  List (Path n) st = Some (inr children, st') ->
  exists r,
    EnsureLoaded n st = Some r /\
    Permutation (Children (lrNode r)) (map (fun c => setLoader c true) children) /\
    Forall (fun c => loader c = true) (Children (lrNode r)) /\
    loaded (lrNode r) = true /\ loader (lrNode r) = true /\
    Name (lrNode r) = Name n /\ Path (lrNode r) = Path n /\
    IsDir (lrNode r) = true /\ Open (lrNode r) = Open n /\
    lrErr r = None /\ lrState r = st'.
Proof.
  intros Hd Hl Hnl HList.
  rewrite (EnsureLoaded_load n st Hd Hl Hnl), HList, Hl.
  eexists. split; [done|]. simpl.
  assert (Permutation
    (sortSlice nodeLess (map (fun c => setLoader c true) children))
    (map (fun c => setLoader c true) children)) as Hperm by apply sortSlice_perm.
  split; [done|]. split; [|done].
  rewrite Hperm. rewrite Forall_forall. intros c Hc.
  apply list_elem_of_In, in_map_iff in Hc as (c0 & <- & _). done.
Qed.

Lemma EnsureLoaded_takes_the_listing_witness :
  exists r,
    EnsureLoaded (sorter := insertionSorter) (ld := fsLoader demoFS 8) demoDir NewFSLoader = Some r /\
    Permutation (Children (lrNode r))
      (map (fun c => setLoader c true)
           [newFile "A.md" "A.md"; newFile "b.md" "b.md"; newDir "sub" "sub"]) /\
    Forall (fun c => loader c = true) (Children (lrNode r)) /\
    loaded (lrNode r) = true /\ loader (lrNode r) = true /\
    Name (lrNode r) = Name demoDir /\ Path (lrNode r) = Path demoDir /\
    IsDir (lrNode r) = true /\ Open (lrNode r) = Open demoDir /\
    lrErr r = None /\
    lrState r = mkFSLoader (<["sub" := true]> ∅) [EmptyString; "sub"].
Proof.
  apply (EnsureLoaded_takes_the_listing insertionSorter FSLoader (fsLoader demoFS 8)
           demoDir NewFSLoader); [reflexivity|reflexivity|reflexivity|].
  vm_compute. reflexivity.
Defined.

(** ** The listing of the filesystem loader *)

Lemma listEntries_listed {uni : Unicode} fs fuel p entries :
  forall nodes l nodes' l',
    cacheSound fs (cache l) ->
    listEntries fs fuel p entries nodes l = Some (inr nodes', l') ->
    exists ns, nodes' = (nodes ++ ns)%list /\ listed fs p entries ns /\
               cacheSound fs (cache l') /\ cache l ⊆ cache l'.
Proof.
  induction entries as [|entry rest IH]; intros nodes l nodes' l' Hsound; simpl.
  { intros [= <- <-]. exists []. rewrite app_nil_r. split; [done|]. split; [constructor|done]. }
  destruct (entryIsDir entry) eqn:Hdir.
  - destruct (shouldSkipDir (entryName entry)) eqn:Hskip.
    { intros Hl. destruct (IH _ _ _ _ Hsound Hl) as (ns & -> & Hns & Hs & Hsub).
      exists ns. split; [done|]. split; [by apply listed_skipped|done]. }
    destruct (HasMarkdownN fs fuel (joinPath p (entryName entry)) l) as [[[e|[|]] l1]|] eqn:Hcall;
      [done| | |done].
    + intros Hl.
      destruct (HasMarkdownN_outcome fs fuel _ _ _ _ Hcall) as (_ & _ & _ & Hs & Hsub1).
      destruct (Hs Hsound) as (Hs1 & Hhas & _).
      destruct (IH _ _ _ _ Hs1 Hl) as (ns & -> & Hns & Hs' & Hsub).
      eexists (_ :: ns). split; [by rewrite <- app_assoc|].
      split; [apply listed_dir; auto|]. split; [done|]. by etrans.
    + intros Hl.
      destruct (HasMarkdownN_outcome fs fuel _ _ _ _ Hcall) as (_ & _ & _ & Hs & Hsub1).
      destruct (Hs Hsound) as (Hs1 & _ & Hno).
      destruct (IH _ _ _ _ Hs1 Hl) as (ns & -> & Hns & Hs' & Hsub).
      exists ns. split; [done|]. split; [apply listed_bare; auto|]. split; [done|]. by etrans.
  - destruct (isMarkdown (entryName entry)) eqn:Hmd; simpl.
    + intros Hl. destruct (IH _ _ _ _ Hsound Hl) as (ns & -> & Hns & Hs & Hsub).
      eexists (_ :: ns). split; [by rewrite <- app_assoc|].
      split; [by apply listed_file|done].
    + intros Hl. destruct (IH _ _ _ _ Hsound Hl) as (ns & -> & Hns & Hs & Hsub).
      exists ns. split; [done|]. split; [by apply listed_other|done].
Qed.

Lemma ListN_listed {uni : Unicode} fs fuel p l nodes l' :
  cacheSound fs (cache l) ->
  ListN fs fuel p l = Some (inr nodes, l') ->
  statIsDir fs p = inr true /\
  exists entries, readDir fs p = inr entries /\ listed fs p entries nodes /\
                  cacheSound fs (cache l') /\ cache l ⊆ cache l'.
Proof.
  intros Hsound. unfold ListN.
  destruct (statIsDir fs p) as [e|[|]]; [done| |done].
  destruct (readDir fs p) as [e|entries]; [done|].
  intros Hl. split; [done|]. exists entries. split; [done|].
  destruct (listEntries_listed fs fuel p entries [] (logRead p l) nodes l' Hsound Hl)
    as (ns & -> & Hns & Hs & Hsub). done.
Qed.

(** ** The directories a walk reads *)

Lemma reaches_trans {uni : Unicode} fs p q r : reaches fs p q -> reaches fs q r -> reaches fs p r.
Proof.
  intros Hpq. induction 1 as [|r entries e Hqr IH Hread Hin Hdir Hskip]; [done|].
  by eapply reaches_child.
Qed.

Lemma scanEntries_reads {uni : Unicode} fs p entries rec :
  readDir fs p = inr entries ->
  (forall q l r l', rec q l = Some (r, l') ->
     exists visited, reads l' = (reads l ++ visited)%list /\ Forall (reaches fs q) visited) ->
  forall rest l r l', (forall e, In e rest -> In e entries) ->
    scanEntries rec p rest l = Some (r, l') ->
    exists visited, reads l' = (reads l ++ visited)%list /\ Forall (reaches fs p) visited.
Proof.
  intros Hread Hrec. induction rest as [|entry rest IH]; intros l r l' Hsub; simpl.
  { intros [= <- <-]. exists []. by rewrite app_nil_r. }
  assert (In entry entries) as Hin by (apply Hsub; by left).
  assert (forall e, In e rest -> In e entries) as Hsub' by (intros e He; apply Hsub; by right).
  destruct (entryIsDir entry) eqn:Hdir.
  - destruct (shouldSkipDir (entryName entry)) eqn:Hskip; [by apply IH|].
    assert (reaches fs p (joinPath p (entryName entry))) as Hchild.
    { eapply reaches_child; eauto. constructor. }
    destruct (rec (joinPath p (entryName entry)) l) as [[[e|[|]] l1]|] eqn:Hcall; [| | |done].
    + intros [= <- <-]. destruct (Hrec _ _ _ _ Hcall) as (visited & Hv & Hall).
      exists visited. split; [done|].
      eapply Forall_impl; [exact Hall|]. intros q. by apply reaches_trans.
    + intros [= <- <-]. destruct (Hrec _ _ _ _ Hcall) as (visited & Hv & Hall).
      exists visited. split; [done|].
      eapply Forall_impl; [exact Hall|]. intros q. by apply reaches_trans.
    + intros Hscan. destruct (Hrec _ _ _ _ Hcall) as (visited & Hv & Hall).
      destruct (IH _ _ _ Hsub' Hscan) as (visited' & Hv' & Hall').
      exists (visited ++ visited')%list. split; [by rewrite Hv', Hv, app_assoc|].
      apply Forall_app. split; [|done].
      eapply Forall_impl; [exact Hall|]. intros q. by apply reaches_trans.
  - destruct (isMarkdown (entryName entry)); [|by apply IH].
    intros [= <- <-]. exists []. by rewrite app_nil_r.
Qed.

Lemma HasMarkdownN_reads {uni : Unicode} fs fuel :
  forall p l r l', HasMarkdownN fs fuel p l = Some (r, l') ->
    exists visited, reads l' = (reads l ++ visited)%list /\ Forall (reaches fs p) visited.
Proof.
  induction fuel as [|fuel IH]; intros p l r l'; simpl; [done|].
  destruct (cache l !! p).
  { intros [= <- <-]. exists []. by rewrite app_nil_r. }
  destruct (readDir fs p) as [e|entries] eqn:Hread.
  { intros [= <- <-]. exists [p]. split; [done|]. repeat constructor. }
  intros Hscan.
  destruct (scanEntries_reads fs p entries _ Hread IH entries _ _ _ (fun e H => H) Hscan)
    as (visited & Hv & Hall).
  exists (p :: visited). split; [by rewrite Hv; simpl; rewrite <- app_assoc|].
  constructor; [constructor|done].
Qed.

Lemma listEntries_reads {uni : Unicode} fs fuel p entries :
  readDir fs p = inr entries ->
  forall rest nodes l r l', (forall e, In e rest -> In e entries) ->
    listEntries fs fuel p rest nodes l = Some (r, l') ->
    exists visited, reads l' = (reads l ++ visited)%list /\ Forall (reaches fs p) visited.
Proof.
  intros Hread. induction rest as [|entry rest IH]; intros nodes l r l' Hsub; simpl.
  { intros [= <- <-]. exists []. by rewrite app_nil_r. }
  assert (In entry entries) as Hin by (apply Hsub; by left).
  assert (forall e, In e rest -> In e entries) as Hsub' by (intros e He; apply Hsub; by right).
  destruct (entryIsDir entry) eqn:Hdir.
  - destruct (shouldSkipDir (entryName entry)) eqn:Hskip; [by apply IH|].
    assert (reaches fs p (joinPath p (entryName entry))) as Hchild.
    { eapply reaches_child; eauto. constructor. }
    destruct (HasMarkdownN fs fuel (joinPath p (entryName entry)) l) as [[[e|[|]] l1]|] eqn:Hcall;
      [| | |done].
    + intros [= <- <-]. destruct (HasMarkdownN_reads _ _ _ _ _ _ Hcall) as (visited & Hv & Hall).
      exists visited. split; [done|].
      eapply Forall_impl; [exact Hall|]. intros q. by apply reaches_trans.
    + intros Hl. destruct (HasMarkdownN_reads _ _ _ _ _ _ Hcall) as (visited & Hv & Hall).
      destruct (IH _ _ _ _ Hsub' Hl) as (visited' & Hv' & Hall').
      exists (visited ++ visited')%list. split; [by rewrite Hv', Hv, app_assoc|].
      apply Forall_app. split; [|done].
      eapply Forall_impl; [exact Hall|]. intros q. by apply reaches_trans.
    + intros Hl. destruct (HasMarkdownN_reads _ _ _ _ _ _ Hcall) as (visited & Hv & Hall).
      destruct (IH _ _ _ _ Hsub' Hl) as (visited' & Hv' & Hall').
      exists (visited ++ visited')%list. split; [by rewrite Hv', Hv, app_assoc|].
      apply Forall_app. split; [|done].
      eapply Forall_impl; [exact Hall|]. intros q. by apply reaches_trans.
  - destruct (isMarkdown (entryName entry)); simpl; by apply IH.
Qed.

Lemma ListN_reads {uni : Unicode} fs fuel p l r l' :
  ListN fs fuel p l = Some (r, l') ->
  exists visited, reads l' = (reads l ++ visited)%list /\ Forall (reaches fs p) visited.
Proof.
  unfold ListN.
  destruct (statIsDir fs p) as [e|[|]];
    [intros [= <- <-]; exists []; by rewrite app_nil_r| |
     intros [= <- <-]; exists []; by rewrite app_nil_r].
  destruct (readDir fs p) as [e|entries] eqn:Hread.
  { intros [= <- <-]. exists [p]. split; [done|]. repeat constructor. }
  intros Hl.
  destruct (listEntries_reads fs fuel p entries Hread entries [] _ _ _ (fun e H => H) Hl)
    as (visited & Hv & Hall).
  exists (p :: visited). split; [by rewrite Hv; simpl; rewrite <- app_assoc|].
  constructor; [constructor|done].
Qed.

(** ** Errors and the cache *)

Lemma length_append (a b : string) :
  String.length (String.append a b) = (String.length a + String.length b)%nat.
Proof.
  induction a as [|x a IH]; [done|].
  change (S (String.length (String.append a b)) = S (String.length a + String.length b)).
  by rewrite IH.
Qed.

Lemma joinPath_length base part :
  part <> EmptyString -> (String.length base < String.length (joinPath base part))%nat.
Proof.
  intros Hpart. unfold joinPath. destruct (String.eqb_spec base EmptyString) as [->|Hb].
  - destruct part; [done|simpl; lia].
  - rewrite length_append. simpl. lia.
Qed.

Lemma outside_child p name k :
  name <> EmptyString -> outside p k -> outside (joinPath p name) k.
Proof.
  intros Hname [Hlen Hne]. pose proof (joinPath_length p name Hname) as Hjl.
  split; [lia|]. intros ->. lia.
Qed.

Lemma scanEntries_frame {uni : Unicode} fs p entries rec :
  entriesNamed fs -> readDir fs p = inr entries ->
  (forall q l r l', rec q l = Some (r, l') ->
     forall k, outside q k -> cache l' !! k = cache l !! k) ->
  forall rest l r l', (forall e, In e rest -> In e entries) ->
    scanEntries rec p rest l = Some (r, l') ->
    (forall k, outside p k -> cache l' !! k = cache l !! k) /\
    (forall e, r = inl e -> cache l' !! p = cache l !! p).
Proof.
  intros Hnamed Hread Hrec. induction rest as [|entry rest IH]; intros l r l' Hsub; simpl.
  { intros [= <- <-]. split; [|done]. intros k [_ Hk]. simpl. by rewrite lookup_insert_ne. }
  assert (In entry entries) as Hin by (apply Hsub; by left).
  assert (forall e, In e rest -> In e entries) as Hsub' by (intros e He; apply Hsub; by right).
  assert (entryName entry <> EmptyString) as Hname by (by eapply Hnamed).
  assert (outside (joinPath p (entryName entry)) p) as Hp.
  { pose proof (joinPath_length p (entryName entry) Hname). split; [lia|]. intros Heq.
    rewrite <- Heq in H at 1. lia. }
  destruct (entryIsDir entry) eqn:Hdir.
  - destruct (shouldSkipDir (entryName entry)) eqn:Hskip; [by apply IH|].
    destruct (rec (joinPath p (entryName entry)) l) as [[[e|[|]] l1]|] eqn:Hcall; [| | |done].
    + intros [= <- <-]. pose proof (Hrec _ _ _ _ Hcall) as Hf. split.
      * intros k Hk. by apply Hf, outside_child.
      * intros _ _. by apply Hf.
    + intros [= <- <-]. pose proof (Hrec _ _ _ _ Hcall) as Hf. split; [|done].
      intros k Hk. simpl. rewrite lookup_insert_ne by (by destruct Hk).
      by apply Hf, outside_child.
    + intros Hscan. pose proof (Hrec _ _ _ _ Hcall) as Hf.
      destruct (IH _ _ _ Hsub' Hscan) as [Hk He]. split.
      * intros k Hko. rewrite (Hk k Hko). by apply Hf, outside_child.
      * intros e Hr. rewrite (He e Hr). by apply Hf.
  - destruct (isMarkdown (entryName entry)); [|by apply IH].
    intros [= <- <-]. split; [|done]. intros k [_ Hk]. simpl. by rewrite lookup_insert_ne.
Qed.

Lemma HasMarkdownN_frame {uni : Unicode} fs fuel :
  entriesNamed fs ->
  forall p l r l', HasMarkdownN fs fuel p l = Some (r, l') ->
    (forall k, outside p k -> cache l' !! k = cache l !! k) /\
    (forall e, r = inl e -> cache l' !! p = None).
Proof.
  intros Hnamed. induction fuel as [|fuel IH]; intros p l r l'; simpl; [done|].
  destruct (cache l !! p) eqn:Hhit.
  { by intros [= <- <-]. }
  destruct (readDir fs p) as [e|entries] eqn:Hread.
  { by intros [= <- <-]. }
  intros Hscan.
  destruct (scanEntries_frame fs p entries (HasMarkdownN fs fuel) Hnamed Hread
              (fun q l0 r0 l0' H => proj1 (IH q l0 r0 l0' H))
              entries _ _ _ (fun e H => H) Hscan) as [Hk He].
  split; [done|]. intros e Hr. by rewrite (He e Hr).
Qed.

Lemma HasMarkdownN_reads_first {uni : Unicode} fs fuel p l r l' :
  cache l !! p = None -> HasMarkdownN fs fuel p l = Some (r, l') ->
  exists visited, reads l' = (reads l ++ p :: visited)%list.
Proof.
  intros Hmiss. destruct fuel as [|fuel]; simpl; [done|]. rewrite Hmiss.
  destruct (readDir fs p) as [e|entries] eqn:Hread.
  { intros [= <- <-]. by exists []. }
  intros Hscan.
  destruct (scanEntries_reads fs p entries _ Hread (HasMarkdownN_reads fs fuel)
              entries _ _ _ (fun e H => H) Hscan) as (visited & Hv & _).
  exists visited. rewrite Hv. simpl. by rewrite <- app_assoc.
Qed.

(** ** Properties of the filesystem loader *)

(** X6. What [List] returns: when the loader's cache tells the truth and
    [List] returns nodes for [p], then [p] is a directory and the nodes are,
    in the order of the directory's entries, one closed directory node for
    every subdirectory outside the skip list that holds a document somewhere
    below it and one file node for every document of the directory itself,
    each with the path of [p] joined with the entry's name; the cache still
    tells the truth afterwards.  On a file system of finite depth below [p]
    the call returns for every large enough recursion budget. *)
Theorem List_shows_documents_and_their_directories {uni : Unicode} (fs : FileSystem) (p : string) :
  (forall fuel l nodes l',
      cacheSound fs (cache l) ->
      ListN fs fuel p l = Some (inr nodes, l') ->
      statIsDir fs p = inr true /\
      exists entries,
        readDir fs p = inr entries /\ listed fs p entries nodes /\
        cacheSound fs (cache l') /\ cache l ⊆ cache l') /\
  (finiteBelow fs p ->
     exists k, forall fuel l, (k <= fuel)%nat ->
       exists r l', ListN fs fuel p l = Some (r, l')).
Proof.
  split.
  - intros fuel l nodes l'. apply ListN_listed.
  - apply ListN_returns.
Qed.

Lemma List_shows_documents_and_their_directories_witness :
  statIsDir demoFS EmptyString = inr true /\
  exists entries,
    readDir demoFS EmptyString = inr entries /\
    listed demoFS EmptyString entries
      [newFile "A.md" "A.md"; newFile "b.md" "b.md"; newDir "sub" "sub"] /\
    cacheSound demoFS (<["sub" := true]> ∅) /\
    (∅ : gmap string bool) ⊆ <["sub" := true]> ∅.
Proof.
  refine (proj1 (List_shows_documents_and_their_directories demoFS EmptyString)
            8%nat NewFSLoader
            [newFile "A.md" "A.md"; newFile "b.md" "b.md"; newDir "sub" "sub"]
            (mkFSLoader (<["sub" := true]> ∅) [EmptyString; "sub"]) _ _).
  - intros q b. simpl. rewrite lookup_empty. discriminate.
  - vm_compute. reflexivity.
Defined.

(** X7. [HasMarkdown] answers truthfully: when the cache tells the truth,
    an answer [true] means that a walk from [p] that stays out of the
    skip-list directories reaches a document, an answer [false] means that
    the whole subtree could be read and holds none; and the cache tells the
    truth afterwards.  On a file system of finite depth below [p] the call
    returns for every large enough recursion budget. *)
Theorem HasMarkdown_answers_truthfully {uni : Unicode} (fs : FileSystem) (p : string) :
  (forall fuel l b l',
      cacheSound fs (cache l) ->
      HasMarkdownN fs fuel p l = Some (inr b, l') ->
      (b = true -> hasDoc fs p) /\ (b = false -> noDocs fs p) /\
      cacheSound fs (cache l')) /\
  (finiteBelow fs p ->
     exists k, forall fuel l, (k <= fuel)%nat ->
       exists r l', HasMarkdownN fs fuel p l = Some (r, l')).
Proof.
  split.
  - intros fuel l b l' Hsound Hcall.
    destruct (HasMarkdownN_outcome fs fuel _ _ _ _ Hcall) as (_ & _ & _ & Hs & _).
    destruct (Hs Hsound) as (Hs' & Ht & Hf).
    split; [by intros ->; apply Ht|]. split; [by intros ->; apply Hf|done].
  - apply HasMarkdownN_returns.
Qed.

Lemma HasMarkdown_answers_truthfully_witness :
  (true = true -> hasDoc demoFS EmptyString) /\ (true = false -> noDocs demoFS EmptyString) /\
  cacheSound demoFS (<[EmptyString := true]> ∅).
Proof.
  refine (proj1 (HasMarkdown_answers_truthfully demoFS EmptyString)
            8%nat NewFSLoader true (mkFSLoader (<[EmptyString := true]> ∅) [EmptyString]) _ _).
  - intros q b. simpl. rewrite lookup_empty. discriminate.
  - vm_compute. reflexivity.
Defined.

(** X8. The loader stays below the directory it is asked for and out of the
    skip list: every directory that a call of [HasMarkdown] or of [List] for
    [p] reads is [p] itself or is reached from [p] through directory entries
    whose names are not on the skip list. *)
Theorem loader_reads_stay_out_of_the_skip_list {uni : Unicode}
  (fs : FileSystem) (fuel : nat) (p : string)
  (l : FSLoader) :
  (forall r l', HasMarkdownN fs fuel p l = Some (r, l') ->
     exists visited, reads l' = (reads l ++ visited)%list /\ Forall (reaches fs p) visited) /\
  (forall r l', ListN fs fuel p l = Some (r, l') ->
     exists visited, reads l' = (reads l ++ visited)%list /\ Forall (reaches fs p) visited).
Proof.
  split.
  - intros r l'. apply HasMarkdownN_reads.
  - intros r l'. apply ListN_reads.
Qed.

Lemma loader_reads_stay_out_of_the_skip_list_witness :
  exists visited,
    [EmptyString; "sub"] = (reads NewFSLoader ++ visited)%list /\
    Forall (reaches demoFS EmptyString) visited.
Proof.
  refine (proj2 (loader_reads_stay_out_of_the_skip_list demoFS 8 EmptyString NewFSLoader)
            (inr [newFile "A.md" "A.md"; newFile "b.md" "b.md"; newDir "sub" "sub"])
            (mkFSLoader (<["sub" := true]> ∅) [EmptyString; "sub"]) _).
  vm_compute. reflexivity.
Defined.

(** X9. A failure is not cached: when [HasMarkdown] for [p] returns an
    error (a directory below [p] could not be read), the cache holds no
    answer for [p] afterwards, and no entry for a path that is not [p] and not
    longer than [p] has changed; so the next call for [p] reads the directory
    [p] again.  (Directory entries have non-empty names.) *)
Theorem HasMarkdown_does_not_cache_a_failure {uni : Unicode}
  (fs : FileSystem) (fuel : nat) (p : string)
  (l l' : FSLoader) (e : Error) :
  entriesNamed fs ->
  HasMarkdownN fs fuel p l = Some (inl e, l') ->
  cache l' !! p = None /\
  (forall k, outside p k -> cache l' !! k = cache l !! k) /\
  (forall fuel' r l'', HasMarkdownN fs fuel' p l' = Some (r, l'') ->
     exists visited, reads l'' = (reads l' ++ p :: visited)%list).
Proof.
  intros Hnamed Hcall.
  destruct (HasMarkdownN_frame fs fuel Hnamed _ _ _ _ Hcall) as [Hk He].
  assert (cache l' !! p = None) as Hp by (by eapply He).
  split; [done|]. split; [done|].
  intros fuel' r l''. by apply HasMarkdownN_reads_first.
Qed.

Lemma lockedFS_named : entriesNamed lockedFS.
Proof.
  intros q entries e. simpl.
  destruct (String.eqb q EmptyString); [|destruct (String.eqb q "notes")].
  - intros [= <-] [<-|[<-|[]]]; done.
  - intros [= <-] [<-|[]]; done.
  - done.
Qed.

Lemma HasMarkdown_does_not_cache_a_failure_witness :
  cache (mkFSLoader (<["notes" := false]> ∅) [EmptyString; "notes"; "locked"]) !! EmptyString = None /\
  (forall k, outside EmptyString k ->
     cache (mkFSLoader (<["notes" := false]> ∅) [EmptyString; "notes"; "locked"]) !! k
     = cache NewFSLoader !! k) /\
  (forall fuel' r l'',
     HasMarkdownN lockedFS fuel' EmptyString
       (mkFSLoader (<["notes" := false]> ∅) [EmptyString; "notes"; "locked"]) = Some (r, l'') ->
     exists visited,
       reads l'' = ([EmptyString; "notes"; "locked"] ++ EmptyString :: visited)%list).
Proof.
  refine (HasMarkdown_does_not_cache_a_failure lockedFS 8 EmptyString NewFSLoader
            (mkFSLoader (<["notes" := false]> ∅) [EmptyString; "notes"; "locked"])
            (errExternal "permission denied") _ _).
  - exact lockedFS_named.
  - vm_compute. reflexivity.
Defined.

(** ** The tag-filtered tree *)

Lemma lookupPath_app a b n :
  lookupPath (a ++ b) n = (x ← lookupPath a n; lookupPath b x).
Proof.
  revert n. induction a as [|part a IH]; intros n; simpl; [done|].
  destruct (ChildByName n part) as [c|]; simpl; [apply IH|done].
Qed.

Lemma insertPathParts_leaf parts parentPath n :
  parts <> [] ->
  exists x, lookupPath parts (insertPathParts parts parentPath n) = Some x /\
            Name x = List.last parts EmptyString /\
            IsDir x = false /\ Open x = false /\ Children x = [].
Proof.
  revert parentPath n. induction parts as [|part rest IH]; intros parentPath n Hne; [done|].
  rewrite insertPathParts_step. cbv zeta.
  destruct rest as [|part' rest].
  - (* the last segment *)
    destruct (ChildByName n part) as [c|] eqn:Hc.
    + simpl lookupPath. rewrite ChildByName_update by done.
      rewrite String.eqb_refl, Hc. simpl. eexists. split; [done|].
      apply find_some_name in Hc as [_ Hname]. done.
    + simpl lookupPath.
      change (setChildren n (Children n ++ [?x])%list) with (AddChild n x).
      rewrite ChildByName_AddChild, Hc. simpl. rewrite String.eqb_refl. simpl.
      eexists. split; [done|]. done.
  - remember (part' :: rest) as rest' eqn:Hrest.
    assert (rest' <> []) as Hne' by (by subst).
    assert (List.last (part :: rest') EmptyString = List.last rest' EmptyString) as ->
      by (by subst).
    destruct (ChildByName n part) as [c|] eqn:Hc.
    + simpl lookupPath.
      rewrite ChildByName_update by (intros; apply insertPathParts_Name).
      rewrite String.eqb_refl, Hc. simpl. by apply IH.
    + simpl lookupPath.
      change (setChildren n (Children n ++ [?x])%list) with (AddChild n x).
      rewrite ChildByName_AddChild, Hc, insertPathParts_Name. simpl.
      rewrite String.eqb_refl. simpl. by apply IH.
Qed.

Lemma trim_idem (p : ascii -> bool) s :
  trimRight p (trimLeft p (trimRight p (trimLeft p s))) = trimRight p (trimLeft p s).
Proof.
  destruct (trimLeft_head p s) as [->|(c & r & -> & Hc)]; [done|].
  destruct (trimRight_head p c r Hc) as (r' & Hr). rewrite Hr.
  simpl trimLeft. rewrite Hc. rewrite <- Hr. apply trimRight_idem.
Qed.

Lemma TrimSlashes_idem s : TrimSlashes (TrimSlashes s) = TrimSlashes s.
Proof. apply trim_idem. Qed.

Lemma insertTrimmed_filter root relPaths :
  insertTrimmed root relPaths =
  insertTrimmed root
    (List.filter (fun rel => negb (String.eqb rel EmptyString)) (map TrimSlashes relPaths)).
Proof.
  unfold insertTrimmed. revert root.
  induction relPaths as [|rel relPaths IH]; intros root; simpl; [done|].
  destruct (String.eqb (TrimSlashes rel) EmptyString) eqn:He; simpl; [apply IH|].
  rewrite TrimSlashes_idem, He. apply IH.
Qed.

Lemma insertTrimmed_app root relPaths rel :
  insertTrimmed root (relPaths ++ [rel]) =
    if String.eqb (TrimSlashes rel) EmptyString then insertTrimmed root relPaths
    else insertPath (insertTrimmed root relPaths) (TrimSlashes rel).
Proof. unfold insertTrimmed. rewrite fold_left_app. done. Qed.

Lemma sortedCopy_leaf_inv x x' : sortedCopy x x' -> Children x = [] -> Children x' = [].
Proof.
  intros [n cs cs' Hperm HF] Hx. simpl. rewrite Hx in Hperm.
  apply Permutation_nil_r in Hperm. subst cs. by inversion HF.
Qed.

(** ** Properties of the tag-filtered tree *)

(** X10. [insertPath] makes its path a file leaf: after the call the
    segments of the path lead to a node that has the name of the last segment,
    is not a directory, is closed and has no children, so nothing lies below
    the path any more, a directory that stood there before included.  In the
    tree [buildFilteredTree] returns this holds for the path given last. *)
Theorem insertPath_ends_in_a_file_leaf {uni : Unicode} (sorter : SliceSorter) :
  (forall root rel,
      exists n,
        lookupPath (Split rel "/"%char) (insertPath root rel) = Some n /\
        Name n = List.last (Split rel "/"%char) EmptyString /\
        IsDir n = false /\ Open n = false /\ Children n = [] /\
        forall more, more <> [] ->
          lookupPath (Split rel "/"%char ++ more) (insertPath root rel) = None) /\
  (forall displayRoot relPaths rel,
      TrimSlashes rel <> EmptyString ->
      exists root n,
        buildFilteredTree displayRoot (relPaths ++ [rel]) = Some root /\
        lookupPath (Split (TrimSlashes rel) "/"%char) root = Some n /\
        Name n = List.last (Split (TrimSlashes rel) "/"%char) EmptyString /\
        IsDir n = false /\ Open n = false /\ Children n = []).
Proof.
  split.
  - intros root rel. unfold insertPath.
    destruct (insertPathParts_leaf (Split rel "/"%char) EmptyString root (Split_nonempty _ _))
      as (n & Hn & Hname & Hd & Ho & Hc).
    exists n. repeat (split; [done|]).
    intros [|part more] Hmore; [done|].
    rewrite lookupPath_app, Hn. simpl. unfold ChildByName. by rewrite Hc.
  - intros displayRoot relPaths rel Hrel. unfold buildFilteredTree.
    destruct (sortTree_ordered (insertTrimmed (newRootNode displayRoot) (relPaths ++ [rel])))
      as (root & Hroot & _).
    pose proof (sortTreeN_sortedCopy _ _ _ Hroot) as Hcopy.
    destruct (insertTrimmed_invariants (newRootNode displayRoot) (relPaths ++ [rel]))
      as (_ & Hdist & _);
      [done|by apply siblingsDistinct_leaf|by apply pathsJoined_leaf|].
    rewrite insertTrimmed_app in Hcopy, Hdist.
    destruct (String.eqb_spec (TrimSlashes rel) EmptyString) as [?|_]; [done|].
    unfold insertPath in Hcopy, Hdist.
    destruct (insertPathParts_leaf (Split (TrimSlashes rel) "/"%char) EmptyString
                (insertTrimmed (newRootNode displayRoot) relPaths) (Split_nonempty _ _))
      as (x & Hx & Hname & Hd & Ho & Hc).
    destruct (sortedCopy_lookup _ _ Hcopy Hdist _ _ Hx) as (n & Hn & Hxn).
    exists root, n. split; [done|]. split; [done|].
    pose proof (sortedCopy_leaf_inv _ _ Hxn Hc) as Hc'.
    apply sortedCopy_same in Hxn as (Hnm & _ & Hdir & Hop & _).
    repeat split; congruence.
Qed.

Lemma insertPath_ends_in_a_file_leaf_witness :
  exists root n,
    buildFilteredTree (sorter := insertionSorter) "docs" (["a/b.md"; "c.md"] ++ ["/a/"]) = Some root /\
    lookupPath (Split (TrimSlashes "/a/") "/"%char) root = Some n /\
    Name n = List.last (Split (TrimSlashes "/a/") "/"%char) EmptyString /\
    IsDir n = false /\ Open n = false /\ Children n = [].
Proof.
  apply (proj2 (insertPath_ends_in_a_file_leaf insertionSorter) "docs" ["a/b.md"; "c.md"] "/a/").
  vm_compute. discriminate.
Defined.

(** X11. [buildFilteredTree] looks at its paths only after [strings.Trim]
    has taken the slashes off both ends, and passes over those of which
    nothing is left: the tree is the one built from the trimmed paths that
    are not empty. *)
Theorem buildFilteredTree_trims_and_skips {uni : Unicode}
  (sorter : SliceSorter) (displayRoot : string)
  (relPaths : list string) :
  buildFilteredTree displayRoot relPaths =
  buildFilteredTree displayRoot
    (List.filter (fun rel => negb (String.eqb rel EmptyString)) (map TrimSlashes relPaths)).
Proof. unfold buildFilteredTree. by rewrite <- insertTrimmed_filter. Qed.

(** ** The state of a search *)

Section SearchState.
Context {VP : Type} {viewport : Viewport VP} {collab : Collaborators} {uni : Unicode}.

Lemma searchIndexValid_moved (m : Model VP) v :
  searchIndexValid m -> searchIndexValid (setContentVP m v).
Proof. done. Qed.

Lemma gotoSearchMatch_valid (m : Model VP) :
  searchIndexValid m -> exists m', gotoSearchMatch m = Some m' /\ searchIndexValid m'.
Proof.
  intros Hv. destruct (gotoSearchMatch_moves m) as (v & Hgo).
  { destruct Hv as [[Hms _]|Hv]; [right; by apply searchMatches_nil_len|left; lia]. }
  exists (setContentVP m v). split; [done|]. by apply searchIndexValid_moved.
Qed.

Lemma lenMatches_zero (m : Model VP) : lenMatches m = 0 -> searchMatches m = [].
Proof. unfold lenMatches. destruct (searchMatches m); [done|simpl; lia]. Qed.

(** [performSearch] returns exactly when its search does, and leaves a valid
    index. *)
Lemma performSearch_valid query resetIndex (m : Model VP) ms :
  findSearchMatches (renderedContent m) query = Some ms ->
  exists m', performSearch query resetIndex m = Some m' /\ searchIndexValid m'.
Proof.
  intros Hms. unfold performSearch.
  simpl renderedContent. rewrite findSearchMatches_trimmed, Hms. simpl.
  unfold lenMatches. simpl.
  destruct (Z.eqb_spec (Z.of_nat (length ms)) 0) as [Hz|Hnz].
  { eexists. split; [done|]. left. simpl. split; [|done]. destruct ms; [done|simpl in Hz; lia]. }
  assert (0 < Z.of_nat (length ms)) as Hpos by lia.
  destruct (resetIndex || (searchIndex m <? 0) || (searchIndex m >=? Z.of_nat (length ms)))
    eqn:Hb; apply gotoSearchMatch_valid; right; unfold lenMatches; simpl; [lia|].
  apply orb_false_elim in Hb as [Hb Hge]. apply orb_false_elim in Hb as [_ Hlt]. lia.
Qed.

Lemma performSearch_stuck query resetIndex (m : Model VP) :
  findSearchMatches (renderedContent m) query = None ->
  performSearch query resetIndex m = None.
Proof.
  intros Hms. unfold performSearch.
  simpl renderedContent. by rewrite findSearchMatches_trimmed, Hms.
Qed.

Lemma nextSearchMatch_valid (m : Model VP) :
  searchIndexValid m -> exists m', nextSearchMatch m = Some m' /\ searchIndexValid m'.
Proof.
  intros Hv. unfold nextSearchMatch.
  destruct (Z.eqb_spec (lenMatches m) 0) as [Hz|Hnz]; [by exists m|].
  assert (0 < lenMatches m) as Hpos by (unfold lenMatches in *; lia).
  apply gotoSearchMatch_valid. right.
  destruct (Z.ltb_spec (searchIndex m) 0); simpl.
  - unfold lenMatches in *. simpl. lia.
  - rewrite Z.rem_mod_nonneg by lia.
    change (lenMatches (setErr (setSearchIndex m _) None)) with (lenMatches m).
    apply Z.mod_pos_bound. lia.
Qed.

Lemma previousSearchMatch_valid (m : Model VP) :
  searchIndexValid m -> exists m', previousSearchMatch m = Some m' /\ searchIndexValid m'.
Proof.
  intros Hv. unfold previousSearchMatch.
  destruct (Z.eqb_spec (lenMatches m) 0) as [Hz|Hnz]; [by exists m|].
  assert (0 < lenMatches m) as Hpos by (unfold lenMatches in *; lia).
  assert (0 <= searchIndex m < lenMatches m \/ searchIndex m = -1) as Hidx.
  { destruct Hv as [[_ ?]|?]; [by right|by left]. }
  apply gotoSearchMatch_valid. right.
  destruct (Z.leb_spec (searchIndex m) 0); simpl.
  - change (lenMatches (setErr (setSearchIndex m _) None)) with (lenMatches m). lia.
  - change (lenMatches (setErr (setSearchIndex m _) None)) with (lenMatches m). lia.
Qed.

Lemma onContentChanged_valid (m m' : Model VP) :
  searchIndexValid m -> onContentChanged m = Some m' -> searchIndexValid m'.
Proof.
  intros Hv.
  destruct (onContentChanged_cases m)
    as [[Hq H]|[(Hq & Hms & H)|[(prevLine & matches & v & Hq & _ & Hms & Hne & H)
                               |(_ & _ & H)]]];
    rewrite H; [intros [= <-]..|done].
  - done.
  - by left.
  - right. simpl. unfold lenMatches. simpl. by apply reconciledIndex_range.
Qed.

Lemma renderMarkdown_valid (m m' : Model VP) :
  searchIndexValid m -> renderMarkdown m = Some m' -> searchIndexValid m'.
Proof.
  intros Hv. unfold renderMarkdown.
  destruct (renderer m) as [render|]; [|by intros [= <-]].
  destruct (render (rawContent m)) as [e|rendered]; [by intros [= <-]|].
  by apply onContentChanged_valid.
Qed.

(** [renderMarkdown] returns when the search on the new rendered content does. *)
Lemma renderMarkdown_returns (m : Model VP) :
  (forall render rendered,
     renderer m = Some render -> render (rawContent m) = inr rendered ->
     searchQuery m = EmptyString \/ lowersWithin rendered) ->
  exists m', renderMarkdown m = Some m'.
Proof.
  intros Hok. unfold renderMarkdown.
  destruct (renderer m) as [render|]; [|by eexists].
  destruct (render (rawContent m)) as [e|rendered] eqn:Hr; [by eexists|].
  apply onContentChanged_returns. simpl.
  destruct (Hok render rendered eq_refl Hr) as [?|Hin]; [by left|right].
  by apply findSearchMatches_returns.
Qed.

Lemma renderMarkdown_keeps (m m' : Model VP) :
  renderMarkdown m = Some m' ->
  watchChan m' = watchChan m /\ watchedFile m' = watchedFile m /\
  activeAbsPath m' = activeAbsPath m.
Proof.
  unfold renderMarkdown.
  destruct (renderer m) as [render|]; [|by intros [= <-]].
  destruct (render (rawContent m)) as [e|rendered]; [by intros [= <-]|].
  intros Hm.
  destruct (onContentChanged_cases
              (setRenderedContent (setContentVP (setErr m None)
                 (SetContent (contentVP (setErr m None)) rendered)) rendered))
    as [[Hq H]|[(Hq & Hms & H)|[(prevLine & matches & v & Hq & _ & Hms & Hne & H)
                               |(_ & _ & H)]]];
    rewrite H in Hm; by inversion Hm.
Qed.

Lemma reloadActiveFile_valid readFile (m m' : Model VP) readLog :
  searchIndexValid m -> reloadActiveFile readFile m = Some (m', readLog) ->
  searchIndexValid m'.
Proof.
  intros Hv. unfold reloadActiveFile.
  destruct (String.eqb (activeAbsPath m) EmptyString); [by intros [= <- _]|].
  destruct (readFile (activeAbsPath m)) as [e|data]; [by intros [= <- _]|].
  destruct (renderMarkdown (setRawContent m data)) as [m1|] eqn:Hm1; [|done]. simpl.
  intros [= <- _]. apply renderMarkdown_valid in Hm1; [|done]. by destruct (err m1).
Qed.

Lemma reloadActiveFile_returns readFile (m : Model VP) :
  (forall data render rendered,
     readFile (activeAbsPath m) = inr data ->
     renderer m = Some render -> render data = inr rendered ->
     searchQuery m = EmptyString \/ lowersWithin rendered) ->
  exists m' readLog, reloadActiveFile readFile m = Some (m', readLog).
Proof.
  intros Hok. unfold reloadActiveFile.
  destruct (String.eqb (activeAbsPath m) EmptyString); [by eexists _, _|].
  destruct (readFile (activeAbsPath m)) as [e|data] eqn:Hread; [by eexists _, _|].
  destruct (renderMarkdown_returns (setRawContent m data)) as (m1 & ->).
  { intros render rendered. simpl. by apply Hok. }
  by eexists _, _.
Qed.

Lemma reloadActiveFile_keeps readFile (m m' : Model VP) readLog :
  reloadActiveFile readFile m = Some (m', readLog) ->
  watchChan m' = watchChan m /\ watchedFile m' = watchedFile m /\
  activeAbsPath m' = activeAbsPath m /\
  (readLog = [] \/ readLog = [activeAbsPath m]).
Proof.
  unfold reloadActiveFile.
  destruct (String.eqb (activeAbsPath m) EmptyString); [intros [= <- <-]; auto|].
  destruct (readFile (activeAbsPath m)) as [e|data]; [intros [= <- <-]; auto|].
  destruct (renderMarkdown (setRawContent m data)) as [m1|] eqn:Hm1; [|done]. simpl.
  intros [= <- <-]. apply renderMarkdown_keeps in Hm1 as (? & ? & ?).
  destruct (err m1); simpl; auto.
Qed.

End SearchState.

(** ** The lines of the matches *)

Lemma lineOf_mono s p p' : (p <= p')%nat -> lineOf s p <= lineOf s p'.
Proof.
  unfold lineOf. revert p p'. induction s as [|c s IH]; intros p p' Hle.
  { by destruct p, p'. }
  destruct p as [|p]; simpl.
  { destruct p'; simpl; [done|]. pose proof (CountNewlines_bounds (takeBytes p' s)).
    destruct (Ascii.eqb c newline); lia. }
  destruct p' as [|p']; [lia|]. simpl. specialize (IH p p'). lia.
Qed.

Lemma lineOf_bound s p : 0 <= lineOf s p <= CountNewlines s.
Proof.
  unfold lineOf. revert p. induction s as [|c s IH]; intros p; [by destruct p|].
  destruct p as [|p]; simpl.
  - pose proof (CountNewlines_bounds s). destruct (Ascii.eqb c newline); lia.
  - specialize (IH p). destruct (Ascii.eqb c newline); lia.
Qed.

Lemma scanFrom_ascending s q from ps :
  scanFrom s q from ps -> StronglySorted (fun p p' => (p <= p')%nat) ps.
Proof.
  intros Hscan. apply scanFrom_apart in Hscan.
  induction Hscan as [|p ps Hs IH Hall]; constructor; [done|].
  eapply Forall_impl; [exact Hall|]. simpl. intros; lia.
Qed.

Lemma scanFrom_count s q from ps :
  scanFrom s q from ps -> ps <> [] ->
  (from + length ps * String.length q <= String.length s)%nat.
Proof.
  induction 1 as [|from p ps Hle [Hocc _] Hfirst Hrest IH]; intros Hne; [done|].
  destruct ps as [|p' ps]; simpl in *; [lia|].
  specialize (IH ltac:(done)). lia.
Qed.

Lemma map_ascending (f : nat -> Z) ps :
  (forall p p', (p <= p')%nat -> f p <= f p') ->
  StronglySorted (fun p p' => (p <= p')%nat) ps -> StronglySorted Z.le (map f ps).
Proof.
  intros Hf. induction 1 as [|p ps Hs IH Hall]; simpl; constructor; [done|].
  apply Forall_map. eapply Forall_impl; [exact Hall|]. simpl. auto.
Qed.

(** Lowering ASCII text moves no byte: the lowered text has the newlines of
    the text, and its offsets are those of the text. *)
Lemma lowerASCII_newlines s p : lineOf (lowerASCII s) p = lineOf s p.
Proof.
  unfold lineOf. revert p. induction s as [|c s IH]; intros [|p]; simpl; try done.
  rewrite IH. f_equal. unfold lowerByte.
  destruct (isUpper c) eqn:Hu; [|done].
  unfold isUpper in Hu. apply andb_true_iff in Hu as [Hlo Hhi].
  apply Nat.leb_le in Hlo, Hhi.
  assert (Ascii.eqb c newline = false) as ->.
  { apply Ascii.eqb_neq. intros ->. change (nat_of_ascii newline) with 10%nat in Hlo. lia. }
  assert (Ascii.eqb (ascii_of_nat (nat_of_ascii c + 32)) newline = false) as ->; [|done].
  apply Ascii.eqb_neq. intros Heq.
  apply (f_equal nat_of_ascii) in Heq. rewrite nat_ascii_embedding in Heq by lia.
  change (nat_of_ascii newline) with 10%nat in Heq. lia.
Qed.

Lemma ascii_lowersWithin {collab : Collaborators} {uni : Unicode} content :
  isASCII (ansiStrip content) = true -> lowersWithin content.
Proof. intros Ha. unfold lowersWithin. by rewrite ToLower_length. Qed.

(** ** Properties of the search and of the file watch *)

(** X12. The index of the current match stays valid: it is -1 with an
    empty list of matches, or an index into the matches.  [clearSearch] and
    [performSearch] leave it so from any state; [nextSearchMatch],
    [previousSearchMatch], [onContentChanged], [renderMarkdown],
    [reloadActiveFile] and [handleFileEvent] keep it so.  [nextSearchMatch]
    and [previousSearchMatch] return (no index out of range);
    [performSearch] and [onContentChanged] return when lowering does not make
    the stripped content longer, as on ASCII text. *)
Theorem search_index_stays_valid {uni : Unicode} (VP : Type) (viewport : Viewport VP)
  (collab : Collaborators) (m : Model VP) :
  searchIndexValid (clearSearch m) /\
  (forall query resetIndex m',
      performSearch query resetIndex m = Some m' -> searchIndexValid m') /\
  (forall query resetIndex,
      lowersWithin (renderedContent m) ->
      exists m', performSearch query resetIndex m = Some m') /\
  (searchIndexValid m ->
     (exists m', nextSearchMatch m = Some m' /\ searchIndexValid m') /\
     (exists m', previousSearchMatch m = Some m' /\ searchIndexValid m') /\
     (forall m', onContentChanged m = Some m' -> searchIndexValid m') /\
     (lowersWithin (renderedContent m) -> exists m', onContentChanged m = Some m') /\
     (forall m', renderMarkdown m = Some m' -> searchIndexValid m') /\
     (forall readFile m' readLog,
         reloadActiveFile readFile m = Some (m', readLog) -> searchIndexValid m') /\
     (forall readFile msg m' cmd readLog,
         handleFileEvent readFile msg m = Some (m', cmd, readLog) -> searchIndexValid m')).
Proof.
  split; [by left|]. split; [|split].
  - intros query resetIndex m' Hm'.
    destruct (findSearchMatches (renderedContent m) query) as [ms|] eqn:Hms.
    + destruct (performSearch_valid query resetIndex m ms Hms) as (m1 & Hm1 & Hv).
      congruence.
    + rewrite (performSearch_stuck query resetIndex m Hms) in Hm'. done.
  - intros query resetIndex Hin.
    destruct (findSearchMatches_returns (renderedContent m) query Hin) as (ms & Hms).
    destruct (performSearch_valid query resetIndex m ms Hms) as (m1 & Hm1 & _). by exists m1.
  - intros Hv.
    split; [by apply nextSearchMatch_valid|].
    split; [by apply previousSearchMatch_valid|].
    split; [intros m'; by apply onContentChanged_valid|].
    split.
    { intros Hin. apply onContentChanged_returns. right.
      by apply findSearchMatches_returns. }
    split; [intros m'; by apply renderMarkdown_valid|].
    split; [intros readFile m' readLog; by apply reloadActiveFile_valid|].
    intros readFile msg m' cmd readLog. unfold handleFileEvent.
    destruct (String.eqb (watchedFile m) EmptyString); [by intros [= <- _ _]|].
    destruct (negb _); [by intros [= <- _ _]|].
    destruct (reloadActiveFile readFile m) as [[m1 log1]|] eqn:Hre; [|done].
    simpl. intros [= <- _ _]. by eapply reloadActiveFile_valid.
Qed.

Lemma search_index_stays_valid_witness :
  (exists m', nextSearchMatch helloModel = Some m' /\ searchIndexValid m') /\
  (exists m', previousSearchMatch helloModel = Some m' /\ searchIndexValid m') /\
  (forall m', onContentChanged (collab := plainCollaborators) helloModel = Some m' ->
              searchIndexValid m') /\
  (lowersWithin (collab := plainCollaborators) (renderedContent helloModel) ->
   exists m', onContentChanged (collab := plainCollaborators) helloModel = Some m') /\
  (forall m', renderMarkdown (collab := plainCollaborators) helloModel = Some m' ->
              searchIndexValid m') /\
  (forall readFile m' readLog,
      reloadActiveFile (collab := plainCollaborators) readFile helloModel = Some (m', readLog) ->
      searchIndexValid m') /\
  (forall readFile msg m' cmd readLog,
      handleFileEvent (collab := plainCollaborators) readFile msg helloModel
        = Some (m', cmd, readLog) ->
      searchIndexValid m').
Proof.
  apply (proj2 (proj2 (proj2 (search_index_stays_valid PlainViewport plainViewport
                                plainCollaborators helloModel)))).
  right. vm_compute. split; [discriminate|reflexivity].
Defined.

(** X13. [gotoSearchMatch] scrolls onto a page of the content: with a
    valid index it returns; without matches it leaves the model as it is, and
    otherwise it hands the viewport an offset that is the line of the current
    match cut to the range from 0 to the number of lines less the viewport's
    height (or 0 when that is negative), changing nothing else. *)
Theorem gotoSearchMatch_scrolls_onto_a_page (VP : Type) (viewport : Viewport VP)
  (m : Model VP) :
  searchIndexValid m ->
  (searchMatches m = [] /\ gotoSearchMatch m = Some m) \/
  (exists targetLine offset,
      searchMatches m !! Z.to_nat (searchIndex m) = Some targetLine /\
      gotoSearchMatch m = Some (setContentVP m (SetYOffset (contentVP m) offset)) /\
      0 <= offset <= max (CountNewlines (renderedContent m) + 1 - vpHeight (contentVP m)) 0 /\
      (targetLine < 0 -> offset = 0) /\
      (0 <= targetLine <=
         max (CountNewlines (renderedContent m) + 1 - vpHeight (contentVP m)) 0 ->
       offset = targetLine) /\
      (max (CountNewlines (renderedContent m) + 1 - vpHeight (contentVP m)) 0 < targetLine ->
       offset = max (CountNewlines (renderedContent m) + 1 - vpHeight (contentVP m)) 0)).
Proof.
  intros [[Hms Hidx]|Hidx]; unfold gotoSearchMatch.
  { left. split; [done|]. unfold lenMatches. by rewrite Hms. }
  right.
  destruct (Z.eqb_spec (lenMatches m) 0) as [?|_]; [lia|].
  destruct (Z.ltb_spec (searchIndex m) 0) as [?|_]; [lia|]. simpl.
  pose proof (CountNewlines_bounds (renderedContent m)) as Hn.
  destruct (Z.leb_spec (CountNewlines (renderedContent m) + 1) 0) as [?|_]; [lia|].
  destruct (searchMatches m !! Z.to_nat (searchIndex m)) as [targetLine|] eqn:Hlook.
  2:{ apply lookup_ge_None in Hlook. unfold lenMatches in *. lia. }
  simpl. eexists _, _. split; [done|]. split; [done|].
  set (maxOffset := max _ 0).
  assert (0 <= maxOffset) as Hmax.
  { unfold maxOffset, max. destruct (Z.gtb_spec (CountNewlines (renderedContent m) + 1
                                                  - vpHeight (contentVP m)) 0); lia. }
  unfold clamp.
  destruct (Z.ltb_spec targetLine 0); [lia|].
  destruct (Z.gtb_spec targetLine maxOffset); lia.
Qed.

Lemma gotoSearchMatch_scrolls_onto_a_page_witness :
  (searchMatches helloModel = [] /\ gotoSearchMatch helloModel = Some helloModel) \/
  (exists targetLine offset,
      searchMatches helloModel !! Z.to_nat (searchIndex helloModel) = Some targetLine /\
      gotoSearchMatch helloModel
        = Some (setContentVP helloModel (SetYOffset (contentVP helloModel) offset)) /\
      0 <= offset <= max (CountNewlines (renderedContent helloModel) + 1
                          - vpHeight (contentVP helloModel)) 0 /\
      (targetLine < 0 -> offset = 0) /\
      (0 <= targetLine <=
         max (CountNewlines (renderedContent helloModel) + 1
              - vpHeight (contentVP helloModel)) 0 ->
       offset = targetLine) /\
      (max (CountNewlines (renderedContent helloModel) + 1
            - vpHeight (contentVP helloModel)) 0 < targetLine ->
       offset = max (CountNewlines (renderedContent helloModel) + 1
                     - vpHeight (contentVP helloModel)) 0)).
Proof.
  apply (gotoSearchMatch_scrolls_onto_a_page PlainViewport plainViewport helloModel).
  right. vm_compute. split; [discriminate|reflexivity].
Defined.

(** X14. The lines [findSearchMatches] returns stand in ascending order,
    each between 0 and the number of newlines of the stripped content, and
    there are no more of them than the lowered content has room for
    occurrences of the lowered query.  The function returns when lowering does
    not make the stripped content longer, as on ASCII text. *)
Theorem findSearchMatches_lines_ascend {uni : Unicode} (collab : Collaborators)
  (content query : string) :
  (forall ms,
      findSearchMatches content query = Some ms ->
      StronglySorted Z.le ms /\
      Forall (fun line => 0 <= line <= CountNewlines (ansiStrip content)) ms /\
      Z.of_nat (length ms) * len (ToLower (TrimSpace query))
      <= len (ToLower (ansiStrip content))) /\
  (lowersWithin content -> exists ms, findSearchMatches content query = Some ms) /\
  (isASCII (ansiStrip content) = true -> lowersWithin content).
Proof.
  split; [|split; [apply findSearchMatches_returns|apply ascii_lowersWithin]].
  intros ms Hms.
  assert (0 <= len (ToLower (ansiStrip content))) as Hlen0 by (unfold len; lia).
  assert (TrimSpace query = EmptyString \/ content = EmptyString ->
          StronglySorted Z.le ms /\
          Forall (fun line => 0 <= line <= CountNewlines (ansiStrip content)) ms /\
          Z.of_nat (length ms) * len (ToLower (TrimSpace query))
          <= len (ToLower (ansiStrip content))) as Hempty.
  { intros He. rewrite (findSearchMatches_empty content query He) in Hms.
    injection Hms as <-. split; [apply SSorted_nil|]. split; [apply Forall_nil_2|simpl; lia]. }
  destruct (String.eqb_spec (TrimSpace query) EmptyString) as [Hq|Hq]; [apply Hempty; by left|].
  destruct (String.eqb_spec content EmptyString) as [Hc|Hc]; [apply Hempty; by right|].
  destruct (findSearchMatches_follows_scan content query Hq Hc)
    as (ps & Hscan & [[_ Hps]|[_ Hps]]); rewrite Hps in Hms; [|done].
  injection Hms as <-. split; [|split].
  - apply map_ascending; [apply lineOf_mono|]. by eapply scanFrom_ascending.
  - apply Forall_map, Forall_forall. intros p _. apply lineOf_bound.
  - rewrite length_map. destruct ps as [|p ps]; [simpl; lia|].
    apply scanFrom_count in Hscan; [|done]. unfold len. lia.
Qed.

Lemma findSearchMatches_lines_ascend_witness :
  exists ms, findSearchMatches (collab := plainCollaborators) helloText "hello" = Some ms.
Proof.
  apply (proj1 (proj2 (findSearchMatches_lines_ascend plainCollaborators helloText "hello"))).
  apply (proj2 (proj2 (findSearchMatches_lines_ascend plainCollaborators helloText "hello"))).
  reflexivity.
Defined.

(** X15. A file event never ends the watch: when [handleFileEvent]
    returns, the command it returns is the wait for the next message of the
    watch channel whenever the channel exists; the watched file, the active
    file and the channel are as before; and the file is read at most once.
    It returns when the message is passed over, when the read or the rendering
    fails, and when no query is active or lowering does not make the stripped
    new content longer. *)
Theorem handleFileEvent_keeps_watching {uni : Unicode} (VP : Type) (viewport : Viewport VP)
  (collab : Collaborators) (readFile : string -> Error + string) (msg : fileEventMsg)
  (m : Model VP) :
  (forall m' cmd readLog,
      handleFileEvent readFile msg m = Some (m', cmd, readLog) ->
      cmd = waitForFileEvent m /\
      watchChan m' = watchChan m /\ watchedFile m' = watchedFile m /\
      activeAbsPath m' = activeAbsPath m /\
      (readLog = [] \/ readLog = [activeAbsPath m])) /\
  ((forall data render rendered,
       readFile (activeAbsPath m) = inr data ->
       renderer m = Some render -> render data = inr rendered ->
       searchQuery m = EmptyString \/ lowersWithin rendered) ->
   exists m' readLog,
     handleFileEvent readFile msg m = Some (m', waitForFileEvent m, readLog)).
Proof.
  split.
  - intros m' cmd readLog. unfold handleFileEvent.
    destruct (String.eqb (watchedFile m) EmptyString);
      [intros [= <- <- <-]; repeat split; auto|].
    destruct (negb _); [intros [= <- <- <-]; repeat split; auto|].
    destruct (reloadActiveFile readFile m) as [[m1 log1]|] eqn:Hre; [|done].
    simpl. intros [= <- <- <-].
    apply reloadActiveFile_keeps in Hre as (Hc & Hw & Ha & Hlog).
    unfold waitForFileEvent. rewrite Hc. done.
  - intros Hok. unfold handleFileEvent.
    destruct (String.eqb (watchedFile m) EmptyString); [by eexists _, _|].
    destruct (negb _); [by eexists _, _|].
    destruct (reloadActiveFile_returns readFile m Hok) as (m' & readLog & Hre).
    rewrite Hre. simpl.
    apply reloadActiveFile_keeps in Hre as (Hc & _).
    exists m', readLog. unfold waitForFileEvent. by rewrite Hc.
Qed.

Lemma handleFileEvent_keeps_watching_witness :
  exists m' readLog,
    handleFileEvent (collab := plainCollaborators) fileRewritten
      (mkFileEvent "/docs/a.md" opWrite) searchingModel
    = Some (m', waitForFileEvent searchingModel, readLog).
Proof.
  apply (proj2 (handleFileEvent_keeps_watching PlainViewport plainViewport plainCollaborators
                  fileRewritten (mkFileEvent "/docs/a.md" opWrite) searchingModel)).
  intros data render rendered Hread Hrender Hrendered.
  right. injection Hread as <-. injection Hrender as <-. injection Hrendered as <-.
  unfold lowersWithin. apply Nat.leb_le. vm_compute. reflexivity.
Defined.

(** X22. On content whose stripped text is ASCII the matches are counted
    without overlap and on their lines: with query [aa] the content [aaa]
    gives exactly one match; in general [findSearchMatches] returns, the scan
    works on the stripped content lowered byte by byte, takes the first
    occurrence at or after its position, goes on right behind the end of that
    occurrence (so two reported occurrences never overlap), and reports for
    each occurrence the number of newlines of the stripped content before its
    start, which is also the number of newlines before it in the lowered
    content. *)
Theorem findSearchMatches_on_ascii_content {uni : Unicode} (collab : Collaborators) :
  (forall content, content <> EmptyString -> ansiStrip content = "aaa" ->
     findSearchMatches content "aa" = Some [0]) /\
  (forall content query,
     isASCII (ansiStrip content) = true ->
     TrimSpace query <> EmptyString -> content <> EmptyString ->
     exists ps,
       findSearchMatches content query
       = Some (map (fun p => CountNewlines (takeBytes p (ansiStrip content))) ps) /\
       ToLower (ansiStrip content) = lowerASCII (ansiStrip content) /\
       scanFrom (lowerASCII (ansiStrip content)) (ToLower (TrimSpace query)) 0 ps /\
       StronglySorted
         (fun p p' => (p + String.length (ToLower (TrimSpace query)) <= p')%nat) ps /\
       Forall (fun p => CountNewlines (takeBytes p (lowerASCII (ansiStrip content)))
                        = CountNewlines (takeBytes p (ansiStrip content))) ps).
Proof.
  split.
  - intros content Hne Hstrip. unfold findSearchMatches.
    destruct (String.eqb_spec content EmptyString) as [?|_]; [done|].
    rewrite Hstrip. reflexivity.
  - intros content query Ha Hq Hc.
    destruct (findSearchMatches_scan content query (ascii_lowersWithin content Ha) Hq Hc)
      as (ps & Hscan & Hms).
    rewrite (ToLower_ascii _ Ha) in Hscan.
    exists ps. split; [exact Hms|]. split; [by apply ToLower_ascii|]. split; [done|].
    split; [by eapply scanFrom_apart|].
    apply Forall_forall. intros p _. apply lowerASCII_newlines.
Qed.

Lemma findSearchMatches_on_ascii_content_witness :
  exists ps,
    findSearchMatches (collab := plainCollaborators) helloText " hello "
    = Some (map (fun p => CountNewlines (takeBytes p helloText)) ps) /\
    ToLower helloText = lowerASCII helloText /\
    scanFrom (lowerASCII helloText) "hello" 0 ps /\
    StronglySorted (fun p p' => (p + 5 <= p')%nat) ps /\
    Forall (fun p => CountNewlines (takeBytes p (lowerASCII helloText))
                     = CountNewlines (takeBytes p helloText)) ps.
Proof.
  apply (proj2 (findSearchMatches_on_ascii_content plainCollaborators) helloText " hello ");
    [reflexivity|discriminate|discriminate].
Defined.

(** ** The tree panel *)

Lemma shown_step n pos :
  shown n pos =
    mkTreeLine pos (labelAt n pos) ::
    (if expanded n then shownChildren shown (Children n) 0 pos else []).
Proof.
  destruct n as [nm pth d o cs ld lded]. unfold expanded. simpl.
  f_equal. destruct (d && o && (lded || negb ld)); [|done].
  generalize 0%nat. induction cs as [|c cs IH]; intros i; simpl; [done|].
  by rewrite IH.
Qed.

Lemma formatTreeLabel_some n depth :
  0 <= depth -> exists label, formatTreeLabel n depth = Some label.
Proof.
  intros Hd. unfold formatTreeLabel, Repeat.
  destruct (Z.eqb_spec depth 0); [by eexists|].
  destruct (Z.ltb_spec (depth - 1) 0); simpl; [lia|by eexists].
Qed.

Lemma sameFace_refl n : sameFace n n.
Proof. by repeat split. Qed.

Lemma sameFace_trans a b c : sameFace a b -> sameFace b c -> sameFace a c.
Proof. intros (? & ? & ? & ? & ?) (? & ? & ? & ? & ?). repeat split; congruence. Qed.

Lemma formatTreeLabel_face n n' depth :
  sameFace n n' -> formatTreeLabel n' depth = formatTreeLabel n depth.
Proof. intros (Hn & _ & Hd & Ho & _). unfold formatTreeLabel. by rewrite Hn, Hd, Ho. Qed.

Lemma labelAt_face n n' pos : sameFace n n' -> labelAt n' pos = labelAt n pos.
Proof. intros Hf. unfold labelAt. by rewrite (formatTreeLabel_face n n'). Qed.

Lemma widest_app {styling : Styling} a b start :
  widest (a ++ b) start = widest b (widest a start).
Proof. unfold widest. by rewrite fold_left_app. Qed.

Section WalkProofs.
Context {sorter : SliceSorter} {S : Type} {ld : Loader S} {styling : Styling} {uni : Unicode}.

(** What a call of [EnsureLoaded] that returns leaves of the node. *)
Lemma EnsureLoaded_outcome (n : Node) (st : S) r :
  EnsureLoaded n st = Some r ->
  sameFace n (lrNode r) /\
  ((lrErr r = None /\ negb (IsDir n) || loaded (lrNode r) || negb (loader (lrNode r)) = true) \/
   (exists e, lrErr r = Some e /\ lrNode r = n /\
              IsDir n = true /\ loaded n = false /\ loader n = true)).
Proof.
  unfold EnsureLoaded.
  destruct (negb (IsDir n) || loaded n || negb (loader n)) eqn:Hskip.
  { intros [= <-]. simpl. split; [apply sameFace_refl|]. left. done. }
  apply orb_false_elim in Hskip as [Hskip Hld]. apply orb_false_elim in Hskip as [Hdir Hlded].
  apply negb_false_iff in Hdir, Hld.
  destruct (List (Path n) st) as [[[e|children] st']|]; [| |done].
  - intros [= <-]. simpl. split; [apply sameFace_refl|]. right. by exists e.
  - intros [= <-]. simpl. split; [by repeat split|]. left. split; [done|].
    by rewrite orb_true_r.
Qed.

Lemma walkChildren_shown (walk : Node -> list nat -> WalkState S -> option (Node * WalkState S))
  pos :
  (forall child q w child' w',
      length q = Datatypes.S (length pos) ->
      walk child q w = Some (child', w') ->
      wsLines w' = (wsLines w ++ shown child' q)%list /\
      wsMaxWidth w' = widest (shown child' q) (wsMaxWidth w) /\
      sameFace child child') ->
  forall children i w children' w',
    walkChildren walk children i pos w = Some (children', w') ->
    wsLines w' = (wsLines w ++ shownChildren shown children' i pos)%list /\
    wsMaxWidth w' = widest (shownChildren shown children' i pos) (wsMaxWidth w) /\
    Forall2 sameFace children children'.
Proof.
  intros Hwalk. induction children as [|child rest IH]; intros i w children' w'; simpl.
  { intros [= <- <-]. simpl. rewrite app_nil_r. by repeat split. }
  destruct (walk child (pos ++ [i])%list w) as [[child' w1]|] eqn:Hc; [|done]. simpl.
  destruct (walkChildren walk rest (Datatypes.S i) pos w1) as [[rest' w2]|] eqn:Hr; [|done].
  simpl. intros [= <- <-].
  apply Hwalk in Hc as (Hl1 & Hm1 & Hf1); [|rewrite length_app; simpl; lia].
  apply IH in Hr as (Hl2 & Hm2 & Hf2).
  simpl. split; [by rewrite Hl2, Hl1, <- app_assoc|].
  split; [by rewrite widest_app, Hm2, Hm1|]. by constructor.
Qed.

Lemma walkN_shown fuel :
  forall node pos w node' w',
    walkN fuel (Z.of_nat (length pos)) node pos w = Some (node', w') ->
    wsLines w' = (wsLines w ++ shown node' pos)%list /\
    wsMaxWidth w' = widest (shown node' pos) (wsMaxWidth w) /\
    sameFace node node'.
Proof.
  induction fuel as [|fuel IH]; intros node pos w node' w'; [done|].
  simpl walkN.
  destruct (formatTreeLabel_some node (Z.of_nat (length pos))) as (lbl & Hlbl); [lia|].
  rewrite Hlbl. simpl.
  assert (forall n', sameFace node n' -> labelAt n' pos = lbl) as Hlabel.
  { intros n' Hf. rewrite (labelAt_face node n' pos Hf). unfold labelAt. by rewrite Hlbl. }
  destruct (IsDir node && Open node) eqn:Hopen.
  2:{ intros [= <- <-]. simpl. rewrite shown_step.
      assert (expanded node = false) as -> by (unfold expanded; by rewrite Hopen).
      rewrite (Hlabel node (sameFace_refl _)). split; [done|]. split; [done|].
      apply sameFace_refl. }
  destruct (EnsureLoaded node (wsLoader w)) as [r|] eqn:Hr; [|done]. simpl.
  destruct (EnsureLoaded_outcome _ _ _ Hr) as [Hface [[Hnone Hok]|(e & Hsome & Hn & Hd & Hl & Hld)]].
  - rewrite Hnone. simpl.
    destruct (walkChildren (walkN fuel (Z.of_nat (length pos) + 1)) (Children (lrNode r)) 0 pos _)
      as [[children' w1]|] eqn:Hch; [|done]. simpl.
    intros [= <- <-].
    apply (walkChildren_shown _ pos) in Hch as (Hl1 & Hm1 & Hf1).
    2:{ intros child q w0 child' w0' Hq. replace (Z.of_nat (length pos) + 1) with
          (Z.of_nat (length q)) by lia. apply IH. }
    simpl in Hl1, Hm1.
    assert (sameFace node (setChildren (lrNode r) children')) as Hface'.
    { destruct Hface as (? & ? & ? & ? & ?). by repeat split. }
    rewrite shown_step.
    assert (expanded (setChildren (lrNode r) children') = true) as ->.
    { unfold expanded. simpl. destruct Hface as (_ & _ & Hd & Ho & _).
      rewrite Hd, Ho, Hopen. simpl.
      apply andb_prop in Hopen as [Hd' _]. rewrite Hd' in Hok. exact Hok. }
    simpl Children. rewrite (Hlabel _ Hface').
    split; [by rewrite Hl1, <- app_assoc|]. split; [|done].
    rewrite Hm1. reflexivity.
  - rewrite Hsome. simpl. intros [= <- <-]. simpl. rewrite Hn.
    rewrite shown_step.
    assert (expanded node = false) as ->.
    { unfold expanded. by rewrite Hl, Hld, andb_false_r. }
    rewrite (Hlabel node (sameFace_refl _)). split; [done|]. split; [done|].
    apply sameFace_refl.
Qed.

End WalkProofs.

Section WalkReturns.
Context {sorter : SliceSorter} {S : Type} {ld : Loader S} {styling : Styling} {uni : Unicode}.
Hypothesis List_returns : forall path st, is_Some (List path st).
Hypothesis List_closed : forall path st children st',
  List path st = Some (inr children, st') -> Forall (fun c => Open c = false) children.

Lemma EnsureLoaded_returns (n : Node) (st : S) : exists r, EnsureLoaded n st = Some r.
Proof.
  unfold EnsureLoaded. destruct (negb (IsDir n) || loaded n || negb (loader n)); [by eexists|].
  destruct (List_returns (Path n) st) as [[[e|children] st'] ->]; by eexists.
Qed.

(** After a load the children are closed, or they are the children the node
    had. *)
Lemma EnsureLoaded_children (n : Node) (st : S) r :
  EnsureLoaded n st = Some r ->
  Children (lrNode r) = Children n \/ Forall (fun c => Open c = false) (Children (lrNode r)).
Proof.
  unfold EnsureLoaded. destruct (negb (IsDir n) || loaded n || negb (loader n)).
  { intros [= <-]. by left. }
  destruct (List (Path n) st) as [[[e|children] st']|] eqn:HL; [| |done].
  { intros [= <-]. by left. }
  intros [= <-]. right. simpl.
  apply List_closed in HL.
  assert (Permutation (sortSlice nodeLess (map (fun child => setLoader child (loader n)) children))
                      (map (fun child => setLoader child (loader n)) children)) as ->
    by apply sortSlice_perm.
  apply Forall_map. eapply Forall_impl; [exact HL|]. done.
Qed.

Lemma walkChildren_returns (walk : Node -> list nat -> WalkState S -> option (Node * WalkState S))
  children :
  (forall child q w, In child children -> is_Some (walk child q w)) ->
  forall i pos w, is_Some (walkChildren walk children i pos w).
Proof.
  induction children as [|child rest IH]; intros Hwalk i pos w; simpl; [by eexists|].
  destruct (Hwalk child (pos ++ [i])%list w (or_introl eq_refl)) as [[child' w1] ->]. simpl.
  destruct (IH (fun c q w0 Hc => Hwalk c q w0 (or_intror Hc)) (Datatypes.S i) pos w1)
    as [[rest' w2] ->].
  by eexists.
Qed.

Lemma walkN_closed fuel depth node pos w :
  0 <= depth -> Open node = false -> is_Some (walkN (Datatypes.S fuel) depth node pos w).
Proof.
  intros Hd Ho. simpl. destruct (formatTreeLabel_some node depth Hd) as (lbl & ->). simpl.
  rewrite Ho, andb_false_r. by eexists.
Qed.

Lemma walkN_returns fuel :
  forall depth node pos w,
    0 <= depth -> (height node < fuel)%nat -> is_Some (walkN fuel depth node pos w).
Proof.
  induction fuel as [|fuel IH]; intros depth node pos w Hd Hh; [lia|].
  simpl. destruct (formatTreeLabel_some node depth Hd) as (lbl & ->). simpl.
  destruct (IsDir node && Open node); [|by eexists].
  destruct (EnsureLoaded_returns node (wsLoader w)) as (r & Hr). rewrite Hr. simpl.
  destruct (lrErr r); simpl; [by eexists|].
  match goal with |- is_Some (x ← walkChildren ?f ?cs ?i0 ?q0 ?w0; _) =>
    assert (forall child q w1, In child cs -> is_Some (f child q w1)) as Hall;
      [|destruct (walkChildren_returns f cs Hall i0 q0 w0) as [[cs' w'] ->]; by eexists]
  end.
  intros child q w0 Hin.
  destruct (EnsureLoaded_children _ _ _ Hr) as [Hsame|Hclosed].
  - apply IH; [lia|]. rewrite Hsame in Hin. apply height_child in Hin. lia.
  - rewrite Forall_forall in Hclosed. specialize (Hclosed child (proj2 (list_elem_of_In _ _) Hin)).
    destruct fuel as [|fuel']; [destruct node; simpl in Hh; lia|].
    apply walkN_closed; [lia|done].
Qed.

End WalkReturns.

(** *** The lines and the positions they point to *)

Lemma shownChildren_In cs :
  forall (i : nat) q (j : nat) c line,
    cs !! j = Some c -> In line (shown c (q ++ [(i + j)%nat])%list) ->
    In line (shownChildren shown cs i q).
Proof.
  induction cs as [|c0 cs IH]; intros i q j c line Hj Hin; [done|].
  simpl. apply in_or_app. destruct j as [|j]; simpl in Hj.
  - injection Hj as ->. left. by rewrite Nat.add_0_r in Hin.
  - right. apply (IH (Datatypes.S i) q j c); [done|].
    by replace (Datatypes.S i + j)%nat with (i + Datatypes.S j)%nat by lia.
Qed.

Lemma shownChildren_inv cs :
  forall (i : nat) q line,
    In line (shownChildren shown cs i q) ->
    exists (j : nat) c, cs !! j = Some c /\ In line (shown c (q ++ [(i + j)%nat])%list).
Proof.
  induction cs as [|c0 cs IH]; intros i q line Hin; [done|].
  simpl in Hin. apply in_app_or in Hin as [Hin|Hin].
  - exists 0%nat, c0. split; [done|]. by rewrite Nat.add_0_r.
  - destruct (IH _ _ _ Hin) as (j & c & Hj & Hc).
    exists (Datatypes.S j), c. split; [done|].
    by replace (i + Datatypes.S j)%nat with (Datatypes.S i + j)%nat by lia.
Qed.

Lemma shown_valid k :
  forall n q line,
    (height n <= k)%nat -> In line (shown n q) ->
    exists rel m, entry line = (q ++ rel)%list /\ nodeAt rel n = Some m /\
                  visibleAt rel n /\ label line = labelAt m (entry line).
Proof.
  induction k as [|k IH]; intros n q line Hh.
  { destruct n; simpl in Hh; lia. }
  rewrite shown_step. intros [<-|Hin].
  { exists [], n. simpl. rewrite app_nil_r. done. }
  destruct (expanded n) eqn:Hexp; [|done].
  apply shownChildren_inv in Hin as (j & c & Hj & Hin). simpl in Hin.
  assert (In c (Children n)) as Hc by (apply list_elem_of_In; by eapply list_elem_of_lookup_2).
  apply height_child in Hc.
  destruct (IH c _ line ltac:(lia) Hin) as (rel & m & He & Hm & Hv & Hl).
  exists (j :: rel), m. rewrite He, <- app_assoc. simpl. rewrite Hj. simpl.
  split; [done|]. split; [done|]. split; [|by rewrite Hl, He, <- app_assoc].
  split; [done|]. by exists c.
Qed.

Lemma shown_contains rel :
  forall n q m,
    nodeAt rel n = Some m -> visibleAt rel n ->
    In (mkTreeLine (q ++ rel) (labelAt m (q ++ rel))) (shown n q).
Proof.
  induction rel as [|i rel IH]; intros n q m; simpl.
  { intros [= <-] _. rewrite shown_step, app_nil_r. by left. }
  destruct (Children n !! i) as [c|] eqn:Hi; [|done]. simpl.
  intros Hm (Hexp & c' & [= <-] & Hv).
  rewrite shown_step, Hexp. right.
  apply (shownChildren_In _ 0 q i c); [done|]. simpl.
  replace (q ++ i :: rel)%list with ((q ++ [i]) ++ rel)%list by (by rewrite <- app_assoc).
  by apply IH.
Qed.

Lemma shown_lines_of_nodes root :
  Forall (lineOfNode root) (shown root []).
Proof.
  rewrite Forall_forall. intros line Hin. apply list_elem_of_In in Hin.
  destruct (shown_valid (height root) root [] line ltac:(lia) Hin) as (rel & m & He & Hm & _ & Hl).
  simpl in He. exists m. rewrite He. split; [done|].
  rewrite Hl, He. unfold labelAt.
  destruct (formatTreeLabel_some m (Z.of_nat (length rel))) as (lbl & ->); [lia|done].
Qed.

(** *** A tree in which nothing is left to load *)

Lemma settled_child n c : settled n -> In c (Children n) -> settled c.
Proof.
  intros [? _ Hall] Hin. rewrite Forall_forall in Hall. by apply Hall, list_elem_of_In.
Qed.

Lemma settled_setOpen n o : settled n -> settled (setOpen n o).
Proof. intros [? Hs Hall]. by constructor. Qed.

Lemma settled_setChildren n cs :
  settled n -> Forall settled cs -> settled (setChildren n cs).
Proof. intros [? Hs _] Hall. by constructor. Qed.

Lemma settled_expanded n :
  settled n -> IsDir n = true -> Open n = true -> expanded n = true.
Proof.
  intros [? Hs _] Hd Ho. unfold expanded. rewrite Hd, Ho in *. simpl in *. done.
Qed.

Lemma openAlong_face parts n : sameFace n (openAlong parts n).
Proof.
  destruct parts as [|part rest]; simpl; [apply sameFace_refl|].
  destruct (ChildByName n part); [by repeat split|apply sameFace_refl].
Qed.

Lemma openAlong_settled parts : forall n, settled n -> settled (openAlong parts n).
Proof.
  induction parts as [|part rest IH]; intros n Hn; simpl; [done|].
  destruct (ChildByName n part); [|done].
  apply settled_setChildren; [done|].
  inversion Hn as [? _ Hall]; subst.
  apply updateFirst_Forall; [|done].
  intros c Hc. apply IH. destruct (IsDir c); [by apply settled_setOpen|done].
Qed.

Lemma updateFirstM_pure {A St : Type} (p : A -> bool) (f : A -> St -> option (A * St))
  (g : A -> A) (P : A -> Prop) l s :
  (forall x, P x -> f x s = Some (g x, s)) -> Forall P l ->
  updateFirstM p f l s = Some (updateFirst p g l, s).
Proof.
  intros Hf. induction 1 as [|x l Hx Hl IH]; simpl; [done|].
  destruct (p x); [by rewrite Hf|]. by rewrite IH.
Qed.

Section SettledWalk.
Context {sorter : SliceSorter} {S : Type} {ld : Loader S} {styling : Styling} {uni : Unicode}.

Lemma EnsureLoaded_settled (n : Node) (st : S) :
  settled n -> EnsureLoaded n st = Some (mkLoadResult n None [] st).
Proof. intros [? Hs _]. by apply EnsureLoaded_skip. Qed.

Lemma loadNode_settled (n : Node) (st : S) e :
  settled n -> loadNode (Some n) st e = Some (true, Some n, st, e).
Proof. intros Hn. unfold loadNode. by rewrite EnsureLoaded_settled. Qed.

Lemma walkChildren_settled (walk : Node -> list nat -> WalkState S -> option (Node * WalkState S))
  pos children :
  (forall child q w, In child children -> length q = Datatypes.S (length pos) ->
     walk child q w =
       Some (child, mkWalkState (wsLines w ++ shown child q)
                      (widest (shown child q) (wsMaxWidth w)) (wsLoader w) (wsErr w))) ->
  forall (i : nat) w,
    walkChildren walk children i pos w =
      Some (children, mkWalkState (wsLines w ++ shownChildren shown children i pos)
                        (widest (shownChildren shown children i pos) (wsMaxWidth w))
                        (wsLoader w) (wsErr w)).
Proof.
  induction children as [|child rest IH]; intros Hwalk i w; simpl.
  { rewrite app_nil_r. by destruct w. }
  rewrite (Hwalk child _ _ (or_introl eq_refl)) by (rewrite length_app; simpl; lia). simpl.
  rewrite (IH (fun c q w0 Hc => Hwalk c q w0 (or_intror Hc))). simpl.
  by rewrite widest_app, <- app_assoc.
Qed.

Lemma walkN_settled fuel :
  forall node pos w,
    settled node -> (height node <= fuel)%nat ->
    walkN fuel (Z.of_nat (length pos)) node pos w =
      Some (node, mkWalkState (wsLines w ++ shown node pos)
                    (widest (shown node pos) (wsMaxWidth w)) (wsLoader w) (wsErr w)).
Proof.
  induction fuel as [|fuel IH]; intros node pos w Hs Hh.
  { destruct node; simpl in Hh; lia. }
  simpl walkN.
  destruct (formatTreeLabel_some node (Z.of_nat (length pos))) as (lbl & Hlbl); [lia|].
  rewrite Hlbl. simpl. rewrite shown_step.
  assert (labelAt node pos = lbl) as -> by (unfold labelAt; by rewrite Hlbl).
  destruct (IsDir node && Open node) eqn:Hopen.
  2:{ assert (expanded node = false) as -> by (unfold expanded; by rewrite Hopen). done. }
  assert (expanded node = true) as ->.
  { apply andb_prop in Hopen as [? ?]. by apply settled_expanded. }
  rewrite EnsureLoaded_settled by done. simpl.
  rewrite (walkChildren_settled _ pos (Children node)).
  2:{ intros child q w0 Hin Hq.
      replace (Z.of_nat (length pos) + 1) with (Z.of_nat (length q)) by lia.
      apply IH; [by eapply settled_child|]. apply height_child in Hin. lia. }
  simpl. by rewrite setChildren_same, <- app_assoc.
Qed.

End SettledWalk.

Section SettledExpand.
Context {sorter : SliceSorter} {S : Type} {ld : Loader S} {uni : Unicode}.

Lemma expandParts_settled parts :
  forall (n : Node) (s : S * option Error),
    settled n -> expandParts parts n s = Some (openAlong parts n, s).
Proof.
  induction parts as [|part rest IH]; intros n [st e] Hn; simpl; [done|].
  rewrite EnsureLoaded_settled by done. simpl.
  destruct (ChildByName n part); [|done].
  erewrite (updateFirstM_pure (nameIs part) _ _ settled); [done| |by inversion Hn].
  intros c Hc. apply IH. destruct (IsDir c); [by apply settled_setOpen|done].
Qed.

End SettledExpand.

(** *** The reach of [expandPath] *)

Lemma throughDirs_face parts n n' x :
  Children n' = Children n -> throughDirs parts n x -> throughDirs parts n' x.
Proof.
  intros Hc. destruct 1 as [part n x Hx|part rest n c x Hcn Hd Hrest].
  - apply throughDirs_last. unfold ChildByName in *. by rewrite Hc.
  - eapply throughDirs_step; [|done|done]. unfold ChildByName in *. by rewrite Hc.
Qed.

Lemma find_lookup (p : Node -> bool) cs c :
  List.find p cs = Some c ->
  exists i, cs !! i = Some c /\ forall f, updateFirst p f cs !! i = Some (f c).
Proof.
  induction cs as [|c0 cs IH]; simpl; [done|].
  destruct (p c0) eqn:Hp.
  - intros [= <-]. exists 0%nat. by split.
  - intros Hf. destruct (IH Hf) as (i & Hi & Hu). exists (Datatypes.S i). by split.
Qed.

(** Along a path through settled directories [expandPath] leaves every node
    above the target expanded, so the target is among the lines. *)
Lemma openAlong_visible parts :
  forall n x,
    throughDirs parts n x -> settled n -> expanded n = true ->
    exists rel x',
      nodeAt rel (openAlong parts n) = Some x' /\ visibleAt rel (openAlong parts n) /\
      Path x' = Path x /\ Name x' = Name x.
Proof.
  induction parts as [|part rest IH]; intros n x Hthrough Hs Hexp; [inversion Hthrough|].
  assert (expanded (openAlong (part :: rest) n) = true) as Hexp'.
  { destruct (openAlong_face (part :: rest) n) as (_ & _ & Hd & Ho & Hl).
    simpl. destruct (ChildByName n part); [|done]. exact Hexp. }
  inversion Hthrough as [? ? ? Hx|? ? ? c ? Hc Hd Hrest]; subst.
  - simpl. rewrite Hx. destruct (find_lookup _ _ _ Hx) as (i & Hi & Hu).
    exists [i]. eexists. simpl. rewrite Hu. simpl. split; [done|].
    split; [|by destruct (IsDir x)].
    split; [exact Hexp|]. eexists. by split.
  - simpl. rewrite Hc. destruct (find_lookup _ _ _ Hc) as (i & Hi & Hu).
    assert (settled c) as Hsc.
    { eapply settled_child; [exact Hs|]. apply list_elem_of_In. by eapply list_elem_of_lookup_2. }
    destruct (IH (setOpen c true) x) as (rel & x' & Hx' & Hv & Hp & Hn).
    { by apply (throughDirs_face rest c). }
    { by apply settled_setOpen. }
    { apply settled_expanded; [by apply settled_setOpen|done|done]. }
    exists (i :: rel), x'. simpl. rewrite Hu. simpl. rewrite Hd.
    split; [done|]. split; [|done].
    split; [exact Hexp|]. eexists. split; [reflexivity|]. done.
Qed.

(** *** The index of a path *)

Lemma indexLoop_finds root path lines :
  forall i,
    Forall (lineOfNode root) lines ->
    (exists line n, In line lines /\ nodeAt (entry line) root = Some n /\ Path n = path) ->
    exists (k : nat) line n,
      indexLoop root path lines i = Some (i + Z.of_nat k) /\
      lines !! k = Some line /\ nodeAt (entry line) root = Some n /\ Path n = path.
Proof.
  induction lines as [|line0 lines IH]; intros i Hall (line & n & Hin & Hn & Hp); [done|].
  apply Forall_cons in Hall as [(n0 & Hn0 & _) Hall]. simpl. rewrite Hn0. simpl.
  destruct (String.eqb_spec (Path n0) path) as [Heq|Hne].
  { exists 0%nat, line0, n0. rewrite Z.add_0_r. done. }
  destruct Hin as [->|Hin]; [congruence|].
  destruct (IH (i + 1) Hall) as (k & line' & n' & Hk & Hl & Hn' & Hp'); [by eauto|].
  exists (Datatypes.S k), line', n'. split; [rewrite Hk; f_equal; lia|done].
Qed.

Lemma indexLoop_range root path lines :
  forall i idx, indexLoop root path lines i = Some idx ->
    idx = -1 \/ i <= idx < i + Z.of_nat (length lines).
Proof.
  induction lines as [|line0 lines IH]; intros i idx; simpl; [intros [= <-]; by left|].
  destruct (nodeAt (entry line0) root) as [n|]; [|done]. simpl.
  destruct (String.eqb (Path n) path); [intros [= <-]; right; lia|].
  intros Hidx. destruct (IH _ _ Hidx); [by left|right; lia].
Qed.

(** *** Changes that keep the height, the positions and what is settled *)

Lemma height_step n : height n = Datatypes.S (fold_right Nat.max 0%nat (map height (Children n))).
Proof.
  destruct n as [nm pth d o cs ld lded]. simpl. f_equal.
  induction cs as [|c cs IH]; simpl; [done|]. by rewrite IH.
Qed.

Lemma height_same_children n n' :
  map height (Children n') = map height (Children n) -> height n' = height n.
Proof. intros Hc. by rewrite (height_step n), (height_step n'), Hc. Qed.

Lemma height_setOpen n o : height (setOpen n o) = height n.
Proof. by apply height_same_children. Qed.

Lemma updateFirst_heights (p : Node -> bool) f cs :
  (forall c, In c cs -> height (f c) = height c) ->
  map height (updateFirst p f cs) = map height cs.
Proof.
  induction cs as [|c cs IH]; intros Hf; simpl; [done|].
  destruct (p c); simpl.
  - by rewrite Hf by (by left).
  - rewrite IH; [done|]. intros c' Hc'. apply Hf. by right.
Qed.

Lemma openAlong_height parts : forall n, height (openAlong parts n) = height n.
Proof.
  induction parts as [|part rest IH]; intros n; simpl; [done|].
  destruct (ChildByName n part); [|done].
  apply height_same_children. simpl. apply updateFirst_heights.
  intros c _. rewrite IH. destruct (IsDir c); [apply height_setOpen|done].
Qed.

Lemma replaceAt_height pos new :
  forall root old,
    nodeAt pos root = Some old -> height new = height old ->
    height (replaceAt pos new root) = height root.
Proof.
  induction pos as [|i pos IH]; intros root old.
  { simpl. by intros [= ->]. }
  simpl nodeAt. simpl replaceAt.
  destruct (Children root !! i) as [c|] eqn:Hi; [|done]. intros Hold Hh. simpl in Hold.
  apply height_same_children. simpl Children.
  rewrite list_fmap_insert. apply list_insert_id.
  rewrite list_lookup_fmap, Hi. simpl. f_equal. symmetry. by eapply IH.
Qed.

Lemma replaceAt_settled pos new :
  forall root, settled root -> settled new -> settled (replaceAt pos new root).
Proof.
  induction pos as [|i pos IH]; intros root Hr Hn; simpl; [done|].
  destruct (Children root !! i) as [c|] eqn:Hi; [|done].
  apply settled_setChildren; [done|].
  inversion Hr as [? _ Hall]; subst.
  apply Forall_insert; [done|]. apply IH; [|done].
  rewrite Forall_forall in Hall. apply Hall. by eapply list_elem_of_lookup_2.
Qed.

Lemma nodeAt_replaceAt pos new :
  forall root old, nodeAt pos root = Some old -> nodeAt pos (replaceAt pos new root) = Some new.
Proof.
  induction pos as [|i pos IH]; intros root old; simpl; [done|].
  destruct (Children root !! i) as [c|] eqn:Hi; [|done]. simpl. intros Hold.
  rewrite list_lookup_insert_eq by (by eapply lookup_lt_Some). simpl. by eapply IH.
Qed.

Lemma visibleAt_replaceAt pos new :
  forall root old,
    nodeAt pos root = Some old -> visibleAt pos root -> visibleAt pos (replaceAt pos new root).
Proof.
  induction pos as [|i pos IH]; intros root old; simpl; [done|].
  destruct (Children root !! i) as [c|] eqn:Hi; [|done]. simpl.
  intros Hold (Hexp & c' & [= <-] & Hv). split; [exact Hexp|].
  eexists. split; [apply list_lookup_insert_eq; by eapply lookup_lt_Some|]. by eapply IH.
Qed.

Lemma visibleAt_app a :
  forall b n, visibleAt (a ++ b) n -> exists m, nodeAt a n = Some m /\ visibleAt b m.
Proof.
  induction a as [|i a IH]; intros b n; simpl; [by eauto|].
  intros (_ & c & Hc & Hv). rewrite Hc. simpl. by apply IH.
Qed.

Lemma setOpen_same n : setOpen n (Open n) = n.
Proof. by destruct n. Qed.

(** *** What the panel functions leave alone *)

Section PanelProofs.
Context {sorter : SliceSorter} {S : Type} {ld : Loader S}
        {VP : Type} {viewport : Viewport VP} {styling : Styling} {uni : Unicode}.

Lemma ensureSelectionVisible_keeps (p : Panel VP S) :
  flatTree (ensureSelectionVisible p) = flatTree p /\
  treeSelection (ensureSelectionVisible p) = treeSelection p /\
  treeRoot (ensureSelectionVisible p) = treeRoot p /\
  loaderState (ensureSelectionVisible p) = loaderState p /\
  model (ensureSelectionVisible p) = model p.
Proof.
  unfold ensureSelectionVisible.
  destruct ((lenFlat p =? 0) || (vpHeight (treeVP p) =? 0)); [done|].
  destruct (treeSelection p <? vpYOffset (treeVP p)); [done|].
  by destruct (treeSelection p >? _).
Qed.

Lemma updateTreeContent_keeps width (p : Panel VP S) :
  flatTree (updateTreeContent width p) = flatTree p /\
  treeSelection (updateTreeContent width p) = treeSelection p /\
  treeRoot (updateTreeContent width p) = treeRoot p /\
  loaderState (updateTreeContent width p) = loaderState p /\
  model (updateTreeContent width p) = model p.
Proof.
  unfold updateTreeContent. destruct (treeRoot p) eqn:Hroot; [|done].
  match goal with |- context [ensureSelectionVisible ?q] =>
    destruct (ensureSelectionVisible_keeps q) as (-> & -> & -> & -> & ->) end.
  done.
Qed.

Lemma currentTreeEntry_at (p : Panel VP S) (k : nat) line :
  treeSelection p = Z.of_nat k -> flatTree p !! k = Some line ->
  currentTreeEntry p = Some (entry line).
Proof.
  intros Hsel Hk. unfold currentTreeEntry, lenFlat. rewrite Hsel.
  apply lookup_lt_Some in Hk as Hlt.
  destruct (Z.eqb_spec (Z.of_nat (length (flatTree p))) 0); [lia|].
  destruct (Z.ltb_spec (Z.of_nat k) 0); [lia|].
  destruct (Z.geb_spec (Z.of_nat k) (Z.of_nat (length (flatTree p)))); [lia|].
  simpl. by rewrite Nat2Z.id, Hk.
Qed.

Lemma currentTreeEntry_inv (p : Panel VP S) pos :
  currentTreeEntry p = Some pos ->
  exists (k : nat) line, treeSelection p = Z.of_nat k /\ flatTree p !! k = Some line /\
                         entry line = pos.
Proof.
  unfold currentTreeEntry, lenFlat.
  destruct (Z.eqb_spec (Z.of_nat (length (flatTree p))) 0); [done|].
  destruct (Z.ltb_spec (treeSelection p) 0); [done|].
  destruct (Z.geb_spec (treeSelection p) (Z.of_nat (length (flatTree p)))); [done|].
  simpl. destruct (flatTree p !! Z.to_nat (treeSelection p)) as [line|] eqn:Hk; [|done].
  simpl. intros [= <-]. exists (Z.to_nat (treeSelection p)), line.
  split; [lia|done].
Qed.

(** On a settled tree [rebuildFlatTree] lists the shown nodes and changes
    nothing else. *)
Lemma rebuildFlatTreeN_settled fuel (p : Panel VP S) root :
  treeRoot p = Some root -> settled root -> (height root <= fuel)%nat ->
  rebuildFlatTreeN fuel p =
    Some (widest (shown root []) 0,
          setFlatTree (setLoaded3 p root (loaderState p) (err (model p))) (shown root [])).
Proof.
  intros Hroot Hs Hh. unfold rebuildFlatTreeN. rewrite Hroot.
  change 0 with (Z.of_nat (length (@nil nat))) at 1.
  rewrite walkN_settled by done. done.
Qed.

(** After the flat tree of a settled tree has been rebuilt, a path whose
    node is among the lines is selected at its first line. *)
Lemma selectPath_finds path (p : Panel VP S) root rel x :
  treeRoot p = Some root -> flatTree p = shown root [] ->
  nodeAt rel root = Some x -> visibleAt rel root -> Path x = path ->
  exists (k : nat) line x',
    selectPath path p = Some (setTreeSelection p (Z.of_nat k)) /\
    flatTree p !! k = Some line /\ nodeAt (entry line) root = Some x' /\ Path x' = path.
Proof.
  intros Hroot Hflat Hx Hv Hp.
  pose proof (shown_contains rel root [] x Hx Hv) as Hin. simpl in Hin.
  destruct (indexLoop_finds root path (shown root []) 0 (shown_lines_of_nodes root))
    as (k & line & x' & Hk & Hl & Hx' & Hp').
  { eexists _, x. split; [exact Hin|]. by split. }
  exists k, line, x'.
  assert (indexForPath path p = Some (Z.of_nat k)) as Hidx.
  { unfold indexForPath. rewrite Hflat, Hroot.
    destruct (shown root []) as [|l0 ls] eqn:Hshown; [done|]. exact Hk. }
  unfold selectPath. rewrite Hidx, Hflat. simpl.
  destruct (Z.geb_spec (Z.of_nat k) 0); [|lia]. done.
Qed.

End PanelProofs.

(** ** Properties of the tree panel *)

(** X16. [treeWidth] leaves room for the content: for a terminal of
    [totalWidth] columns the width of the tree panel lies between 0 and
    [totalWidth]; it leaves the content at least [minContentWidth] columns
    whenever the terminal has that many, is 0 on a narrower terminal, and is 0
    when the tree is hidden. *)
Theorem treeWidth_leaves_room_for_the_content (visible : bool)
  (preferredWidth frame totalWidth : Z) :
  0 <= frame -> 0 <= totalWidth ->
  0 <= treeWidth visible preferredWidth frame totalWidth <= totalWidth /\
  (minContentWidth <= totalWidth ->
   minContentWidth <= totalWidth - treeWidth visible preferredWidth frame totalWidth) /\
  (totalWidth < minContentWidth -> treeWidth visible preferredWidth frame totalWidth = 0) /\
  (visible = false -> treeWidth visible preferredWidth frame totalWidth = 0).
Proof.
  intros Hframe Htotal. unfold treeWidth, minContentWidth.
  destruct visible; simpl; [|lia].
  set (preferred := if preferredWidth <=? 0 then defaultTreeWidth else preferredWidth).
  set (minPanel := max (minTreePanelWidth - frame) 0).
  set (maxPanel := max (Z.quot totalWidth 2 - frame) minPanel).
  assert (0 <= minPanel) as Hmin.
  { unfold minPanel, max. destruct (Z.gtb_spec (minTreePanelWidth - frame) 0); lia. }
  assert (minPanel <= maxPanel) as Hmax.
  { unfold maxPanel, max. destruct (Z.gtb_spec (Z.quot totalWidth 2 - frame) minPanel); lia. }
  assert (minPanel <= clamp preferred minPanel maxPanel) as Hclamp.
  { unfold clamp. destruct (Z.ltb_spec preferred minPanel); [lia|].
    destruct (Z.gtb_spec preferred maxPanel); lia. }
  set (width := clamp preferred minPanel maxPanel + frame) in *.
  destruct (Z.ltb_spec (totalWidth - width) 20).
  - unfold max. destruct (Z.gtb_spec (totalWidth - 20) 0).
    + destruct (Z.gtb_spec (totalWidth - 20) totalWidth); lia.
    + destruct (Z.gtb_spec 0 totalWidth); lia.
  - destruct (Z.gtb_spec width totalWidth); lia.
Qed.

Lemma treeWidth_leaves_room_for_the_content_witness :
  0 <= treeWidth true 0 3 80 <= 80 /\
  (minContentWidth <= 80 -> minContentWidth <= 80 - treeWidth true 0 3 80) /\
  (80 < minContentWidth -> treeWidth true 0 3 80 = 0) /\
  (true = false -> treeWidth true 0 3 80 = 0).
Proof. apply (treeWidth_leaves_room_for_the_content true 0 3 80); lia. Defined.

(** X17. [rebuildFlatTree] lists what the tree shows: without a root it
    leaves no lines and returns 0; otherwise, when it returns, the lines are
    the root followed, below every directory that is open and whose children
    are loaded (the walk loads them on its way), by its children in their
    order, each with its own lines; every line points to a node of the tree
    and carries the label of that node for its depth; a position is listed
    exactly when every node above it is such a directory; the number returned
    is the greatest width of a label; name, path, kind and open flag of the
    root are as before.  It returns for every recursion budget above the
    height of the tree when the loader returns and lists closed nodes. *)
Theorem rebuildFlatTree_lists_what_the_tree_shows {uni : Unicode} (sorter : SliceSorter) (S : Type)
  (ld : Loader S) (VP : Type) (styling : Styling) (fuel : nat) (p : Panel VP S) :
  (treeRoot p = None -> rebuildFlatTreeN fuel p = Some (0, setFlatTree p [])) /\
  (forall root maxWidth p',
      treeRoot p = Some root ->
      rebuildFlatTreeN fuel p = Some (maxWidth, p') ->
      exists root',
        treeRoot p' = Some root' /\ sameFace root root' /\
        flatTree p' = shown root' [] /\
        Forall (lineOfNode root') (flatTree p') /\
        (forall pos n, nodeAt pos root' = Some n ->
           (visibleAt pos root' <-> In (mkTreeLine pos (labelAt n pos)) (flatTree p'))) /\
        maxWidth = widest (flatTree p') 0 /\
        treeSelection p' = treeSelection p /\ treeVP p' = treeVP p) /\
  (forall root,
      treeRoot p = Some root ->
      (forall path st, is_Some (List path st)) ->
      (forall path st children st',
          List path st = Some (inr children, st') ->
          Forall (fun c => Open c = false) children) ->
      (height root < fuel)%nat ->
      is_Some (rebuildFlatTreeN fuel p)).
Proof.
  split; [|split].
  - intros Hroot. unfold rebuildFlatTreeN. by rewrite Hroot.
  - intros root maxWidth p' Hroot. unfold rebuildFlatTreeN. rewrite Hroot.
    destruct (walkN fuel 0 root [] _) as [[root' w]|] eqn:Hwalk; [|done]. simpl.
    intros [= <- <-].
    change 0 with (Z.of_nat (length (@nil nat))) in Hwalk at 1.
    apply walkN_shown in Hwalk as (Hlines & Hmax & Hface). simpl in Hlines, Hmax.
    exists root'. simpl. rewrite Hlines, Hmax.
    split; [done|]. split; [done|]. split; [done|].
    split; [apply shown_lines_of_nodes|]. split; [|done].
    intros pos n Hn. split.
    + intros Hv. by apply (shown_contains pos root' [] n).
    + intros Hin.
      destruct (shown_valid (height root') root' [] _ ltac:(lia) Hin)
        as (rel & m & He & _ & Hv & _).
      simpl in He. by subst rel.
  - intros root Hroot Hret Hclosed Hh. unfold rebuildFlatTreeN. rewrite Hroot.
    destruct (walkN_returns Hret Hclosed fuel 0 root []
                (mkWalkState [] 0 (loaderState p) (err (model p))) ltac:(lia) Hh)
      as [[root' w] ->].
    by eexists.
Qed.

Lemma rebuildFlatTree_lists_what_the_tree_shows_witness :
  exists root',
    treeRoot lazyPanelRebuilt = Some root' /\ sameFace demoDir root' /\
    flatTree lazyPanelRebuilt = shown root' [] /\
    Forall (lineOfNode root') (flatTree lazyPanelRebuilt) /\
    (forall pos n, nodeAt pos root' = Some n ->
       (visibleAt pos root' <-> In (mkTreeLine pos (labelAt n pos)) (flatTree lazyPanelRebuilt))) /\
    6 = widest (styling := plainStyling) (flatTree lazyPanelRebuilt) 0 /\
    treeSelection lazyPanelRebuilt = treeSelection lazyPanel /\
    treeVP lazyPanelRebuilt = treeVP lazyPanel.
Proof.
  refine (proj1 (proj2 (rebuildFlatTree_lists_what_the_tree_shows insertionSorter FSLoader
                          (fsLoader demoFS 8) PlainViewport plainStyling 4 lazyPanel))
            demoDir 6 lazyPanelRebuilt _ _).
  - reflexivity.
  - vm_compute. reflexivity.
Defined.

(** X18. [moveTreeSelection] stays on a line: with an empty flat tree it
    changes nothing; otherwise the selection afterwards is the old one plus
    [delta], cut to the range of the lines, so that there is a current entry;
    the lines and the tree are as before. *)
Theorem moveTreeSelection_stays_on_a_line (S : Type) (VP : Type) (viewport : Viewport VP)
  (styling : Styling) (delta : Z) (p : Panel VP S) :
  (flatTree p = [] -> moveTreeSelection delta p = p) /\
  (flatTree p <> [] ->
     0 <= treeSelection (moveTreeSelection delta p) < lenFlat p /\
     (0 <= treeSelection p + delta < lenFlat p ->
      treeSelection (moveTreeSelection delta p) = treeSelection p + delta) /\
     (treeSelection p + delta < 0 -> treeSelection (moveTreeSelection delta p) = 0) /\
     (lenFlat p <= treeSelection p + delta ->
      treeSelection (moveTreeSelection delta p) = lenFlat p - 1) /\
     flatTree (moveTreeSelection delta p) = flatTree p /\
     treeRoot (moveTreeSelection delta p) = treeRoot p /\
     is_Some (currentTreeEntry (moveTreeSelection delta p))).
Proof.
  split.
  - intros Hempty. unfold moveTreeSelection, lenFlat. by rewrite Hempty.
  - intros Hne. unfold moveTreeSelection.
    assert (0 < lenFlat p) as Hlen.
    { unfold lenFlat. destruct (flatTree p); [done|simpl; lia]. }
    destruct (Z.eqb_spec (lenFlat p) 0) as [?|_]; [lia|]. cbv zeta.
    set (q := setTreeSelection p (clamp (treeSelection p + delta) 0 (lenFlat p - 1))).
    destruct (updateTreeContent_keeps (treeContentWidth q) q) as (Hflat & Hsel & Hroot & _ & _).
    assert (currentTreeEntry (updateTreeContent (treeContentWidth q) q) = currentTreeEntry q)
      as Hcur by (unfold currentTreeEntry, lenFlat; by rewrite Hflat, Hsel).
    rewrite Hflat, Hsel, Hroot, Hcur. subst q. simpl.
    assert (0 <= clamp (treeSelection p + delta) 0 (lenFlat p - 1) < lenFlat p) as Hrange.
    { unfold clamp. destruct (Z.ltb_spec (treeSelection p + delta) 0); [lia|].
      destruct (Z.gtb_spec (treeSelection p + delta) (lenFlat p - 1)); lia. }
    split; [done|].
    split; [unfold clamp; intros ?;
            destruct (Z.ltb_spec (treeSelection p + delta) 0); [lia|];
            destruct (Z.gtb_spec (treeSelection p + delta) (lenFlat p - 1)); lia|].
    split; [unfold clamp; intros ?;
            destruct (Z.ltb_spec (treeSelection p + delta) 0); lia|].
    split; [unfold clamp; intros ?;
            destruct (Z.ltb_spec (treeSelection p + delta) 0); [lia|];
            destruct (Z.gtb_spec (treeSelection p + delta) (lenFlat p - 1)); lia|].
    split; [done|]. split; [done|].
    unfold currentTreeEntry. simpl.
    change (lenFlat (setTreeSelection p _)) with (lenFlat p).
    destruct (Z.eqb_spec (lenFlat p) 0); [lia|].
    destruct (Z.ltb_spec (clamp (treeSelection p + delta) 0 (lenFlat p - 1)) 0); [lia|].
    destruct (Z.geb_spec (clamp (treeSelection p + delta) 0 (lenFlat p - 1)) (lenFlat p)); [lia|].
    simpl.
    destruct (flatTree p !! Z.to_nat (clamp (treeSelection p + delta) 0 (lenFlat p - 1)))
      eqn:Hk; [by eexists|].
    apply lookup_ge_None in Hk. unfold lenFlat in *. lia.
Qed.

Lemma moveTreeSelection_stays_on_a_line_witness :
  0 <= treeSelection (moveTreeSelection (styling := plainStyling) 5 builtPanel) < lenFlat builtPanel /\
  (0 <= treeSelection builtPanel + 5 < lenFlat builtPanel ->
   treeSelection (moveTreeSelection (styling := plainStyling) 5 builtPanel)
   = treeSelection builtPanel + 5) /\
  (treeSelection builtPanel + 5 < 0 ->
   treeSelection (moveTreeSelection (styling := plainStyling) 5 builtPanel) = 0) /\
  (lenFlat builtPanel <= treeSelection builtPanel + 5 ->
   treeSelection (moveTreeSelection (styling := plainStyling) 5 builtPanel)
   = lenFlat builtPanel - 1) /\
  flatTree (moveTreeSelection (styling := plainStyling) 5 builtPanel) = flatTree builtPanel /\
  treeRoot (moveTreeSelection (styling := plainStyling) 5 builtPanel) = treeRoot builtPanel /\
  is_Some (currentTreeEntry (moveTreeSelection (styling := plainStyling) 5 builtPanel)).
Proof.
  apply (proj2 (moveTreeSelection_stays_on_a_line unit PlainViewport plainViewport plainStyling
                  5 builtPanel)).
  discriminate.
Defined.

(** X19. [ensureSelectionVisible] brings the selection into the window:
    for a flat tree that is not empty and a viewport of positive height that
    takes the offset this call asks for, the selected line lies afterwards
    between the viewport's offset and its last line; and a selection that lay
    in the window already leaves the panel as it is. *)
Theorem ensureSelectionVisible_shows_the_selection (S : Type) (VP : Type)
  (viewport : Viewport VP) (p : Panel VP S) :
  flatTree p <> [] -> 0 < vpHeight (treeVP p) ->
  (forall n,
      (treeSelection p < vpYOffset (treeVP p) /\ n = treeSelection p) \/
      (vpYOffset (treeVP p) + vpHeight (treeVP p) - 1 < treeSelection p /\
       n = treeSelection p - vpHeight (treeVP p) + 1) ->
      vpYOffset (SetYOffset (treeVP p) n) = n /\
      vpHeight (SetYOffset (treeVP p) n) = vpHeight (treeVP p)) ->
  vpYOffset (treeVP (ensureSelectionVisible p)) <= treeSelection p /\
  treeSelection p <= vpYOffset (treeVP (ensureSelectionVisible p))
                     + vpHeight (treeVP (ensureSelectionVisible p)) - 1 /\
  (vpYOffset (treeVP p) <= treeSelection p ->
   treeSelection p <= vpYOffset (treeVP p) + vpHeight (treeVP p) - 1 ->
   ensureSelectionVisible p = p).
Proof.
  intros Hne Hh Hset. unfold ensureSelectionVisible.
  assert ((lenFlat p =? 0) = false) as ->.
  { apply Z.eqb_neq. unfold lenFlat. destruct (flatTree p); [done|simpl; lia]. }
  assert ((vpHeight (treeVP p) =? 0) = false) as -> by (apply Z.eqb_neq; lia).
  simpl.
  destruct (Z.ltb_spec (treeSelection p) (vpYOffset (treeVP p))) as [Hup|Hup].
  { destruct (Hset (treeSelection p)) as [Ho Hhh]; [by left|]. simpl.
    rewrite Ho, Hhh. repeat split; lia. }
  destruct (Z.gtb_spec (treeSelection p) (vpYOffset (treeVP p) + vpHeight (treeVP p) - 1))
    as [Hdown|Hdown].
  { destruct (Hset (treeSelection p - vpHeight (treeVP p) + 1)) as [Ho Hhh];
      [right; split; [lia|done]|].
    simpl. rewrite Ho, Hhh. repeat split; lia. }
  split; [lia|]. split; [lia|done].
Qed.

Lemma ensureSelectionVisible_shows_the_selection_witness :
  vpYOffset (treeVP (ensureSelectionVisible narrowPanel)) <= treeSelection narrowPanel /\
  treeSelection narrowPanel <= vpYOffset (treeVP (ensureSelectionVisible narrowPanel))
                               + vpHeight (treeVP (ensureSelectionVisible narrowPanel)) - 1 /\
  (vpYOffset (treeVP narrowPanel) <= treeSelection narrowPanel ->
   treeSelection narrowPanel <= vpYOffset (treeVP narrowPanel) + vpHeight (treeVP narrowPanel) - 1 ->
   ensureSelectionVisible narrowPanel = narrowPanel).
Proof.
  apply (ensureSelectionVisible_shows_the_selection unit PlainViewport plainViewport narrowPanel).
  - discriminate.
  - simpl. lia.
  - intros n [[Hlt ->]|[Hlt ->]]; [vm_compute in Hlt; discriminate|].
    vm_compute. split; reflexivity.
Defined.

(** *** Rebuilding and selecting on a settled tree *)

Lemma setErr_same {VP : Type} (m : Model VP) : setErr m (err m) = m.
Proof. by destruct m. Qed.

Lemma root_opened (root : Node) :
  (if negb (Open root) then setOpen root true else root) = setOpen root true.
Proof. destruct (Open root) eqn:Ho; simpl; [|done]. by rewrite <- Ho, setOpen_same. Qed.

Section SettledPanel.
Context {sorter : SliceSorter} {S : Type} {ld : Loader S}
        {VP : Type} {viewport : Viewport VP} {styling : Styling} {uni : Unicode}.

Lemma setLoaded3_keep (p : Panel VP S) (r : Node) :
  setLoaded3 p r (loaderState p) (err (model p)) = setTreeRoot p (Some r).
Proof. destruct p as [m vp vis pw cw tf r0 st fl sel]. by destruct m. Qed.

Lemma setLoaded3_same (p : Panel VP S) (root : Node) :
  treeRoot p = Some root -> setLoaded3 p root (loaderState p) (err (model p)) = p.
Proof.
  destruct p as [m vp vis pw cw tf r0 st fl sel]. destruct m. simpl. by intros ->.
Qed.

Lemma rebuildFlatTreeN_unchanged fuel (p : Panel VP S) root :
  treeRoot p = Some root -> settled root -> (height root <= fuel)%nat ->
  rebuildFlatTreeN fuel p = Some (widest (shown root []) 0, setFlatTree p (shown root [])).
Proof.
  intros Hroot Hs Hh. rewrite (rebuildFlatTreeN_settled fuel p root Hroot Hs Hh).
  by rewrite (setLoaded3_same p root Hroot).
Qed.

Lemma expandPath_settled path (p : Panel VP S) root :
  treeRoot p = Some root -> settled root -> path <> EmptyString ->
  expandPath path p
  = Some (setTreeRoot p (Some (openAlong (Split path "/"%char) (setOpen root true)))).
Proof.
  intros Hroot Hs Hpath. unfold expandPath. rewrite Hroot.
  destruct (String.eqb_spec path EmptyString) as [?|_]; [done|].
  rewrite root_opened.
  rewrite expandParts_settled by (by apply settled_setOpen).
  simpl. by rewrite setLoaded3_keep.
Qed.

(** The last steps of [refreshTreeViewWithSelection] and [closeOrAscend]:
    the selection goes to the first line of the path and the content of the
    panel is written again. *)
Lemma selectPath_then_update path width (q : Panel VP S) root rel x :
  treeRoot q = Some root -> flatTree q = shown root [] ->
  nodeAt rel root = Some x -> visibleAt rel root -> Path x = path ->
  exists q' line x',
    selectPath path q = Some q' /\ (lenFlat q >? 0) = true /\
    nodeAt (entry line) root = Some x' /\ Path x' = path /\
    forall p', p' = updateTreeContent width (setTreeContentWidth q' width) ->
      treeRoot p' = Some root /\ flatTree p' = shown root [] /\
      currentTreeEntry p' = Some (entry line) /\
      loaderState p' = loaderState q /\ model p' = model q.
Proof.
  intros Hroot Hflat Hx Hv Hp.
  destruct (selectPath_finds path q root rel x Hroot Hflat Hx Hv Hp)
    as (k & line & x' & Hsel & Hk & Hx' & Hp').
  exists (setTreeSelection q (Z.of_nat k)), line, x'.
  split; [exact Hsel|]. split.
  { apply Z.gtb_lt. unfold lenFlat. apply lookup_lt_Some in Hk. lia. }
  split; [exact Hx'|]. split; [exact Hp'|].
  intros p' ->.
  destruct (updateTreeContent_keeps width
              (setTreeContentWidth (setTreeSelection q (Z.of_nat k)) width))
    as (Hflat' & Hsel' & Hroot' & Hst' & Hm').
  split; [rewrite Hroot'; exact Hroot|].
  split; [rewrite Hflat'; exact Hflat|].
  split; [|split; [rewrite Hst'; reflexivity|rewrite Hm'; reflexivity]].
  apply (currentTreeEntry_at _ k); [rewrite Hsel'; reflexivity|rewrite Hflat'; exact Hk].
Qed.

End SettledPanel.

(** X20. [refreshTreeViewWithSelection] selects the path it is given: in
    a tree where nothing is left to load (every directory is loaded or has no
    loader, as in a built tree), for a path that is not empty and whose
    segments lead from the root through directories to a node with that path,
    the call opens the root and the directories on the way, rebuilds the flat
    tree and leaves the selection on a line whose node has the path; the
    loader and the error slot are as before. *)
Theorem refreshTreeViewWithSelection_selects_the_path {uni : Unicode}
  (sorter : SliceSorter) (S : Type)
  (ld : Loader S) (VP : Type) (viewport : Viewport VP) (styling : Styling)
  (fuel : nat) (path : string) (p : Panel VP S) (root x : Node) :
  treeRoot p = Some root -> settled root -> IsDir root = true ->
  path <> EmptyString ->
  throughDirs (Split path "/"%char) root x -> Path x = path ->
  (height root <= fuel)%nat ->
  exists p' pos x',
    refreshTreeViewWithSelectionN fuel path p = Some p' /\
    treeRoot p' = Some (openAlong (Split path "/"%char) (setOpen root true)) /\
    flatTree p' = shown (openAlong (Split path "/"%char) (setOpen root true)) [] /\
    currentTreeEntry p' = Some pos /\
    nodeAt pos (openAlong (Split path "/"%char) (setOpen root true)) = Some x' /\
    Path x' = path /\
    loaderState p' = loaderState p /\ model p' = model p.
Proof.
  intros Hroot Hs Hd Hpath Hthrough Hx Hh.
  remember (setOpen root true) as root1 eqn:E1.
  remember (openAlong (Split path "/"%char) root1) as root2 eqn:E2.
  assert (settled root1) as Hs1 by (rewrite E1; by apply settled_setOpen).
  assert (settled root2) as Hs2 by (rewrite E2; by apply openAlong_settled).
  assert (height root2 <= fuel)%nat as Hh2.
  { by rewrite E2, E1, openAlong_height, height_setOpen. }
  destruct (openAlong_visible (Split path "/"%char) root1 x) as (rel & x1 & Hx1 & Hv & Hp1 & _).
  { rewrite E1. by apply (throughDirs_face _ root). }
  { done. }
  { apply settled_expanded; [done|by rewrite E1|by rewrite E1]. }
  rewrite <- E2 in Hx1, Hv.
  unfold refreshTreeViewWithSelectionN.
  rewrite Hroot, (loadNode_settled root _ _ Hs). simpl.
  rewrite (setLoaded3_same p root Hroot).
  rewrite (expandPath_settled path p root Hroot Hs Hpath), <- E1, <- E2. simpl.
  remember (setTreeRoot p (Some root2)) as p2 eqn:Ep2.
  assert (treeRoot p2 = Some root2) as Hr2 by (rewrite Ep2; reflexivity).
  assert (loaderState p2 = loaderState p) as Hl2 by (rewrite Ep2; reflexivity).
  assert (model p2 = model p) as Hm2 by (rewrite Ep2; reflexivity).
  clear Ep2.
  rewrite (rebuildFlatTreeN_unchanged fuel p2 root2 Hr2 Hs2 Hh2). simpl.
  remember (setFlatTree p2 (shown root2 [])) as p3 eqn:Ep3.
  assert (treeRoot p3 = Some root2) as Hr3 by (rewrite Ep3; exact Hr2).
  assert (flatTree p3 = shown root2 []) as Hf3 by (rewrite Ep3; reflexivity).
  assert (loaderState p3 = loaderState p) as Hl3 by (rewrite Ep3; exact Hl2).
  assert (model p3 = model p) as Hm3 by (rewrite Ep3; exact Hm2).
  clear Ep3.
  destruct (selectPath_then_update path (widest (shown root2 []) 0) p3 root2 rel x1
              Hr3 Hf3 Hx1 Hv ltac:(congruence))
    as (q' & line & x' & Hsel & Hlen & Hx' & Hp' & Hkeeps).
  rewrite Hlen, Hsel. simpl.
  destruct (Hkeeps _ eq_refl) as (Hr & Hf & Hc & Hl & Hm).
  eexists _, (entry line), x'. split; [reflexivity|].
  split; [exact Hr|]. split; [exact Hf|]. split; [exact Hc|].
  split; [exact Hx'|]. split; [exact Hp'|].
  split; [by rewrite Hl|by rewrite Hm].
Qed.

Lemma refreshTreeViewWithSelection_selects_the_path_witness :
  exists p' pos x',
    refreshTreeViewWithSelectionN (sorter := insertionSorter) (ld := noLoader)
      (styling := plainStyling) 3 "b/c.md" builtPanel = Some p' /\
    treeRoot p' = Some (openAlong (Split "b/c.md" "/"%char) (setOpen builtDocs true)) /\
    flatTree p' = shown (openAlong (Split "b/c.md" "/"%char) (setOpen builtDocs true)) [] /\
    currentTreeEntry p' = Some pos /\
    nodeAt pos (openAlong (Split "b/c.md" "/"%char) (setOpen builtDocs true)) = Some x' /\
    Path x' = "b/c.md" /\
    loaderState p' = loaderState builtPanel /\ model p' = model builtPanel.
Proof.
  apply (refreshTreeViewWithSelection_selects_the_path insertionSorter unit noLoader
           PlainViewport plainViewport plainStyling 3 "b/c.md" builtPanel builtDocs
           (mkNode "c.md" "b/c.md" false false [] false false)).
  - reflexivity.
  - repeat constructor.
  - reflexivity.
  - discriminate.
  - eapply throughDirs_step; [reflexivity|reflexivity|]. apply throughDirs_last. reflexivity.
  - reflexivity.
  - simpl. lia.
Defined.

(** X21. [closeOrAscend] on an open directory closes it: in a tree where
    nothing is left to load and whose flat tree is up to date, when the
    current entry is an open directory, the call closes that directory,
    rebuilds the flat tree, in which no line lies below the directory any
    more, and leaves the selection on a line whose node has the directory's
    path; the loader and the error slot are as before. *)
Theorem closeOrAscend_closes_the_directory {uni : Unicode} (sorter : SliceSorter) (S : Type)
  (ld : Loader S) (VP : Type) (viewport : Viewport VP) (styling : Styling)
  (fuel : nat) (p : Panel VP S) (root : Node) (pos : list nat) (dir : Node) :
  treeRoot p = Some root -> settled root -> flatTree p = shown root [] ->
  currentTreeEntry p = Some pos -> nodeAt pos root = Some dir ->
  IsDir dir = true -> Open dir = true ->
  (height root <= fuel)%nat ->
  exists p' pos' dir',
    closeOrAscendN fuel p = Some p' /\
    treeRoot p' = Some (replaceAt pos (setOpen dir false) root) /\
    nodeAt pos (replaceAt pos (setOpen dir false) root) = Some (setOpen dir false) /\
    flatTree p' = shown (replaceAt pos (setOpen dir false) root) [] /\
    (forall line, In line (flatTree p') ->
       forall i rest, entry line <> (pos ++ i :: rest)%list) /\
    currentTreeEntry p' = Some pos' /\
    nodeAt pos' (replaceAt pos (setOpen dir false) root) = Some dir' /\
    Path dir' = Path dir /\
    loaderState p' = loaderState p /\ model p' = model p.
Proof.
  intros Hroot Hs Hflat Hcur Hdir Hd Ho Hh.
  assert (settled dir) as Hsd.
  { clear Hcur Hflat Hroot Hh. revert root Hs Hdir.
    induction pos as [|i pos IH]; intros root Hs; simpl; [by intros [= <-]|].
    destruct (Children root !! i) as [c|] eqn:Hi; [|done]. simpl.
    apply IH. eapply settled_child; [exact Hs|].
    apply list_elem_of_In. by eapply list_elem_of_lookup_2. }
  remember (replaceAt pos (setOpen dir false) root) as root' eqn:Eroot'.
  assert (settled root') as Hs'
    by (rewrite Eroot'; apply replaceAt_settled; [done|by apply settled_setOpen]).
  assert (height root' <= fuel)%nat as Hh'.
  { rewrite Eroot', (replaceAt_height pos _ root dir); [done|done|apply height_setOpen]. }
  assert (nodeAt pos root' = Some (setOpen dir false)) as Hdir'
    by (rewrite Eroot'; by eapply nodeAt_replaceAt).
  (* the current entry is among the lines, so every node above it is expanded *)
  apply currentTreeEntry_inv in Hcur as Hcur'. destruct Hcur' as (k & line & Hsel & Hk & Hpos).
  assert (visibleAt pos root) as Hv.
  { rewrite Hflat in Hk. apply list_elem_of_lookup_2, list_elem_of_In in Hk.
    destruct (shown_valid (height root) root [] line ltac:(lia) Hk) as (rel & m & He & _ & Hv & _).
    simpl in He. congruence. }
  assert (visibleAt pos root') as Hv' by (rewrite Eroot'; by eapply visibleAt_replaceAt).
  unfold closeOrAscendN. rewrite Hcur, Hroot. simpl. rewrite Hdir. simpl.
  rewrite Hd, Ho. simpl. rewrite <- Eroot'.
  remember (setTreeRoot p (Some root')) as p2 eqn:Ep2.
  assert (treeRoot p2 = Some root') as Hr2 by (rewrite Ep2; reflexivity).
  assert (loaderState p2 = loaderState p) as Hl2 by (rewrite Ep2; reflexivity).
  assert (model p2 = model p) as Hm2 by (rewrite Ep2; reflexivity).
  clear Ep2.
  rewrite (rebuildFlatTreeN_unchanged fuel p2 root' Hr2 Hs' Hh'). simpl.
  remember (setFlatTree p2 (shown root' [])) as p3 eqn:Ep3.
  assert (treeRoot p3 = Some root') as Hr3 by (rewrite Ep3; exact Hr2).
  assert (flatTree p3 = shown root' []) as Hf3 by (rewrite Ep3; reflexivity).
  assert (loaderState p3 = loaderState p) as Hl3 by (rewrite Ep3; exact Hl2).
  assert (model p3 = model p) as Hm3 by (rewrite Ep3; exact Hm2).
  clear Ep3.
  destruct (selectPath_then_update (Path dir) (widest (shown root' []) 0) p3 root' pos
              (setOpen dir false) Hr3 Hf3 Hdir' Hv' eq_refl)
    as (q' & line' & dir' & Hsel' & _ & Hdir'' & Hp' & Hkeeps).
  rewrite Hsel'. simpl.
  destruct (Hkeeps _ eq_refl) as (Hr & Hf & Hc & Hl & Hm).
  eexists _, (entry line'), dir'. split; [reflexivity|].
  split; [exact Hr|]. split; [exact Hdir'|]. split; [exact Hf|].
  split.
  { rewrite Hf. intros l Hin i rest He.
    destruct (shown_valid (height root') root' [] l ltac:(lia) Hin)
      as (rel & m & He' & _ & Hvl & _).
    simpl in He'. rewrite He' in He. subst rel.
    apply visibleAt_app in Hvl as (m' & Hm'' & Hvm). rewrite Hdir' in Hm''.
    injection Hm'' as <-. simpl in Hvm. destruct Hvm as [Hexp _].
    unfold expanded in Hexp. simpl in Hexp. by rewrite andb_false_r in Hexp. }
  split; [exact Hc|]. split; [exact Hdir''|]. split; [exact Hp'|].
  split; [by rewrite Hl|by rewrite Hm].
Qed.

Lemma closeOrAscend_closes_the_directory_witness :
  exists p' pos' dir',
    closeOrAscendN (sorter := insertionSorter) (ld := noLoader) (styling := plainStyling)
      3 openedPanel = Some p' /\
    treeRoot p' = Some (replaceAt [0%nat]
                          (setOpen (mkNode "b" "b" true true
                                      [mkNode "c.md" "b/c.md" false false [] false false]
                                      false false) false) openedDocs) /\
    nodeAt [0%nat]
      (replaceAt [0%nat]
         (setOpen (mkNode "b" "b" true true
                     [mkNode "c.md" "b/c.md" false false [] false false] false false) false)
         openedDocs)
    = Some (setOpen (mkNode "b" "b" true true
                       [mkNode "c.md" "b/c.md" false false [] false false] false false) false) /\
    flatTree p' = shown (replaceAt [0%nat]
                           (setOpen (mkNode "b" "b" true true
                                       [mkNode "c.md" "b/c.md" false false [] false false]
                                       false false) false) openedDocs) [] /\
    (forall line, In line (flatTree p') ->
       forall i rest, entry line <> ([0%nat] ++ i :: rest)%list) /\
    currentTreeEntry p' = Some pos' /\
    nodeAt pos' (replaceAt [0%nat]
                   (setOpen (mkNode "b" "b" true true
                               [mkNode "c.md" "b/c.md" false false [] false false]
                               false false) false) openedDocs) = Some dir' /\
    Path dir' = "b" /\
    loaderState p' = loaderState openedPanel /\ model p' = model openedPanel.
Proof.
  apply (closeOrAscend_closes_the_directory insertionSorter unit noLoader
           PlainViewport plainViewport plainStyling 3 openedPanel openedDocs [0%nat]
           (mkNode "b" "b" true true [mkNode "c.md" "b/c.md" false false [] false false]
                   false false)).
  - reflexivity.
  - repeat constructor.
  - vm_compute. reflexivity.
  - reflexivity.
  - reflexivity.
  - reflexivity.
  - reflexivity.
  - simpl. lia.
Defined.
